(** * Cyber Christmas Tree: particle animator, gallery layout and carousel

    A shallow embedding of the numeric core of the scene:
    - [ParticleSystem.useFrame] (src/components/ParticleSystem.tsx),
    - the particle generator of [TreeLogic] (src/components/TreeLogic.tsx),
    - [easeInOutCubic], the carousel of [ChristmasFilmFrame] and the layout
      solver of [PhotoGallery] (the photo gallery component),
    - the rotation of the tree group in [Experience.useFrame], the
      trajectory of [CyberDog.useFrame], the hand reading of
      [GestureController.predictWebcam] and the state handlers of [App].

    JavaScript numbers are IEEE doubles.  Throughout this development they are
    idealised as real numbers: rounding, NaN and infinities are not modelled,
    and the Float32Array that stores the running positions is taken to store
    the reals it is given.  [Math.random()] is modelled by explicit draws
    read from a stream through a cursor, in the order the source draws them. *)

From Stdlib Require Import Reals Lra Lia ZArith List Bool String Psatz.
Import ListNotations.

Open Scope R_scope.

Set Warnings "-abstract-large-number".

(** ** JavaScript and three.js numeric helpers *)

Module JSMath.

(** [Math.floor], as a real. *)
Definition floor (x : R) : R := IZR (Zfloor x).

(** Rounding toward zero, the quotient the [%] operator uses. *)
Definition trunc (x : R) : R :=
  if Rle_dec 0 x then IZR (Zfloor x) else IZR (Zceil x).

(** The remainder operator [x % y]: the result has the sign of the
    dividend and magnitude below that of the divisor. *)
Definition rem (x y : R) : R := x - y * trunc (x / y).

(** [Math.cbrt]. *)
Definition cbrt (x : R) : R :=
  if Rlt_dec 0 x then exp (ln x / 3)
  else if Rlt_dec x 0 then - exp (ln (- x) / 3)
  else 0.

(** [THREE.MathUtils.clamp]: [Math.max(min, Math.min(max, value))]. *)
Definition clamp (value lo hi : R) : R := Rmax lo (Rmin hi value).

(** [THREE.MathUtils.lerp]: [(1 - t) * x + t * y]. *)
Definition lerp (x y t : R) : R := (1 - t) * x + t * y.

(** [THREE.MathUtils.degToRad]. *)
Definition degToRad (d : R) : R := d * (PI / 180).

End JSMath.

(** ** THREE.Vector3, THREE.Euler, THREE.Color *)

Record Vector3 : Type := mkVector3 { vx : R; vy : R; vz : R }.

Record Euler : Type := mkEuler { ex : R; ey : R; ez : R }.

(** Colours are carried symbolically; no property below reads them. *)
Inductive Color : Type :=
| ColorHex (hex : string)
| LerpColors (c1 c2 : Color) (alpha : R).

Module Vec.

(** [this.x += (v.x - this.x) * alpha] on each component. *)
Definition lerp (this v : Vector3) (alpha : R) : Vector3 :=
  mkVector3 (vx this + (vx v - vx this) * alpha)
            (vy this + (vy v - vy this) * alpha)
            (vz this + (vz v - vz this) * alpha).

Definition add (a b : Vector3) : Vector3 :=
  mkVector3 (vx a + vx b) (vy a + vy b) (vz a + vz b).

Definition distanceToSquared (a b : Vector3) : R :=
  (vx a - vx b) * (vx a - vx b)
  + (vy a - vy b) * (vy a - vy b)
  + (vz a - vz b) * (vz a - vz b).

Definition distanceTo (a b : Vector3) : R := sqrt (distanceToSquared a b).

Definition lengthSq (a : Vector3) : R :=
  vx a * vx a + vy a * vy a + vz a * vz a.

Definition length (a : Vector3) : R := sqrt (lengthSq a).

End Vec.

(** ** Random draws

    [Rand A] is a computation that reads draws of [Math.random()] from the
    stream [s], starting at the cursor, and returns the new cursor. *)

Definition Rand (A : Type) : Type := (nat -> R) -> nat -> A * nat.

Definition ret {A : Type} (a : A) : Rand A := fun _ n => (a, n).

Definition bind {A B : Type} (c : Rand A) (k : A -> Rand B) : Rand B :=
  fun s n => let (a, n') := c s n in k a s n'.

(** One call of [Math.random()]. *)
Definition random : Rand R := fun s n => (s n, S n).

Notation "x <- c ;; k" := (bind c (fun x => k))
  (at level 61, c at next level, right associativity).

(** [for (let i = start; i < start + count; i++) acc = body i acc]. *)
Fixpoint forLoopFrom {St : Type} (start count : nat)
         (body : nat -> St -> Rand St) (acc : St) : Rand St :=
  match count with
  | O => ret acc
  | S count' =>
      acc' <- body start acc ;; forLoopFrom (S start) count' body acc'
  end.

Definition forLoop {St : Type} (count : nat)
           (body : nat -> St -> Rand St) (init : St) : Rand St :=
  forLoopFrom 0 count body init.

(** Every draw of [Math.random()] lies in [0,1). *)
Definition unitDraws (s : nat -> R) : Prop := forall n, 0 <= s n < 1.

(** ** Shared types (src/types.ts) *)

Inductive AppState : Type := TREE | EXPLODE.

Inductive ParticleType : Type := LEAF | ORNAMENT | RIBBON | STAR_PARTICLE.

Record ParticleData : Type := mkParticleData {
  id : nat;
  treePosition : Vector3;
  explodePosition : Vector3;
  rotation : Euler;
  scale : R;
  color : option Color;
  type : ParticleType
}.

Definition AppState_eqb (a b : AppState) : bool :=
  match a, b with
  | TREE, TREE | EXPLODE, EXPLODE => true
  | _, _ => false
  end.

Definition ParticleType_eqb (a b : ParticleType) : bool :=
  match a, b with
  | LEAF, LEAF | ORNAMENT, ORNAMENT | RIBBON, RIBBON
  | STAR_PARTICLE, STAR_PARTICLE => true
  | _, _ => false
  end.

(** ** Carousel easing *)

(** [x < 0.5 ? 4 * x * x * x : 1 - Math.pow(-2 * x + 2, 3) / 2] *)
Definition easeInOutCubic (x : R) : R :=
  if Rlt_dec x 0.5 then 4 * x * x * x else 1 - (-2 * x + 2) ^ 3 / 2.

(** The two arms of the conditional, named to compare them at the seam. *)
Definition easeIn_arm (x : R) : R := 4 * x * x * x.
Definition easeOut_arm (x : R) : R := 1 - (-2 * x + 2) ^ 3 / 2.

(** ** The photo carousel of [ChristmasFilmFrame] (dispersed mode) *)

Module Carousel.

Definition Z_DEPTH_EXPLODE : R := 20.
Definition HOLD_DURATION : R := 1.0.
Definition MOVE_DURATION : R := 0.8.
Definition CYCLE_DURATION : R := HOLD_DURATION + MOVE_DURATION.

Definition cycleIndex (time : R) : R := JSMath.floor (time / CYCLE_DURATION).
Definition cyclePhase (time : R) : R := JSMath.rem time CYCLE_DURATION.

(** [scrollIndex] after the optional eased increment of the MOVE phase. *)
Definition scrollIndex (time : R) : R :=
  if Rlt_dec HOLD_DURATION (cyclePhase time)
  then cycleIndex time
       + easeInOutCubic ((cyclePhase time - HOLD_DURATION) / MOVE_DURATION)
  else cycleIndex time.

(** The wrapped horizontal position [x]: the remainder, then the two
    one-sided corrections, in the order of the source. *)
Definition wrapX (baseX currentScrollOffset totalWidth : R) : R :=
  let x := JSMath.rem (baseX - currentScrollOffset) totalWidth in
  let x := if Rlt_dec x (- totalWidth / 2) then x + totalWidth else x in
  let x := if Rlt_dec (totalWidth / 2) x then x - totalWidth else x in
  x.

Definition panelX (index total : nat) (itemStride scroll : R) : R :=
  let totalWidth := INR total * itemStride in
  let currentScrollOffset := scroll * itemStride in
  let baseX := INR index * itemStride in
  wrapX baseX currentScrollOffset totalWidth.

(** What the carousel branch hands to the smoothing step: the target
    position and the target scale.  [baseScaleVal] and
    [visibleHeightAtDepth] come from the camera, which is outside this
    model. *)
Record Target : Type := mkTarget { targetPos : Vector3; finalTargetScale : R }.

Definition carouselTarget (index total : nat)
           (baseScaleVal visibleHeightAtDepth time : R) : Target :=
  let visualFrameWidth := 1.4 * baseScaleVal in
  let gap := visualFrameWidth * 0.1 in
  let itemStride := visualFrameWidth + gap in
  let x := panelX index total itemStride (scrollIndex time) in
  let distFromCenter := Rabs x in
  let sideScaleFactor := 0.6 in
  let centerScaleFactor := 1.4 in
  let influenceDist := itemStride * 1.0 in
  let yOffset := visibleHeightAtDepth / 8 in
  if Rlt_dec distFromCenter influenceDist then
    let t := distFromCenter / influenceDist in
    let easeT := easeInOutCubic t in
    let scaleFactor :=
      centerScaleFactor * (1 - easeT) + sideScaleFactor * easeT in
    mkTarget (mkVector3 x yOffset (Z_DEPTH_EXPLODE + 4 * (1 - easeT)))
             (baseScaleVal * scaleFactor)
  else
    mkTarget (mkVector3 x yOffset Z_DEPTH_EXPLODE)
             (baseScaleVal * sideScaleFactor).

End Carousel.

(** ** The particle generator of [TreeLogic] *)

Module TreeLogic.

Definition treeHeight : R := 25.
Definition baseRadius : R := 8.
Definition countLeaves : nat := 6000.
Definition countOrnaments : nat := 80.
Definition countRibbon : nat := 1800.
Definition countStar : nat := 400.

(** Random point in a sphere, for the explosion. *)
Definition randomSpherePoint (r : R) : Rand Vector3 :=
  u <- random ;;
  v <- random ;;
  let theta := 2 * PI * u in
  let phi := acos (2 * v - 1) in
  w <- random ;;
  let radius := JSMath.cbrt w * r in
  ret (mkVector3 (radius * sin phi * cos theta)
                 (radius * sin phi * sin theta)
                 (radius * cos phi)).

(** Body of loop 1 (leaves). *)
Definition genLeaf (i : nat) : Rand ParticleData :=
  let id := i in
  d <- random ;;
  let y := d * treeHeight in
  let hPercent := y / treeHeight in
  let currentRadius := (1 - hPercent) * baseRadius in
  d <- random ;;
  let angle := d * PI * 2 in
  d <- random ;;
  let r := sqrt d * currentRadius in
  let treePos :=
    mkVector3 (cos angle * r) (y - treeHeight / 2) (sin angle * r) in
  explodePos <- randomSpherePoint 45 ;;
  d <- random ;;
  let scale := d * 0.3 + 0.1 in
  rx <- random ;;
  ry <- random ;;
  rz <- random ;;
  ret (mkParticleData id treePos explodePos
         (mkEuler (rx * PI) (ry * PI) (rz * PI)) scale None LEAF).

(** Body of loop 2 (ornaments); the flag is [isRed]. *)
Definition genOrnament (i : nat) : Rand (bool * ParticleData) :=
  let id := (countLeaves + i)%nat in
  d <- random ;;
  let y := d * treeHeight in
  let hPercent := y / treeHeight in
  let currentRadius := (1 - hPercent) * baseRadius * 0.9 in
  d <- random ;;
  let angle := d * PI * 2 in
  d <- random ;;
  let r := currentRadius + d * 0.5 in
  let treePos :=
    mkVector3 (cos angle * r) (y - treeHeight / 2) (sin angle * r) in
  explodePos <- randomSpherePoint 55 ;;
  d <- random ;;
  let scale := d * 0.3 + 0.25 in
  d <- random ;;
  let isRed := if Rlt_dec 0.5 d then true else false in
  rx <- random ;;
  ry <- random ;;
  ret (isRed,
       mkParticleData id treePos explodePos
         (mkEuler (rx * PI) (ry * PI) 0) scale None ORNAMENT).

Definition turns : R := 4.0.
Definition colorBottom : Color := ColorHex "#ffffdd".
Definition colorTop : Color := ColorHex "#fbbf24".

(** Body of loop 3 (ribbon spiral). *)
Definition genRibbon (i : nat) : Rand ParticleData :=
  let id := (countLeaves + countOrnaments + i)%nat in
  let pct := INR i / INR countRibbon in
  let y := pct * treeHeight in
  let hPercent := y / treeHeight in
  let spread := 0.2 + hPercent * 1.5 in
  d <- random ;;
  let currentRadius := (1 - hPercent) * baseRadius + 1.2 + (d - 0.5) * spread in
  let angle := pct * turns * PI * 2 in
  let treePos :=
    mkVector3 (cos angle * currentRadius) (y - treeHeight / 2)
              (sin angle * currentRadius) in
  explodePos <- randomSpherePoint 60 ;;
  d <- random ;;
  let scale := d * 0.15 + 0.08 in
  let color := LerpColors colorBottom colorTop hPercent in
  rx <- random ;;
  ry <- random ;;
  rz <- random ;;
  ret (mkParticleData id treePos explodePos (mkEuler rx ry rz) scale
         (Some color) RIBBON).

Definition outerRadius : R := 1.4.
Definition starCenterY : R := treeHeight / 2 + 1.5.

(** Body of loop 4 (star particles). *)
Definition genStar (i : nat) : Rand ParticleData :=
  let id := (countLeaves + countOrnaments + countRibbon + i)%nat in
  d <- random ;;
  let lobe := JSMath.floor (d * 5) in
  t <- random ;;
  let widthAtT := (1 - t) * 0.6 in
  let radialDist := t * outerRadius in
  let lobeAngle := lobe / 5 * PI * 2 - PI / 2 in
  let perpAngle := lobeAngle + PI / 2 in
  d <- random ;;
  let offset := (d - 0.5) * widthAtT in
  d <- random ;;
  let pt :=
    mkVector3 (cos lobeAngle * radialDist + cos perpAngle * offset)
              (sin lobeAngle * radialDist + sin perpAngle * offset)
              ((d - 0.5) * 0.6) in
  let treePos := Vec.add pt (mkVector3 0 starCenterY 0) in
  explodePos <- randomSpherePoint 80 ;;
  rx <- random ;;
  ry <- random ;;
  rz <- random ;;
  d <- random ;;
  ret (mkParticleData id treePos explodePos
         (mkEuler (rx * PI) (ry * PI) (rz * PI)) (d * 0.12 + 0.05)
         (Some colorTop) STAR_PARTICLE).

(** The five arrays the generator fills by [push]. *)
Record Generated : Type := mkGenerated {
  leaves : list ParticleData;
  redOrnaments : list ParticleData;
  goldOrnaments : list ParticleData;
  ribbonParticles : list ParticleData;
  starParticles : list ParticleData
}.

Definition pushLeaf (i : nat) (g : Generated) : Rand Generated :=
  p <- genLeaf i ;;
  ret (mkGenerated (leaves g ++ [p]) (redOrnaments g) (goldOrnaments g)
         (ribbonParticles g) (starParticles g)).

Definition pushOrnament (i : nat) (g : Generated) : Rand Generated :=
  rp <- genOrnament i ;;
  let (isRed, p) := rp : bool * ParticleData in
  if isRed
  then ret (mkGenerated (leaves g) (redOrnaments g ++ [p]) (goldOrnaments g)
              (ribbonParticles g) (starParticles g))
  else ret (mkGenerated (leaves g) (redOrnaments g) (goldOrnaments g ++ [p])
              (ribbonParticles g) (starParticles g)).

Definition pushRibbon (i : nat) (g : Generated) : Rand Generated :=
  p <- genRibbon i ;;
  ret (mkGenerated (leaves g) (redOrnaments g) (goldOrnaments g)
         (ribbonParticles g ++ [p]) (starParticles g)).

Definition pushStar (i : nat) (g : Generated) : Rand Generated :=
  p <- genStar i ;;
  ret (mkGenerated (leaves g) (redOrnaments g) (goldOrnaments g)
         (ribbonParticles g) (starParticles g ++ [p])).

(** The body of the generator's [useMemo]: the four loops in sequence. *)
Definition generate : Rand Generated :=
  g <- forLoop countLeaves pushLeaf (mkGenerated [] [] [] [] []) ;;
  g <- forLoop countOrnaments pushOrnament g ;;
  g <- forLoop countRibbon pushRibbon g ;;
  forLoop countStar pushStar g.

(** The radius handed to [randomSpherePoint] for each category. *)
Definition explodeRadius (ty : ParticleType) : R :=
  match ty with
  | LEAF => 45
  | ORNAMENT => 55
  | RIBBON => 60
  | STAR_PARTICLE => 80
  end.

(** The interval the generator draws [scale] from, per category. *)
Definition scaleRange (ty : ParticleType) (s : R) : Prop :=
  match ty with
  | LEAF => 0.1 <= s < 0.4
  | ORNAMENT => 0.25 <= s < 0.55
  | RIBBON => 0.08 <= s < 0.23
  | STAR_PARTICLE => 0.05 <= s < 0.17
  end.

(** What every particle of category [ty] satisfies when it leaves its loop:
    the category tag, the dispersed position inside the category's sphere,
    the scale inside the category's interval. *)
Definition generatedAs (ty : ParticleType) (p : ParticleData) : Prop :=
  type p = ty
  /\ Vec.length (explodePosition p) <= explodeRadius ty
  /\ scaleRange ty (scale p).

Definition wellGenerated (g : Generated) : Prop :=
  Forall (generatedAs LEAF) (leaves g)
  /\ Forall (generatedAs ORNAMENT) (redOrnaments g)
  /\ Forall (generatedAs ORNAMENT) (goldOrnaments g)
  /\ Forall (generatedAs RIBBON) (ribbonParticles g)
  /\ Forall (generatedAs STAR_PARTICLE) (starParticles g).

End TreeLogic.

(** ** The per-frame animator of [ParticleSystem] *)

Module ParticleSystem.

(** The refs that survive from one frame to the next. *)
Record Refs : Type := mkRefs {
  currentPositions : list Vector3;
  lastState : AppState;
  transitionStartTime : R
}.

(** What one iteration writes to the instanced mesh.  The rotation of the
    dummy object is left out: it is computed from the particle's rotation,
    the time and delta only, and feeds neither the position nor the scale. *)
Record Instance : Type := mkInstance { position : Vector3; instScale : R }.

(** Refs right after mount: [useLayoutEffect] copies every [treePosition],
    [lastState] starts at the mounted [appState], the start time at 0. *)
Definition initialRefs (data : list ParticleData) (appState : AppState) : Refs :=
  mkRefs (map treePosition data) appState 0.

(** [data.length > 0 ? data[0].type : 'LEAF'] *)
Definition systemType (data : list ParticleData) : ParticleType :=
  match data with
  | p :: _ => type p
  | [] => LEAF
  end.

Definition waveSpeed : R := 20.
Definition waveStartOffset : R := -15.

Definition currentWaveHeight (timeSinceTransition : R) : R :=
  waveStartOffset + timeSinceTransition * waveSpeed.

Section LoopBody.

Variables (isRibbon isStar isOrnament targetIsTree : bool).
Variables (time delta lerpFactor waveHeight : R).
Variable particle : ParticleData.

(** "Behavior Logic": the scale chosen by category and mode. *)
Definition behaviorScale : R :=
  if isRibbon then
    if targetIsTree then
      if Rlt_dec (vy (treePosition particle)) waveHeight then
        let normalizedH := (vy (treePosition particle) + 12.5) / 25 in
        scale particle * (0.8 + 0.4 * sin (time * 3 + normalizedH * 10))
      else 0.01
    else 0
  else if isStar then
    if targetIsTree then
      if Rlt_dec 14.0 waveHeight then
        let popProgress := Rmin 1 ((waveHeight - 14.0) / 5) in
        scale particle * popProgress
        * (1 + 0.3 * sin (time * 5 + INR (id particle)))
      else 0.001
    else 0
  else
    if targetIsTree then scale particle
    else if isOrnament then scale particle * 1.2 else scale particle.

(** "Behavior Logic": [tempTarget] after the bob or the chaotic drift. *)
Definition behaviorTarget : Vector3 :=
  let target :=
    if targetIsTree then treePosition particle else explodePosition particle in
  if isRibbon then target
  else if isStar then target
  else if targetIsTree then
    mkVector3 (vx target)
              (vy target + sin (time * 1.5 + INR (id particle) * 0.1) * 0.05)
              (vz target)
  else
    mkVector3 (vx target + cos (time * 0.3 + INR (id particle)) * 0.08)
              (vy target + sin (time * 0.2 + INR (id particle)) * 0.05)
              (vz target + sin (time * 0.3 + INR (id particle)) * 0.08).

(** "Lerp Position": the interpolation factor actually used. *)
Definition activeLerp : R :=
  if isRibbon && targetIsTree then
    if Rlt_dec (vy (treePosition particle)) waveHeight then 0.2 else 0.05
  else lerpFactor.

(** "Hide streaks", applied to the already interpolated position. *)
Definition hideStreaks (tempVec : Vector3) (scale : R) : R :=
  if isRibbon || isStar then
    if targetIsTree then
      if Rlt_dec 3.0 (Vec.distanceTo tempVec (treePosition particle))
      then 0.01 else scale
    else scale
  else scale.

(** One iteration of the loop over [data], from the running position read
    from [currentPositions] to the instance written to the mesh; the
    position of the instance is also what is saved back. *)
Definition stepParticle (current : Vector3) : Instance :=
  let tempVec := Vec.lerp current behaviorTarget activeLerp in
  mkInstance tempVec (hideStreaks tempVec behaviorScale).

End LoopBody.

(** The callback given to [useFrame], for a mounted mesh.  It returns the
    refs after the frame and the instances written, in index order. *)
Definition useFrame (data : list ParticleData) (appState : AppState)
           (animationSpeed : R) (elapsedTime delta : R) (refs : Refs)
  : Refs * list Instance :=
  let isRibbon := ParticleType_eqb (systemType data) RIBBON in
  let isStar := ParticleType_eqb (systemType data) STAR_PARTICLE in
  let isOrnament := ParticleType_eqb (systemType data) ORNAMENT in
  let changed := negb (AppState_eqb appState (lastState refs)) in
  let lastState' := if changed then appState else lastState refs in
  let transitionStartTime' :=
    if changed then elapsedTime else transitionStartTime refs in
  let targetIsTree := AppState_eqb appState TREE in
  let time := elapsedTime in
  let timeSinceTransition := time - transitionStartTime' in
  let lerpFactor := JSMath.clamp (delta * animationSpeed) 0 1 in
  let waveHeight := currentWaveHeight timeSinceTransition in
  let written :=
    map (fun pc : ParticleData * Vector3 =>
           stepParticle isRibbon isStar isOrnament targetIsTree time
                        lerpFactor waveHeight (fst pc) (snd pc))
        (combine data (currentPositions refs)) in
  (mkRefs (map position written) lastState' transitionStartTime', written).

(** A clock tick: elapsed time and delta, with the mode in force. *)
Record Tick : Type := mkTick {
  tickState : AppState;
  tickTime : R;
  tickDelta : R
}.

(** Successive frames of one mounted system; the instances written by each
    frame are collected in frame order. *)
Fixpoint runFrames (data : list ParticleData) (animationSpeed : R)
         (ticks : list Tick) (refs : Refs) : Refs * list (list Instance) :=
  match ticks with
  | [] => (refs, [])
  | tk :: rest =>
      let (refs', written) :=
        useFrame data (tickState tk) animationSpeed (tickTime tk)
                 (tickDelta tk) refs in
      let (refs'', later) := runFrames data animationSpeed rest refs' in
      (refs'', written :: later)
  end.

(** The chaotic drift added to the target of a leaf or an ornament in
    dispersed mode, as a displacement. *)
Definition chaoticDrift (time : R) (particle : ParticleData) : Vector3 :=
  mkVector3 (cos (time * 0.3 + INR (id particle)) * 0.08)
            (sin (time * 0.2 + INR (id particle)) * 0.05)
            (sin (time * 0.3 + INR (id particle)) * 0.08).

(** The instance written for particle [i] by frame [k] of a run. *)
Definition instanceAt (frames : list (list Instance)) (k i : nat)
  : option Instance :=
  match nth_error frames k with
  | Some written => nth_error written i
  | None => None
  end.

(** The elapsed time never goes back from one frame to a later one. *)
Definition clockAdvances (ticks : list Tick) : Prop :=
  forall a b ta tb,
    (a <= b)%nat ->
    nth_error ticks a = Some ta -> nth_error ticks b = Some tb ->
    tickTime ta <= tickTime tb.

(** Every frame of the run is rendered in mode [st]. *)
Definition heldIn (st : AppState) (ticks : list Tick) : Prop :=
  Forall (fun tk => tickState tk = st) ticks.

(** Every frame of the run is rendered in dispersed mode with the same
    frame delta [dt]. *)
Definition dispersedAtFixedDelta (dt : R) (ticks : list Tick) : Prop :=
  Forall (fun tk => tickState tk = EXPLODE /\ tickDelta tk = dt) ticks.

(** The animation-speed prop each system is mounted with in [TreeLogic]:
    the default 2.5, except 3.0 for the star. *)
Definition mountedSpeed (ty : ParticleType) : R :=
  match ty with
  | STAR_PARTICLE => 3.0
  | _ => 2.5
  end.

(** *** Vocabulary of the reveal

    The scales the animator uses to hide an instance are 0.01 and 0.001
    (and 0 in dispersed mode): a scale is near zero when it is at most
    0.01, visible when it is above. *)
Definition nearZero (s : R) : Prop := 0 <= s <= 0.01.
Definition visible (s : R) : Prop := 0.01 < s.

End ParticleSystem.

(** ** The layout solver of [PhotoGallery] *)

Module PhotoGallery.

Record LayoutEntry : Type := mkLayoutEntry { treePos : Vector3; treeRot : Euler }.

Definition treeHeight : R := 22.
Definition baseRadius : R := 7.5.
Definition yMin : R := -10.
Definition yMax : R := 7.
Definition minDistance : R := 3.6.
Definition maxAttempts : nat := 100.

(** Fallback spiral generator for when random placement fails. *)
Definition getSpiralPos (index count : nat) : Vector3 :=
  let hPct := INR index / INR count in
  let y := yMin + hPct * (yMax - yMin) in
  let hNorm := (y + 12.5) / 25 in
  let r := (1 - hNorm) * baseRadius + 1.2 in
  let angle := INR index * 2.5 in
  mkVector3 (cos angle * r) y (sin angle * r).

(** The inner [for (const existing of data)] loop with its [break]. *)
Definition collision (candidate : Vector3) (data : list LayoutEntry) : bool :=
  existsb (fun existing =>
             if Rlt_dec (Vec.distanceTo candidate (treePos existing)) minDistance
             then true else false)
          data.

(** One random candidate: height, radius offset and angle, drawn in this
    order. *)
Definition drawCandidate : Rand Vector3 :=
  d <- random ;;
  let y := yMin + d * (yMax - yMin) in
  let hFromBottom := y + 12.5 in
  let hNormalized := Rmax 0 (Rmin 1 (hFromBottom / 25)) in
  let coneRadius := (1 - hNormalized) * baseRadius in
  d <- random ;;
  let r := coneRadius + 0.8 + d * 0.5 in
  d <- random ;;
  let angle := d * PI * 2 in
  ret (mkVector3 (cos angle * r) y (sin angle * r)).

(** The attempt loop: [attemptsLeft] iterations remain; the first candidate
    free of collision is returned ([valid = true]), [None] stands for the
    loop running out with [valid = false]. *)
Fixpoint attemptLoop (attemptsLeft : nat) (data : list LayoutEntry)
  : Rand (option Vector3) :=
  match attemptsLeft with
  | O => ret None
  | S n =>
      candidate <- drawCandidate ;;
      if collision candidate data
      then attemptLoop n data
      else ret (Some candidate)
  end.

Section Layout.

(** The Euler angles of a dummy object placed at a position after
    [lookAt(0, y, 0)] and [rotateY(Math.PI)]: three.js code, taken as given. *)
Variable faceOutward : Vector3 -> Euler.

(** Body of the outer loop for photo [i] of [count].  Next to the entry,
    the value of the local [valid] is kept, to tell placements found by the
    random search from fallback placements. *)
Definition placePhoto (count i : nat) (data : list (LayoutEntry * bool))
  : Rand (list (LayoutEntry * bool)) :=
  found <- attemptLoop maxAttempts (map fst data) ;;
  let valid := match found with Some _ => true | None => false end in
  let bestPos :=
    match found with
    | Some candidate => candidate
    | None => getSpiralPos i count
    end in
  let facing := faceOutward bestPos in
  let maxDeg := 10 in
  let maxRad := JSMath.degToRad maxDeg in
  d <- random ;;
  let xJitter := (d - 0.5) * 2 * maxRad in
  d <- random ;;
  let yJitter := (d - 0.5) * 2 * maxRad in
  d <- random ;;
  let zJitter := (d - 0.5) * 2 * maxRad in
  ret (data ++ [(mkLayoutEntry bestPos
                   (mkEuler (ex facing + xJitter) (ey facing + yJitter)
                            (ez facing + zJitter)),
                 valid)]).

(** The layout with the [valid] flag of every placement. *)
Definition layoutTrace (photos : list string) : Rand (list (LayoutEntry * bool)) :=
  forLoop (List.length photos) (placePhoto (List.length photos)) [].

(** [layoutData], the array the component uses. *)
Definition layoutData (photos : list string) : Rand (list LayoutEntry) :=
  tr <- layoutTrace photos ;; ret (map fst tr).

End Layout.

(** In a trace, every placement found by the random search keeps the
    minimum distance to every placement made before it. *)
Definition separatedFromEarlier (tr : list (LayoutEntry * bool)) : Prop :=
  forall i j ei vi ej,
    (i < j)%nat ->
    nth_error tr i = Some (ei, vi) ->
    nth_error tr j = Some (ej, true) ->
    minDistance <= Vec.distanceTo (treePos ej) (treePos ei).

(** In a trace for [count] photos, every fallback placement sits on the
    spiral at its own index. *)
Definition fallbackOnSpiral (count : nat) (tr : list (LayoutEntry * bool)) : Prop :=
  forall i e,
    nth_error tr i = Some (e, false) -> treePos e = getSpiralPos i count.

(** What holds of the trace when the outer loop reaches index [i]. *)
Definition layoutInvariant (count i : nat) (tr : list (LayoutEntry * bool)) : Prop :=
  List.length tr = i /\ separatedFromEarlier tr /\ fallbackOnSpiral count tr.

End PhotoGallery.

(** ** Sample scenes

    Concrete particles and refs on which the statements below are
    exercised. *)

Module Samples.

(** A ribbon particle half-way up the tree, one second after mount. *)
Definition ribbonMid : ParticleData :=
  mkParticleData 6980 (mkVector3 5.2 0 0) (mkVector3 10 20 30)
                 (mkEuler 0.1 0.2 0.3) 0.1
                 (Some (LerpColors TreeLogic.colorBottom TreeLogic.colorTop 0.5))
                 RIBBON.

(** A star particle near the tip of an upper lobe. *)
Definition starTip : ParticleData :=
  mkParticleData 7880 (mkVector3 0.73 15 0) (mkVector3 10 20 30)
                 (mkEuler 0.1 0.2 0.3) 0.15 (Some TreeLogic.colorTop)
                 STAR_PARTICLE.

(** A star particle on a lower lobe, away from its assembled position. *)
Definition starLow : ParticleData :=
  mkParticleData 7881 (mkVector3 0 13 0) (mkVector3 10 20 30)
                 (mkEuler 0.1 0.2 0.3) 0.1 (Some TreeLogic.colorTop)
                 STAR_PARTICLE.

Definition starLowRefs : ParticleSystem.Refs :=
  ParticleSystem.mkRefs [mkVector3 10 13 0] TREE 0.

(** A ribbon particle at assembled height 5. *)
Definition ribbonAtFive : ParticleData :=
  mkParticleData 7340 (mkVector3 1.11 5 (-3.42)) (mkVector3 10 20 30)
                 (mkEuler 0.1 0.2 0.3) 0.1
                 (Some (LerpColors TreeLogic.colorBottom TreeLogic.colorTop 0.7))
                 RIBBON.

(** Three frames in assembled mode, a little over two seconds after
    mount. *)
Definition assembledTicks : list ParticleSystem.Tick :=
  [ParticleSystem.mkTick TREE 2 0.016;
   ParticleSystem.mkTick TREE 2.016 0.016;
   ParticleSystem.mkTick TREE 2.032 0.016].

(** A leaf on the axis of the tree whose dispersed position happens to be
    a hundredth of a unit away. *)
Definition leafNear : ParticleData :=
  mkParticleData 0 (mkVector3 0 0 0) (mkVector3 0.01 0 0)
                 (mkEuler 0.1 0.2 0.3) 0.2 None LEAF.

(** One slow frame in dispersed mode. *)
Definition slowDispersedTick : list ParticleSystem.Tick :=
  [ParticleSystem.mkTick EXPLODE 1 0.4].

(** Three frames in dispersed mode at 60 frames per second. *)
Definition dispersedTicks : list ParticleSystem.Tick :=
  [ParticleSystem.mkTick EXPLODE 3 (1 / 60);
   ParticleSystem.mkTick EXPLODE (3 + 1 / 60) (1 / 60);
   ParticleSystem.mkTick EXPLODE (3 + 2 / 60) (1 / 60)].

End Samples.

(** ** Vocabulary for the generated tree *)

Module TreeShape.

(** The ids of all generated particles, array after array. *)
Definition allIds (g : TreeLogic.Generated) : list nat :=
  map id (TreeLogic.leaves g) ++ map id (TreeLogic.redOrnaments g)
  ++ map id (TreeLogic.goldOrnaments g) ++ map id (TreeLogic.ribbonParticles g)
  ++ map id (TreeLogic.starParticles g).

Definition totalCount : nat :=
  (TreeLogic.countLeaves + TreeLogic.countOrnaments + TreeLogic.countRibbon
   + TreeLogic.countStar)%nat.

(** All ids handed out so far are pairwise distinct and below [bound]. *)
Definition idsBelow (bound : nat) (g : TreeLogic.Generated) : Prop :=
  NoDup (allIds g) /\ Forall (fun x => (x < bound)%nat) (allIds g).

(** Height of an assembled position, normalised to [0,1] over the tree. *)
Definition hPercentOf (v : Vector3) : R := (vy v + 12.5) / 25.

(** Squared distance of a position from the vertical axis of the tree. *)
Definition axisDistSq (v : Vector3) : R := vx v * vx v + vz v * vz v.

(** Where the assembled position of a particle of each category lies:
    leaves inside the cone of base radius 8 and height 25; ornaments on a
    shell from 0.9 of the cone radius to half a unit further out; the ribbon
    in a band around the cone radius plus 1.2, as wide as its spread; star
    particles within the outer radius 1.4 of the star centre at height 14,
    at most 0.3 in front of or behind it. *)
Definition assembledShape (ty : ParticleType) (v : Vector3) : Prop :=
  match ty with
  | LEAF =>
      -12.5 <= vy v < 12.5
      /\ axisDistSq v <= ((1 - hPercentOf v) * 8) ^ 2
  | ORNAMENT =>
      -12.5 <= vy v < 12.5
      /\ ((1 - hPercentOf v) * 8 * 0.9) ^ 2 <= axisDistSq v
         < ((1 - hPercentOf v) * 8 * 0.9 + 0.5) ^ 2
  | RIBBON =>
      -12.5 <= vy v < 12.5
      /\ ((1 - hPercentOf v) * 8 + 1.2 - (0.2 + hPercentOf v * 1.5) / 2) ^ 2
         <= axisDistSq v
         < ((1 - hPercentOf v) * 8 + 1.2 + (0.2 + hPercentOf v * 1.5) / 2) ^ 2
  | STAR_PARTICLE =>
      vx v * vx v + (vy v - 14) * (vy v - 14) <= 1.4 ^ 2
      /\ -0.3 <= vz v < 0.3
  end.

End TreeShape.

(** ** Vocabulary for the gallery layout *)

Module GalleryShape.

(** Radius of the tree cone the gallery uses at height [y]. *)
Definition coneRadiusAt (y : R) : R :=
  (1 - (y + 12.5) / 25) * PhotoGallery.baseRadius.

(** The band on which photos hang: heights from [yMin] up to [yMax], and a
    distance from the axis between 0.8 and 1.3 outside the cone. *)
Definition onBand (v : Vector3) : Prop :=
  PhotoGallery.yMin <= vy v < PhotoGallery.yMax
  /\ (coneRadiusAt (vy v) + 0.8) ^ 2 <= TreeShape.axisDistSq v
     < (coneRadiusAt (vy v) + 1.3) ^ 2.

(** Each Euler angle of [rot] is within [maxRad] of the angle of [facing]. *)
Definition jitterWithin (maxRad : R) (facing rot : Euler) : Prop :=
  - maxRad <= ex rot - ex facing < maxRad
  /\ - maxRad <= ey rot - ey facing < maxRad
  /\ - maxRad <= ez rot - ez facing < maxRad.

End GalleryShape.

(** ** Smoothing of a gallery panel ([ChristmasFilmFrame], steps 2 and 4) *)

Module GalleryFrame.

(** [baseScaleVal]: 2.5 on the tree; in the carousel a quarter of the
    visible height, divided by the 1.4 units of the frame. *)
Definition baseScaleVal (appState : AppState) (visibleHeightAtDepth : R) : R :=
  match appState with
  | TREE => 2.5
  | EXPLODE => (visibleHeightAtDepth / 4) / 1.4
  end.

(** [isTree ? 4.0 : 8.0] *)
Definition lerpSpeed (appState : AppState) : R :=
  match appState with
  | TREE => 4.0
  | EXPLODE => 8.0
  end.

(** The running position and scale of one panel.  The running rotation is
    a quaternion and is not modelled. *)
Record FrameRefs : Type := mkFrameRefs {
  currentPos : Vector3;
  currentScale : R
}.

(** Step 4: position and scale move toward their targets by the factor
    [delta * lerpSpeed], which the source does not clamp. *)
Definition smooth (appState : AppState) (delta : R) (target : Carousel.Target)
           (r : FrameRefs) : FrameRefs :=
  mkFrameRefs
    (Vec.lerp (currentPos r) (Carousel.targetPos target)
              (delta * lerpSpeed appState))
    (JSMath.lerp (currentScale r) (Carousel.finalTargetScale target)
                 (delta * lerpSpeed appState)).

(** One frame of a panel in the carousel. *)
Definition carouselFrame (index total : nat)
           (visibleHeightAtDepth time delta : R) (r : FrameRefs) : FrameRefs :=
  smooth EXPLODE delta
         (Carousel.carouselTarget index total
            (baseScaleVal EXPLODE visibleHeightAtDepth)
            visibleHeightAtDepth time)
         r.

End GalleryFrame.

(** ** Hand tracking state (src/types.ts) *)

Inductive Gesture : Type := NONE | PINCH | OPEN.

(** A pair [{x, y}]. *)
Record Point2 : Type := mkPoint2 { px : R; py : R }.

Record HandGestureState : Type := mkHandGestureState {
  isHandDetected : bool;
  gesture : Gesture;
  handPosition : Point2;
  rotationValue : R
}.

(** ** [GestureController.predictWebcam]: from landmarks to state *)

Module GestureController.

(** A landmark as far as the controller reads it: its [x] and [y]. *)
Record Landmark : Type := mkLandmark { lx : R; ly : R }.

(** The branch taken when a hand is found: the reported hand state and the
    mode handed to [setAppState]. *)
Definition readHand (thumbTip indexTip wrist : Landmark)
  : HandGestureState * AppState :=
  let distance :=
    sqrt ((lx thumbTip - lx indexTip) ^ 2 + (ly thumbTip - ly indexTip) ^ 2) in
  let isPinch := if Rlt_dec distance 0.05 then true else false in
  let gesture := if isPinch then PINCH else OPEN in
  let rotationValue := (lx wrist - 0.5) * 4 in
  (mkHandGestureState true gesture
                      (mkPoint2 (1 - lx indexTip) (ly indexTip))
                      rotationValue,
   if isPinch then TREE else EXPLODE).

(** The state reported when no hand is found. *)
Definition noHand : HandGestureState :=
  mkHandGestureState false NONE (mkPoint2 0.5 0.5) 0.

(** One detection result: [landmarks] has one list of landmarks per hand
    found.  The result is the reported hand state and the mode of the
    application afterwards; [None] when reading landmark 4, 8 or 0 of the
    first hand fails, where the source throws. *)
Definition predictWebcam (landmarks : list (list Landmark))
           (currentAppState : AppState)
  : option (HandGestureState * AppState) :=
  match landmarks with
  | hand :: _ =>
      match nth_error hand 4, nth_error hand 8, nth_error hand 0 with
      | Some thumbTip, Some indexTip, Some wrist =>
          Some (readHand thumbTip indexTip wrist)
      | _, _, _ => None
      end
  | [] => Some (noHand, currentAppState)
  end.

End GestureController.

(** ** [App]: the mode toggle and the photo list *)

Module App.

(** [prev === AppState.TREE ? AppState.EXPLODE : AppState.TREE] *)
Definition toggleState (prev : AppState) : AppState :=
  match prev with
  | TREE => EXPLODE
  | EXPLODE => TREE
  end.


End App.

(** ** [Experience.useFrame]: rotation of the tree group *)

Module Experience.

Record ExperienceRefs : Type := mkExperienceRefs {
  rotationX : R;                 (* groupRef.current.rotation.x *)
  rotationY : R;                 (* groupRef.current.rotation.y *)
  lastHandPos : option Point2;
  lastInteractionTime : R;
  currentVelocity : Point2;
  starsRotationX : R;
  starsRotationY : R
}.

Definition baseSpeed (appState : AppState) : R :=
  match appState with
  | TREE => 0.2
  | EXPLODE => 0.05
  end.

Definition maxDragSpeed (appState : AppState) : R := baseSpeed appState * 3.0.

(** The effect that runs when [isHandDetected] changes. *)
Definition handEffect (handState : HandGestureState) (r : ExperienceRefs)
  : ExperienceRefs :=
  match isHandDetected handState, lastHandPos r with
  | true, None =>
      mkExperienceRefs (rotationX r) (rotationY r)
                       (Some (mkPoint2 (px (handPosition handState))
                                       (py (handPosition handState))))
                       (lastInteractionTime r) (mkPoint2 0 0)
                       (starsRotationX r) (starsRotationY r)
  | true, Some _ => r
  | false, _ =>
      mkExperienceRefs (rotationX r) (rotationY r) None
                       (lastInteractionTime r) (currentVelocity r)
                       (starsRotationX r) (starsRotationY r)
  end.

(** Step 2: the velocity asked for by the hand, zero without one. *)
Definition targetVelocity (handState : HandGestureState) (delta : R)
           (last : option Point2) : Point2 :=
  match isHandDetected handState, last with
  | true, Some l =>
      let dx := px (handPosition handState) - px l in
      let dy := py (handPosition handState) - py l in
      let safeDelta := Rmax delta 0.001 in
      let sensitivity := 5.0 in
      mkPoint2 (dx / safeDelta * sensitivity) (dy / safeDelta * sensitivity)
  | _, _ => mkPoint2 0 0
  end.

(** One frame, with the tree group and the star group mounted. *)
Definition useFrame (appState : AppState) (handState : HandGestureState)
           (time delta : R) (r : ExperienceRefs) : ExperienceRefs :=
  let rotY := rotationY r + baseSpeed appState * delta in
  let targetVel := targetVelocity handState delta (lastHandPos r) in
  let lastHand :=
    match isHandDetected handState, lastHandPos r with
    | true, Some _ =>
        Some (mkPoint2 (px (handPosition handState))
                       (py (handPosition handState)))
    | _, _ => lastHandPos r
    end in
  let smoothFactor := 0.1 in
  let velX := JSMath.lerp (px (currentVelocity r)) (px targetVel) smoothFactor in
  let velY := JSMath.lerp (py (currentVelocity r)) (py targetVel) smoothFactor in
  let clampedVelX :=
    JSMath.clamp velX (- maxDragSpeed appState) (maxDragSpeed appState) in
  let clampedVelY :=
    JSMath.clamp velY (- maxDragSpeed appState) (maxDragSpeed appState) in
  let rotY := rotY + clampedVelX * delta in
  let rotX := rotationX r + clampedVelY * delta in
  let lastInteraction :=
    if Rlt_dec 0.05 (Rabs velX) then time
    else if Rlt_dec 0.05 (Rabs velY) then time
    else lastInteractionTime r in
  let rotX := JSMath.clamp rotX (-0.5) 0.5 in
  let timeSinceInteraction := time - lastInteraction in
  let rotX :=
    if Rlt_dec 1.0 timeSinceInteraction
    then JSMath.lerp rotX 0 (delta * 2)
    else rotX in
  mkExperienceRefs rotX rotY lastHand lastInteraction (mkPoint2 velX velY)
                   (starsRotationX r + delta * 0.005)
                   (starsRotationY r - delta * 0.02).

(** A frame as the render loop supplies it. *)
Record Tick : Type := mkTick {
  tickHand : HandGestureState;
  tickTime : R;
  tickDelta : R
}.

(** Successive frames in one mode. *)
Definition runFrames (appState : AppState) (ticks : list Tick)
           (r : ExperienceRefs) : ExperienceRefs :=
  fold_left
    (fun acc tk => useFrame appState (tickHand tk) (tickTime tk) (tickDelta tk)
                            acc)
    ticks r.

End Experience.

(** ** [CyberDog.useFrame]: trajectory of the dog *)

Module CyberDog.

Record DogRefs : Type := mkDogRefs {
  currentPos : Vector3;
  targetPos : Vector3;
  isFacingRight : bool
}.

Definition initialRefs : DogRefs :=
  mkDogRefs (mkVector3 0 (-10) 12) (mkVector3 0 (-10) 12) true.

Definition moveSpeedUnits (appState : AppState) : R :=
  match appState with
  | TREE => 2.5
  | EXPLODE => 5.0
  end.

(** [Vector3.subVectors], [multiplyScalar] and [normalize]; the last
    divides by [length() || 1]. *)
Definition subVectors (a b : Vector3) : Vector3 :=
  mkVector3 (vx a - vx b) (vy a - vy b) (vz a - vz b).

Definition multiplyScalar (v : Vector3) (k : R) : Vector3 :=
  mkVector3 (vx v * k) (vy v * k) (vz v * k).

Definition normalize (v : Vector3) : Vector3 :=
  let l := Vec.length v in
  multiplyScalar v (1 / (if Req_dec_T l 0 then 1 else l)).

(** Assembled mode: a wobbly circle around the tree. *)
Definition patrolTarget (t : R) : Vector3 :=
  let angle := t * 0.3 in
  let radius := 15 + sin (t * 0.5) * 2.0 in
  let height := -11 + sin (t * 1.2) * 1.5 in
  mkVector3 (cos angle * radius) height (sin angle * radius + 2).

(** Dispersed mode: a fresh random waypoint. *)
Definition pickWaypoint : Rand Vector3 :=
  x <- random ;;
  y <- random ;;
  z <- random ;;
  ret (mkVector3 ((x - 0.5) * 24) ((y - 0.5) * 12) (8 + (z - 0.5) * 4)).

Definition nextTarget (appState : AppState) (t : R) (r : DogRefs)
  : Rand Vector3 :=
  match appState with
  | TREE => ret (patrolTarget t)
  | EXPLODE =>
      let distToTarget := Vec.distanceTo (currentPos r) (targetPos r) in
      if Rlt_dec distToTarget 1.0 then pickWaypoint else ret (targetPos r)
  end.

(** The step toward the target, limited to the distance left. *)
Definition moveToward (appState : AppState) (delta : R)
           (current target : Vector3) : Vector3 :=
  let moveDir := subVectors target current in
  let dist := Vec.length moveDir in
  if Rlt_dec 0.1 dist then
    let step := Rmin dist (moveSpeedUnits appState * delta) in
    Vec.add current (multiplyScalar (normalize moveDir) step)
  else current.

(** The facing flag follows the sign of the remaining x offset when that
    offset is significant. *)
Definition facing (target current : Vector3) (old : bool) : bool :=
  let dx := vx target - vx current in
  if Rlt_dec 0.1 (Rabs dx)
  then (if Rlt_dec 0 dx then true else false)
  else old.

(** The trajectory part of one frame, with the group mounted. *)
Definition useFrame (appState : AppState) (t delta : R) (r : DogRefs)
  : Rand DogRefs :=
  target <- nextTarget appState t r ;;
  let current := moveToward appState delta (currentPos r) target in
  ret (mkDogRefs current target (facing target current (isFacingRight r))).

(** The box the waypoints are drawn from. *)
Definition inWaypointBox (v : Vector3) : Prop :=
  -12 <= vx v < 12 /\ -6 <= vy v < 6 /\ 6 <= vz v < 10.

End CyberDog.

(** ** Sample inputs for the statements on the gallery, the hand and the dog *)

Module Scenes.

Definition restingRefs : Experience.ExperienceRefs :=
  Experience.mkExperienceRefs 0.3 1 None 0 (mkPoint2 2 (-1)) 0 0.

Definition openHand : HandGestureState :=
  mkHandGestureState true OPEN (mkPoint2 0.4 0.6) 0.

Definition absentHand : HandGestureState := GestureController.noHand.

Definition idleTicks : list Experience.Tick :=
  [Experience.mkTick absentHand 1 0.016; Experience.mkTick absentHand 1.016 0.016].

Definition farPanel : GalleryFrame.FrameRefs :=
  GalleryFrame.mkFrameRefs (mkVector3 3 0 20) 1.

Definition pinchingHand : list GestureController.Landmark :=
  [GestureController.mkLandmark 0.5 0.9;
   GestureController.mkLandmark 0.5 0.8;
   GestureController.mkLandmark 0.5 0.7;
   GestureController.mkLandmark 0.45 0.6;
   GestureController.mkLandmark 0.4 0.5;
   GestureController.mkLandmark 0.5 0.6;
   GestureController.mkLandmark 0.5 0.55;
   GestureController.mkLandmark 0.45 0.5;
   GestureController.mkLandmark 0.42 0.5].

End Scenes.

(** * Properties *)

(** ** Easing *)

Lemma easeInOutCubic_lo (x : R) : x < 0.5 -> easeInOutCubic x = easeIn_arm x.
Proof.
  intros H. unfold easeInOutCubic, easeIn_arm.
  destruct (Rlt_dec x 0.5); [reflexivity | lra].
Qed.

Lemma easeInOutCubic_hi (x : R) : 0.5 <= x -> easeInOutCubic x = easeOut_arm x.
Proof.
  intros H. unfold easeInOutCubic, easeOut_arm.
  destruct (Rlt_dec x 0.5); [lra | reflexivity].
Qed.

Lemma easeInOutCubic_range (x : R) :
  0 <= x <= 1 -> 0 <= easeInOutCubic x <= 1.
Proof.
  intros [H0 H1].
  destruct (Rlt_dec x 0.5) as [Hlt | Hge].
  - rewrite easeInOutCubic_lo by assumption. unfold easeIn_arm.
    assert (0 <= x * x) by nra.
    assert (x * x <= 0.25) by nra.
    split; nra.
  - rewrite easeInOutCubic_hi by lra. unfold easeOut_arm.
    set (u := -2 * x + 2).
    assert (Hu : 0 <= u <= 1) by (unfold u; lra).
    assert (0 <= u * u <= 1) by nra.
    assert (0 <= u ^ 3 <= 1) by (simpl; nra).
    lra.
Qed.

Lemma easeInOutCubic_mono (x y : R) :
  0 <= x -> x <= y -> y <= 1 -> easeInOutCubic x <= easeInOutCubic y.
Proof.
  intros H0 Hxy H1.
  destruct (Rlt_dec y 0.5) as [Hy | Hy].
  - rewrite !easeInOutCubic_lo by lra. unfold easeIn_arm.
    assert (x * x <= y * y) by nra.
    assert (x * x * x <= y * y * y) by nra.
    lra.
  - destruct (Rlt_dec x 0.5) as [Hx | Hx].
    + rewrite easeInOutCubic_lo by lra.
      rewrite easeInOutCubic_hi by lra.
      unfold easeIn_arm, easeOut_arm.
      set (u := -2 * y + 2).
      assert (Hu : 0 <= u <= 1) by (unfold u; lra).
      assert (0 <= u * u <= 1) by nra.
      assert (u ^ 3 <= 1) by (simpl; nra).
      assert (0 <= x * x <= 0.25) by nra.
      assert (x * x * x <= 0.125) by nra.
      lra.
    + rewrite !easeInOutCubic_hi by lra. unfold easeOut_arm.
      set (u := -2 * y + 2). set (v := -2 * x + 2).
      assert (Hu : 0 <= u) by (unfold u; lra).
      assert (Huv : u <= v) by (unfold u, v; lra).
      assert (u * u <= v * v) by nra.
      assert (u ^ 3 <= v ^ 3) by (simpl; nra).
      lra.
Qed.

(** C10: [easeInOutCubic] sends 0 to 0 and 1 to 1, both arms of its
    conditional give 0.5 at x = 0.5, it is non-decreasing on [0,1] and its
    values on [0,1] lie in [0,1]. *)
Theorem easeInOutCubic_profile :
  easeInOutCubic 0 = 0
  /\ easeInOutCubic 1 = 1
  /\ (easeIn_arm 0.5 = 0.5 /\ easeOut_arm 0.5 = 0.5
      /\ easeInOutCubic 0.5 = 0.5)
  /\ (forall x y, 0 <= x <= 1 -> 0 <= y <= 1 -> x <= y ->
        easeInOutCubic x <= easeInOutCubic y)
  /\ (forall x, 0 <= x <= 1 -> 0 <= easeInOutCubic x <= 1).
Proof.
  repeat split.
  - rewrite easeInOutCubic_lo by lra. unfold easeIn_arm. lra.
  - rewrite easeInOutCubic_hi by lra. unfold easeOut_arm. simpl. lra.
  - unfold easeIn_arm. lra.
  - unfold easeOut_arm. simpl. lra.
  - rewrite easeInOutCubic_hi by lra. unfold easeOut_arm. simpl. lra.
  - intros x y [Hx0 _] [_ Hy1] Hxy. now apply easeInOutCubic_mono.
  - now apply easeInOutCubic_range.
  - now apply easeInOutCubic_range.
Qed.

(** ** The remainder operator *)

Section RemFacts.

Variables (x y : R).
Hypothesis Hy : 0 < y.

Lemma rem_nonneg_floor :
  0 <= x -> JSMath.rem x y = x - y * JSMath.floor (x / y).
Proof.
  intros Hx. unfold JSMath.rem, JSMath.trunc, JSMath.floor.
  destruct (Rle_dec 0 (x / y)) as [_ | Hn]; [reflexivity |].
  exfalso. apply Hn. apply Rmult_le_pos; [assumption |].
  left. now apply Rinv_0_lt_compat.
Qed.

Lemma rem_sign_pos : 0 <= x / y -> 0 <= JSMath.rem x y < y.
Proof.
  intros Hq. unfold JSMath.rem, JSMath.trunc.
  destruct (Rle_dec 0 (x / y)) as [_ | Hn]; [| contradiction].
  pose proof (Zfloor_bound (x / y)) as [Hlo Hhi].
  assert (Hx : x = y * (x / y)) by (field; lra).
  split; nra.
Qed.

Lemma rem_sign_neg : x / y < 0 -> - y < JSMath.rem x y <= 0.
Proof.
  intros Hq. unfold JSMath.rem, JSMath.trunc.
  destruct (Rle_dec 0 (x / y)) as [Hp | _]; [lra |].
  pose proof (Zceil_bound (x / y)) as [Hlo Hhi].
  assert (Hx : x = y * (x / y)) by (field; lra).
  split; nra.
Qed.

Lemma rem_magnitude : - y < JSMath.rem x y < y.
Proof.
  destruct (Rle_dec 0 (x / y)) as [Hp | Hn].
  - pose proof (rem_sign_pos Hp). lra.
  - assert (Hq : x / y < 0) by lra.
    pose proof (rem_sign_neg Hq). lra.
Qed.

End RemFacts.

(** ** Carousel schedule *)

Section CarouselFacts.

Import Carousel.

Lemma CYCLE_DURATION_pos : 0 < CYCLE_DURATION.
Proof. unfold CYCLE_DURATION, HOLD_DURATION, MOVE_DURATION. lra. Qed.

Lemma cycleIndex_shift (t : R) (k : nat) :
  cycleIndex (t + INR k * CYCLE_DURATION) = cycleIndex t + INR k.
Proof.
  unfold cycleIndex, JSMath.floor.
  pose proof CYCLE_DURATION_pos as Hc.
  replace ((t + INR k * CYCLE_DURATION) / CYCLE_DURATION)
    with (t / CYCLE_DURATION + IZR (Z.of_nat k)).
  - rewrite Zfloor_addz, plus_IZR, <- INR_IZR_INZ. reflexivity.
  - rewrite <- INR_IZR_INZ. field. lra.
Qed.

Lemma cyclePhase_shift (t : R) (k : nat) :
  0 <= t -> cyclePhase (t + INR k * CYCLE_DURATION) = cyclePhase t.
Proof.
  intros Ht. unfold cyclePhase.
  pose proof CYCLE_DURATION_pos as Hc.
  pose proof (pos_INR k) as Hk.
  rewrite !rem_nonneg_floor by nra.
  pose proof (cycleIndex_shift t k) as Hs. unfold cycleIndex in Hs.
  rewrite Hs. ring.
Qed.

Lemma cyclePhase_nonneg (t : R) :
  0 <= t -> cyclePhase t = t - CYCLE_DURATION * cycleIndex t.
Proof.
  intros Ht. unfold cyclePhase, cycleIndex.
  apply rem_nonneg_floor; [apply CYCLE_DURATION_pos | exact Ht].
Qed.

Lemma cyclePhase_of_offset (n : nat) (p : R) :
  0 <= p < CYCLE_DURATION ->
  cycleIndex (INR n * CYCLE_DURATION + p) = INR n
  /\ cyclePhase (INR n * CYCLE_DURATION + p) = p.
Proof.
  intros [Hp0 Hp1].
  pose proof CYCLE_DURATION_pos as Hc.
  pose proof (pos_INR n) as Hn.
  assert (Hidx : cycleIndex (INR n * CYCLE_DURATION + p) = INR n).
  { unfold cycleIndex, JSMath.floor. rewrite (INR_IZR_INZ n).
    f_equal. apply Zfloor_eq. rewrite <- INR_IZR_INZ.
    replace ((INR n * CYCLE_DURATION + p) / CYCLE_DURATION)
      with (INR n + p / CYCLE_DURATION) by (field; lra).
    assert (0 <= p / CYCLE_DURATION < 1).
    { split.
      - apply Rmult_le_pos; [lra | left; now apply Rinv_0_lt_compat].
      - apply Rmult_lt_reg_r with CYCLE_DURATION; [lra |].
        unfold Rdiv. rewrite Rmult_assoc, Rinv_l by lra. lra. }
    lra. }
  split; [exact Hidx |].
  rewrite cyclePhase_nonneg by nra. rewrite Hidx. ring.
Qed.

Lemma scrollIndex_hold (t : R) :
  cyclePhase t <= HOLD_DURATION -> scrollIndex t = cycleIndex t.
Proof.
  intros H. unfold scrollIndex.
  destruct (Rlt_dec HOLD_DURATION (cyclePhase t)); [lra | reflexivity].
Qed.

(** C7: shifting the time by [k] whole cycles adds exactly [k] to the scroll
    index; and when the phase of [t] lies in the HOLD part of the cycle the
    scroll index is [floor(t / cycle)], with no eased offset, the same for
    every time of that cycle's HOLD part. *)
Theorem scrollIndex_cycle_shift (t : R) (k : nat) (Ht : 0 <= t) :
  scrollIndex (t + INR k * CYCLE_DURATION) = scrollIndex t + INR k
  /\ (cyclePhase t <= HOLD_DURATION ->
      scrollIndex t = JSMath.floor (t / (HOLD_DURATION + MOVE_DURATION))
      /\ forall t', 0 <= t' -> cycleIndex t' = cycleIndex t ->
                    cyclePhase t' <= HOLD_DURATION ->
                    scrollIndex t' = scrollIndex t).
Proof.
  split.
  - unfold scrollIndex.
    rewrite cyclePhase_shift by assumption.
    rewrite cycleIndex_shift.
    destruct (Rlt_dec HOLD_DURATION (cyclePhase t)); ring.
  - intros Hhold. split.
    + rewrite scrollIndex_hold by assumption. reflexivity.
    + intros t' Ht' Hsame Hhold'.
      rewrite !scrollIndex_hold by assumption. exact Hsame.
Qed.

Lemma scrollIndex_cycle_shift_witness :
  cyclePhase 0.5 <= HOLD_DURATION
  /\ scrollIndex (0.5 + INR 2 * CYCLE_DURATION) = scrollIndex 0.5 + INR 2
  /\ scrollIndex 0.5 = JSMath.floor (0.5 / (HOLD_DURATION + MOVE_DURATION)).
Proof.
  assert (Hph : cyclePhase 0.5 <= HOLD_DURATION).
  { pose proof (cyclePhase_of_offset 0 0.5) as Hp. simpl in Hp.
    replace (0 * CYCLE_DURATION + 0.5) with 0.5 in Hp by lra.
    destruct Hp as [_ Hp].
    - unfold CYCLE_DURATION, HOLD_DURATION, MOVE_DURATION. lra.
    - rewrite Hp. unfold HOLD_DURATION. lra. }
  assert (H0 : 0 <= 0.5) by lra.
  destruct (scrollIndex_cycle_shift 0.5 2 H0) as [Hshift Hhold].
  split; [exact Hph |].
  split; [exact Hshift |].
  exact (proj1 (Hhold Hph)).
Defined.

Lemma wrapX_range (baseX currentScrollOffset totalWidth : R) :
  0 < totalWidth ->
  - totalWidth / 2 <= wrapX baseX currentScrollOffset totalWidth
                   <= totalWidth / 2.
Proof.
  intros Hw. unfold wrapX.
  pose proof (rem_magnitude (baseX - currentScrollOffset) totalWidth Hw)
    as [Hlo Hhi].
  set (r := JSMath.rem (baseX - currentScrollOffset) totalWidth) in *.
  destruct (Rlt_dec r (- totalWidth / 2)) as [H1 | H1];
    [destruct (Rlt_dec (totalWidth / 2) (r + totalWidth)) as [H2 | H2]
    | destruct (Rlt_dec (totalWidth / 2) r) as [H2 | H2]];
    lra.
Qed.

(** C8: for every slot position, scroll offset and positive total width,
    the wrapped horizontal offset of a panel lies in
    [-totalWidth/2, +totalWidth/2], whatever the sign of the remainder. *)
Theorem panel_offset_within_half_width
        (baseX currentScrollOffset totalWidth : R) (Hw : 0 < totalWidth) :
  - totalWidth / 2 <= wrapX baseX currentScrollOffset totalWidth
                   <= totalWidth / 2
  /\ (forall (index total : nat) (itemStride scroll : R),
        totalWidth = INR total * itemStride ->
        - totalWidth / 2 <= panelX index total itemStride scroll
                         <= totalWidth / 2).
Proof.
  split.
  - now apply wrapX_range.
  - intros index total itemStride scroll Heq. unfold panelX.
    rewrite <- Heq. now apply wrapX_range.
Qed.

Lemma panel_offset_within_half_width_witness :
  - 10 / 2 <= wrapX 1 8.5 10 <= 10 / 2.
Proof.
  apply (panel_offset_within_half_width 1 8.5 10). lra.
Defined.

End CarouselFacts.

(** ** Loops over the random stream *)

Section LoopInvariants.

Context {St : Type}.
Variable body : nat -> St -> Rand St.
Variable s : nat -> R.

(** A property kept by every iteration is kept by the whole loop. *)
Lemma forLoopFrom_invariant (P : St -> Prop) :
  (forall i acc n, P acc -> P (fst (body i acc s n))) ->
  forall count start acc n,
    P acc -> P (fst (forLoopFrom start count body acc s n)).
Proof.
  intros Hstep count.
  induction count as [| count IH]; intros start acc n Hacc; simpl.
  - exact Hacc.
  - unfold bind.
    destruct (body start acc s n) as [acc' n'] eqn:Hb.
    apply IH.
    specialize (Hstep start acc n Hacc). rewrite Hb in Hstep. exact Hstep.
Qed.

(** The same for a property that mentions the loop index. *)
Lemma forLoopFrom_indexed (P : nat -> St -> Prop) :
  (forall i acc n, P i acc -> P (S i) (fst (body i acc s n))) ->
  forall count start acc n,
    P start acc ->
    P (start + count)%nat (fst (forLoopFrom start count body acc s n)).
Proof.
  intros Hstep count.
  induction count as [| count IH]; intros start acc n Hacc; simpl.
  - now rewrite Nat.add_0_r.
  - unfold bind.
    destruct (body start acc s n) as [acc' n'] eqn:Hb.
    rewrite <- Nat.add_succ_comm. apply IH.
    specialize (Hstep start acc n Hacc). rewrite Hb in Hstep. exact Hstep.
Qed.

End LoopInvariants.

(** ** Dispersed positions stay inside their sphere *)

Section SpherePoint.

Lemma cbrt_unit (w : R) : 0 <= w < 1 -> 0 <= JSMath.cbrt w < 1.
Proof.
  intros [H0 H1]. unfold JSMath.cbrt.
  destruct (Rlt_dec 0 w) as [Hpos | Hnp].
  - split; [left; apply exp_pos |].
    rewrite <- exp_0. apply exp_increasing.
    assert (ln w < 0) by (rewrite <- ln_1; now apply ln_increasing).
    lra.
  - destruct (Rlt_dec w 0); lra.
Qed.

Lemma spherical_length (rho phi theta : R) :
  0 <= rho ->
  Vec.length (mkVector3 (rho * sin phi * cos theta)
                        (rho * sin phi * sin theta)
                        (rho * cos phi)) = rho.
Proof.
  intros Hrho. unfold Vec.length, Vec.lengthSq. simpl.
  apply sqrt_lem_1; [| assumption |].
  - pose proof (sin2_cos2 phi) as Hp. pose proof (sin2_cos2 theta) as Ht.
    unfold Rsqr in *. nra.
  - pose proof (sin2_cos2 phi) as Hp. pose proof (sin2_cos2 theta) as Ht.
    unfold Rsqr in *.
    replace (rho * sin phi * cos theta * (rho * sin phi * cos theta)
             + rho * sin phi * sin theta * (rho * sin phi * sin theta)
             + rho * cos phi * (rho * cos phi))
      with (rho * rho
            * (sin phi * sin phi * (sin theta * sin theta + cos theta * cos theta)
               + cos phi * cos phi)) by ring.
    rewrite Ht, Rmult_1_r, Hp. ring.
Qed.

Variable s : nat -> R.
Hypothesis Hs : unitDraws s.

Lemma randomSpherePoint_within (r : R) (n : nat) :
  0 <= r -> Vec.length (fst (TreeLogic.randomSpherePoint r s n)) <= r.
Proof.
  intros Hr. unfold TreeLogic.randomSpherePoint, bind, random, ret. simpl.
  pose proof (cbrt_unit _ (Hs (S (S n)))) as [Hc0 Hc1].
  rewrite spherical_length by nra.
  nra.
Qed.

(** Each loop body yields a particle of its category. *)
Lemma genLeaf_generatedAs (i n : nat) :
  TreeLogic.generatedAs LEAF (fst (TreeLogic.genLeaf i s n)).
Proof.
  split; [reflexivity | split].
  - apply (randomSpherePoint_within 45 (S (S (S n)))). lra.
  - simpl. pose proof (Hs (S (S (S (S (S (S n))))))). lra.
Qed.

Lemma genOrnament_generatedAs (i n : nat) :
  TreeLogic.generatedAs ORNAMENT (snd (fst (TreeLogic.genOrnament i s n))).
Proof.
  split; [reflexivity | split].
  - apply (randomSpherePoint_within 55 (S (S (S n)))). lra.
  - simpl. pose proof (Hs (S (S (S (S (S (S n))))))). lra.
Qed.

Lemma genRibbon_generatedAs (i n : nat) :
  TreeLogic.generatedAs RIBBON (fst (TreeLogic.genRibbon i s n)).
Proof.
  split; [reflexivity | split].
  - apply (randomSpherePoint_within 60 (S n)). lra.
  - simpl. pose proof (Hs (S (S (S (S n))))). lra.
Qed.

Lemma genStar_generatedAs (i n : nat) :
  TreeLogic.generatedAs STAR_PARTICLE (fst (TreeLogic.genStar i s n)).
Proof.
  split; [reflexivity | split].
  - apply (randomSpherePoint_within 80 (S (S (S (S n))))). lra.
  - simpl. pose proof (Hs (S (S (S (S (S (S (S (S (S (S n))))))))))). lra.
Qed.

Ltac push_keeps lemma :=
  intros [Hl [Hr [Hg [Hb Hst]]]];
  unfold TreeLogic.wellGenerated; simpl;
  repeat split; try assumption;
  apply Forall_app; split; [assumption |];
  constructor; [apply lemma | constructor].

Lemma pushLeaf_wellGenerated (i : nat) (g : TreeLogic.Generated) (n : nat) :
  TreeLogic.wellGenerated g ->
  TreeLogic.wellGenerated (fst (TreeLogic.pushLeaf i g s n)).
Proof. push_keeps genLeaf_generatedAs. Qed.

Lemma pushRibbon_wellGenerated (i : nat) (g : TreeLogic.Generated) (n : nat) :
  TreeLogic.wellGenerated g ->
  TreeLogic.wellGenerated (fst (TreeLogic.pushRibbon i g s n)).
Proof. push_keeps genRibbon_generatedAs. Qed.

Lemma pushStar_wellGenerated (i : nat) (g : TreeLogic.Generated) (n : nat) :
  TreeLogic.wellGenerated g ->
  TreeLogic.wellGenerated (fst (TreeLogic.pushStar i g s n)).
Proof. push_keeps genStar_generatedAs. Qed.

Lemma pushOrnament_wellGenerated (i : nat) (g : TreeLogic.Generated) (n : nat) :
  TreeLogic.wellGenerated g ->
  TreeLogic.wellGenerated (fst (TreeLogic.pushOrnament i g s n)).
Proof.
  intros [Hl [Hr [Hg [Hb Hst]]]].
  pose proof (genOrnament_generatedAs i n) as Hp.
  unfold TreeLogic.pushOrnament, bind.
  destruct (TreeLogic.genOrnament i s n) as [[isRed p] n'].
  simpl in Hp.
  destruct isRed; unfold TreeLogic.wellGenerated; simpl;
    repeat split; try assumption;
    apply Forall_app; split; try assumption;
    constructor; [exact Hp | constructor | exact Hp | constructor].
Qed.

Lemma generate_wellGenerated (n : nat) :
  TreeLogic.wellGenerated (fst (TreeLogic.generate s n)).
Proof.
  unfold TreeLogic.generate, bind, forLoop.
  pose proof (forLoopFrom_invariant TreeLogic.pushLeaf s
                TreeLogic.wellGenerated pushLeaf_wellGenerated
                TreeLogic.countLeaves 0
                (TreeLogic.mkGenerated [] [] [] [] []) n) as H1.
  destruct (forLoopFrom 0 TreeLogic.countLeaves TreeLogic.pushLeaf _ s n)
    as [g1 n1].
  pose proof (forLoopFrom_invariant TreeLogic.pushOrnament s
                TreeLogic.wellGenerated pushOrnament_wellGenerated
                TreeLogic.countOrnaments 0 g1 n1) as H2.
  destruct (forLoopFrom 0 TreeLogic.countOrnaments TreeLogic.pushOrnament _ s n1)
    as [g2 n2].
  pose proof (forLoopFrom_invariant TreeLogic.pushRibbon s
                TreeLogic.wellGenerated pushRibbon_wellGenerated
                TreeLogic.countRibbon 0 g2 n2) as H3.
  destruct (forLoopFrom 0 TreeLogic.countRibbon TreeLogic.pushRibbon _ s n2)
    as [g3 n3].
  apply (forLoopFrom_invariant TreeLogic.pushStar s
           TreeLogic.wellGenerated pushStar_wellGenerated).
  apply H3, H2, H1.
  repeat split; constructor.
Qed.

End SpherePoint.

(** The four loops fill their arrays with exactly the configured counts. *)
Lemma generate_counts (s : nat -> R) (n : nat) :
  let g := fst (TreeLogic.generate s n) in
  List.length (TreeLogic.leaves g) = TreeLogic.countLeaves
  /\ (List.length (TreeLogic.redOrnaments g)
      + List.length (TreeLogic.goldOrnaments g))%nat = TreeLogic.countOrnaments
  /\ List.length (TreeLogic.ribbonParticles g) = TreeLogic.countRibbon
  /\ List.length (TreeLogic.starParticles g) = TreeLogic.countStar.
Proof.
  set (sized := fun (a b c d : nat) g =>
         List.length (TreeLogic.leaves g) = a
         /\ (List.length (TreeLogic.redOrnaments g)
             + List.length (TreeLogic.goldOrnaments g))%nat = b
         /\ List.length (TreeLogic.ribbonParticles g) = c
         /\ List.length (TreeLogic.starParticles g) = d).
  assert (Hleaf : forall k acc m,
             sized k 0%nat 0%nat 0%nat acc ->
             sized (S k) 0%nat 0%nat 0%nat
                   (fst (TreeLogic.pushLeaf k acc s m))).
  { intros k acc m (Ha & Hb & Hc & Hd). unfold sized. simpl.
    rewrite length_app. simpl. repeat split; lia. }
  assert (Horn : forall k acc m,
             sized TreeLogic.countLeaves k 0%nat 0%nat acc ->
             sized TreeLogic.countLeaves (S k) 0%nat 0%nat
                   (fst (TreeLogic.pushOrnament k acc s m))).
  { intros k acc m (Ha & Hb & Hc & Hd).
    unfold TreeLogic.pushOrnament, bind.
    destruct (TreeLogic.genOrnament k s m) as [[isRed p] m'].
    unfold sized.
    destruct isRed; simpl; rewrite length_app; simpl; repeat split; lia. }
  assert (Hrib : forall k acc m,
             sized TreeLogic.countLeaves TreeLogic.countOrnaments k 0%nat acc ->
             sized TreeLogic.countLeaves TreeLogic.countOrnaments (S k) 0%nat
                   (fst (TreeLogic.pushRibbon k acc s m))).
  { intros k acc m (Ha & Hb & Hc & Hd). unfold sized. simpl.
    rewrite length_app. simpl. repeat split; lia. }
  assert (Hstar : forall k acc m,
             sized TreeLogic.countLeaves TreeLogic.countOrnaments
                   TreeLogic.countRibbon k acc ->
             sized TreeLogic.countLeaves TreeLogic.countOrnaments
                   TreeLogic.countRibbon (S k)
                   (fst (TreeLogic.pushStar k acc s m))).
  { intros k acc m (Ha & Hb & Hc & Hd). unfold sized. simpl.
    rewrite length_app. simpl. repeat split; lia. }
  unfold TreeLogic.generate, bind, forLoop.
  pose proof (forLoopFrom_indexed TreeLogic.pushLeaf s
                (fun k => sized k 0%nat 0%nat 0%nat) Hleaf
                TreeLogic.countLeaves 0%nat
                (TreeLogic.mkGenerated [] [] [] [] []) n) as H1.
  destruct (forLoopFrom 0 TreeLogic.countLeaves TreeLogic.pushLeaf _ s n)
    as [g1 n1].
  pose proof (forLoopFrom_indexed TreeLogic.pushOrnament s
                (fun k => sized TreeLogic.countLeaves k 0%nat 0%nat) Horn
                TreeLogic.countOrnaments 0%nat g1 n1) as H2.
  destruct (forLoopFrom 0 TreeLogic.countOrnaments TreeLogic.pushOrnament
                        _ s n1) as [g2 n2].
  pose proof (forLoopFrom_indexed TreeLogic.pushRibbon s
                (fun k => sized TreeLogic.countLeaves TreeLogic.countOrnaments
                                k 0%nat) Hrib
                TreeLogic.countRibbon 0%nat g2 n2) as H3.
  destruct (forLoopFrom 0 TreeLogic.countRibbon TreeLogic.pushRibbon _ s n2)
    as [g3 n3].
  apply (forLoopFrom_indexed TreeLogic.pushStar s
           (fun k => sized TreeLogic.countLeaves TreeLogic.countOrnaments
                           TreeLogic.countRibbon k) Hstar
           TreeLogic.countStar 0%nat g3 n3).
  apply H3, H2, H1. unfold sized. simpl. auto.
Qed.

(** The ribbon and star arrays handed to their particle systems are not
    empty, carry their category on the first particle, and keep every scale
    in the category's interval. *)
Lemma generated_reveal_systems (s : nat -> R) (n : nat) :
  unitDraws s ->
  let g := fst (TreeLogic.generate s n) in
  (ParticleSystem.systemType (TreeLogic.ribbonParticles g) = RIBBON
   /\ Forall (fun p => TreeLogic.scaleRange RIBBON (scale p))
             (TreeLogic.ribbonParticles g))
  /\ (ParticleSystem.systemType (TreeLogic.starParticles g) = STAR_PARTICLE
      /\ Forall (fun p => TreeLogic.scaleRange STAR_PARTICLE (scale p))
                (TreeLogic.starParticles g)).
Proof.
  intros Hs g.
  destruct (generate_wellGenerated s Hs n) as (_ & _ & _ & Hribbon & Hstar).
  destruct (generate_counts s n) as (_ & _ & Hnr & Hns).
  fold g in Hribbon, Hstar, Hnr, Hns. clearbody g.
  assert (Hhead : forall ty l,
             Forall (TreeLogic.generatedAs ty) l -> l <> [] ->
             ParticleSystem.systemType l = ty
             /\ Forall (fun p => TreeLogic.scaleRange ty (scale p)) l).
  { intros ty l Hall Hne. split.
    - destruct l as [| p0 l']; [congruence |].
      inversion Hall as [| ? ? [Hty _] _]. exact Hty.
    - revert Hall. apply Forall_impl. now intros p (_ & _ & Hsc). }
  split.
  - apply (Hhead RIBBON _ Hribbon). intros Hnil.
    rewrite Hnil in Hnr. discriminate.
  - apply (Hhead STAR_PARTICLE _ Hstar). intros Hnil.
    rewrite Hnil in Hns. discriminate.
Qed.

(** C6: whatever the draws in [0,1), every generated particle has its
    dispersed position within the radius of its category: 45 for leaves,
    55 for ornaments, 60 for the ribbon, 80 for the star. *)
Theorem explodePosition_within_radius (s : nat -> R) (n : nat)
        (Hs : unitDraws s) :
  let g := fst (TreeLogic.generate s n) in
  Forall (fun p => type p = LEAF /\ Vec.length (explodePosition p) <= 45)
         (TreeLogic.leaves g)
  /\ Forall (fun p => type p = ORNAMENT
                      /\ Vec.length (explodePosition p) <= 55)
            (TreeLogic.redOrnaments g ++ TreeLogic.goldOrnaments g)
  /\ Forall (fun p => type p = RIBBON /\ Vec.length (explodePosition p) <= 60)
            (TreeLogic.ribbonParticles g)
  /\ Forall (fun p => type p = STAR_PARTICLE
                      /\ Vec.length (explodePosition p) <= 80)
            (TreeLogic.starParticles g).
Proof.
  intros g.
  destruct (generate_wellGenerated s Hs n) as [Hl [Hr [Hg [Hb Hst]]]].
  fold g in Hl, Hr, Hg, Hb, Hst.
  assert (Hweak : forall ty l,
             Forall (TreeLogic.generatedAs ty) l ->
             Forall (fun p => type p = ty
                              /\ Vec.length (explodePosition p)
                                 <= TreeLogic.explodeRadius ty) l).
  { intros ty l. apply Forall_impl. intros p [Ht [Hd _]]. now split. }
  repeat split.
  - exact (Hweak LEAF _ Hl).
  - apply Forall_app. split;
      [exact (Hweak ORNAMENT _ Hr) | exact (Hweak ORNAMENT _ Hg)].
  - exact (Hweak RIBBON _ Hb).
  - exact (Hweak STAR_PARTICLE _ Hst).
Qed.

Lemma explodePosition_within_radius_witness :
  Forall (fun p => type p = RIBBON /\ Vec.length (explodePosition p) <= 60)
         (TreeLogic.ribbonParticles
            (fst (TreeLogic.generate (fun _ => 0.5) 0%nat))).
Proof.
  assert (Hs : unitDraws (fun _ => 0.5)) by (intros k; lra).
  exact (proj1 (proj2 (proj2
           (explodePosition_within_radius (fun _ => 0.5) 0%nat Hs)))).
Defined.

(** ** Interpolation and distance *)

Section LerpFacts.

Lemma clamp_unit (x : R) : 0 <= JSMath.clamp x 0 1 <= 1.
Proof.
  unfold JSMath.clamp, Rmax, Rmin.
  destruct (Rle_dec 1 x); destruct (Rle_dec 0 _); lra.
Qed.

Lemma clamp_unit_pos (x : R) : 0 < x -> 0 < JSMath.clamp x 0 1.
Proof.
  intros Hx. unfold JSMath.clamp, Rmax, Rmin.
  destruct (Rle_dec 1 x); destruct (Rle_dec 0 _); lra.
Qed.

Lemma distanceToSquared_nonneg (a b : Vector3) : 0 <= Vec.distanceToSquared a b.
Proof.
  unfold Vec.distanceToSquared.
  pose proof (Rle_0_sqr (vx a - vx b)) as Hx.
  pose proof (Rle_0_sqr (vy a - vy b)) as Hy.
  pose proof (Rle_0_sqr (vz a - vz b)) as Hz.
  unfold Rsqr in *. lra.
Qed.

Lemma distanceTo_nonneg (a b : Vector3) : 0 <= Vec.distanceTo a b.
Proof. apply sqrt_pos. Qed.

Lemma distanceTo_sym (a b : Vector3) : Vec.distanceTo a b = Vec.distanceTo b a.
Proof. unfold Vec.distanceTo, Vec.distanceToSquared. f_equal. ring. Qed.

Lemma distanceTo_self (a : Vector3) : Vec.distanceTo a a = 0.
Proof.
  unfold Vec.distanceTo, Vec.distanceToSquared.
  replace (_ + _ + _) with 0 by ring. apply sqrt_0.
Qed.

(** Interpolating toward a point scales the distance to it by [1 - alpha]. *)
Lemma distanceTo_lerp (c t : Vector3) (alpha : R) :
  0 <= alpha <= 1 ->
  Vec.distanceTo (Vec.lerp c t alpha) t = (1 - alpha) * Vec.distanceTo c t.
Proof.
  intros Ha. unfold Vec.distanceTo.
  replace (Vec.distanceToSquared (Vec.lerp c t alpha) t)
    with ((1 - alpha) * (1 - alpha) * Vec.distanceToSquared c t)
    by (unfold Vec.distanceToSquared, Vec.lerp; simpl; ring).
  rewrite sqrt_mult by (try apply distanceToSquared_nonneg; nra).
  rewrite sqrt_square by lra. reflexivity.
Qed.

Lemma distanceTo_lerp_le (c t : Vector3) (alpha : R) :
  0 <= alpha <= 1 ->
  Vec.distanceTo (Vec.lerp c t alpha) t <= Vec.distanceTo c t.
Proof.
  intros Ha. rewrite distanceTo_lerp by assumption.
  pose proof (distanceTo_nonneg c t). nra.
Qed.

End LerpFacts.

(** ** One frame of the animator *)

Section FrameFacts.

Import ParticleSystem.

Lemma nth_error_combine_both {A B : Type} (l : list A) (l' : list B)
      (i : nat) (a : A) (b : B) :
  nth_error l i = Some a -> nth_error l' i = Some b ->
  nth_error (combine l l') i = Some (a, b).
Proof.
  revert l' i. induction l as [| x l IH]; intros l' i Ha Hb.
  - destruct i; discriminate.
  - destruct l' as [| y l']; [destruct i; discriminate |].
    destruct i as [| i]; simpl in *.
    + now inversion Ha; inversion Hb.
    + now apply IH.
Qed.

Lemma nth_error_combine_inv {A B : Type} (l : list A) (l' : list B)
      (i : nat) (ab : A * B) :
  nth_error (combine l l') i = Some ab ->
  nth_error l i = Some (fst ab) /\ nth_error l' i = Some (snd ab).
Proof.
  revert l' i. induction l as [| x l IH]; intros l' i H.
  - destruct i; discriminate.
  - destruct l' as [| y l']; [destruct i; discriminate |].
    destruct i as [| i]; simpl in *.
    + inversion H. now split.
    + now apply IH.
Qed.

Variable data : list ParticleData.
Variable animationSpeed : R.

(** The start time a frame works with: reset on the frame that sees the
    mode change, kept otherwise. *)
Lemma useFrame_start (appState : AppState) (time delta : R) (refs : Refs) :
  transitionStartTime (fst (useFrame data appState animationSpeed time delta refs))
  = if AppState_eqb appState (lastState refs)
    then transitionStartTime refs else time.
Proof.
  unfold useFrame. simpl. now destruct (AppState_eqb appState (lastState refs)).
Qed.

Lemma useFrame_lastState (appState : AppState) (time delta : R) (refs : Refs) :
  lastState (fst (useFrame data appState animationSpeed time delta refs))
  = appState.
Proof.
  unfold useFrame. simpl.
  destruct appState, (lastState refs); reflexivity.
Qed.

Lemma useFrame_positions (appState : AppState) (time delta : R) (refs : Refs) :
  currentPositions (fst (useFrame data appState animationSpeed time delta refs))
  = map position (snd (useFrame data appState animationSpeed time delta refs)).
Proof. reflexivity. Qed.

(** The instance written at index [i] is the loop body run on particle [i]
    and its running position. *)
Lemma useFrame_written (appState : AppState) (time delta : R) (refs : Refs)
      (i : nat) (inst : Instance) :
  nth_error (snd (useFrame data appState animationSpeed time delta refs)) i
  = Some inst ->
  exists p c,
    nth_error data i = Some p
    /\ nth_error (currentPositions refs) i = Some c
    /\ inst = stepParticle
                (ParticleType_eqb (systemType data) RIBBON)
                (ParticleType_eqb (systemType data) STAR_PARTICLE)
                (ParticleType_eqb (systemType data) ORNAMENT)
                (AppState_eqb appState TREE) time
                (JSMath.clamp (delta * animationSpeed) 0 1)
                (currentWaveHeight
                   (time - transitionStartTime
                             (fst (useFrame data appState animationSpeed
                                            time delta refs))))
                p c.
Proof.
  intros H. unfold useFrame in H. simpl in H.
  rewrite nth_error_map in H.
  destruct (nth_error (combine data (currentPositions refs)) i)
    as [[p c] |] eqn:Hpc; [| discriminate].
  apply nth_error_combine_inv in Hpc. destruct Hpc as [Hp Hc].
  exists p, c. repeat split; try assumption.
  simpl in H. inversion H. reflexivity.
Qed.

Lemma useFrame_writes (appState : AppState) (time delta : R) (refs : Refs)
      (i : nat) (p : ParticleData) (c : Vector3) :
  nth_error data i = Some p ->
  nth_error (currentPositions refs) i = Some c ->
  exists inst,
    nth_error (snd (useFrame data appState animationSpeed time delta refs)) i
    = Some inst.
Proof.
  intros Hp Hc. unfold useFrame. simpl. rewrite nth_error_map.
  rewrite (nth_error_combine_both _ _ _ _ _ Hp Hc). simpl. eauto.
Qed.

End FrameFacts.

(** ** The reveal wave within one frame *)

Section RevealGate.

Import ParticleSystem.

Variable data : list ParticleData.
Variables (animationSpeed time delta : R).
Variable refs : Refs.
Variables (i : nat) (p : ParticleData) (c : Vector3).
Hypothesis Hp : nth_error data i = Some p.
Hypothesis Hc : nth_error (currentPositions refs) i = Some c.

(** What a ribbon system writes for particle [i] in assembled mode. *)
Lemma ribbon_tree_instance :
  systemType data = RIBBON ->
  nth_error (snd (useFrame data TREE animationSpeed time delta refs)) i
  = Some (stepParticle true false false true time
            (JSMath.clamp (delta * animationSpeed) 0 1)
            (currentWaveHeight
               (time - transitionStartTime
                         (fst (useFrame data TREE animationSpeed time delta
                                        refs))))
            p c).
Proof.
  intros Hty.
  destruct (useFrame_writes data animationSpeed TREE time delta refs i p c Hp Hc)
    as [inst Hinst].
  rewrite Hinst.
  destruct (useFrame_written _ _ _ _ _ _ _ _ Hinst)
    as (p' & c' & Hp' & Hc' & ->).
  rewrite Hp in Hp'. rewrite Hc in Hc'.
  injection Hp' as <-. injection Hc' as <-.
  rewrite Hty. reflexivity.
Qed.

(** What a star system writes for particle [i] in assembled mode. *)
Lemma star_tree_instance :
  systemType data = STAR_PARTICLE ->
  nth_error (snd (useFrame data TREE animationSpeed time delta refs)) i
  = Some (stepParticle false true false true time
            (JSMath.clamp (delta * animationSpeed) 0 1)
            (currentWaveHeight
               (time - transitionStartTime
                         (fst (useFrame data TREE animationSpeed time delta
                                        refs))))
            p c).
Proof.
  intros Hty.
  destruct (useFrame_writes data animationSpeed TREE time delta refs i p c Hp Hc)
    as [inst Hinst].
  rewrite Hinst.
  destruct (useFrame_written _ _ _ _ _ _ _ _ Hinst)
    as (p' & c' & Hp' & Hc' & ->).
  rewrite Hp in Hp'. rewrite Hc in Hc'.
  injection Hp' as <-. injection Hc' as <-.
  rewrite Hty. reflexivity.
Qed.

Lemma ribbon_hidden_until_wave (lf wave : R) :
  ~ vy (treePosition p) < wave ->
  instScale (stepParticle true false false true time lf wave p c) = 0.01.
Proof.
  intros Hn. unfold stepParticle, hideStreaks, behaviorScale. simpl.
  destruct (Rlt_dec 3.0 _); [reflexivity |].
  destruct (Rlt_dec (vy (treePosition p)) wave); [contradiction | reflexivity].
Qed.

Lemma ribbon_visible_under_wave (lf wave : R) :
  visible (instScale (stepParticle true false false true time lf wave p c)) ->
  vy (treePosition p) < wave.
Proof.
  intros Hv.
  destruct (Rlt_dec (vy (treePosition p)) wave) as [Hlt | Hn]; [exact Hlt |].
  rewrite (ribbon_hidden_until_wave lf wave Hn) in Hv. unfold visible in Hv. lra.
Qed.

Lemma star_hidden_until_top (lf wave : R) :
  ~ 14.0 < wave ->
  let s := instScale (stepParticle false true false true time lf wave p c) in
  s = 0.001 \/ s = 0.01.
Proof.
  intros Hn. unfold stepParticle, hideStreaks, behaviorScale. simpl.
  destruct (Rlt_dec 3.0 _); [now right |].
  destruct (Rlt_dec 14.0 wave); [contradiction | now left].
Qed.

Lemma star_visible_after_top (lf wave : R) :
  visible (instScale (stepParticle false true false true time lf wave p c)) ->
  14.0 < wave.
Proof.
  intros Hv.
  destruct (Rlt_dec 14.0 wave) as [Hlt | Hn]; [exact Hlt |].
  destruct (star_hidden_until_top lf wave Hn) as [H | H];
    rewrite H in Hv; unfold visible in Hv; lra.
Qed.

End RevealGate.

Section RevealClaims.

Import ParticleSystem Samples.

(** C1 (amended): in assembled mode, a ribbon particle is written with the
    hidden scale 0.01 as long as the wave height has not passed its own
    assembled height, and is visible only once it has; a star particle is
    written with a hidden scale (0.001, or 0.01 from the streak rule) as
    long as the wave height has not passed the fixed height 14.0, and is
    visible only once it has, whatever the particle's own height. *)
Theorem reveal_gate (data : list ParticleData)
        (animationSpeed time delta : R) (refs : Refs)
        (i : nat) (p : ParticleData) (c : Vector3)
        (Hp : nth_error data i = Some p)
        (Hc : nth_error (currentPositions refs) i = Some c) :
  let out := useFrame data TREE animationSpeed time delta refs in
  let waveHeight := currentWaveHeight (time - transitionStartTime (fst out)) in
  exists inst,
    nth_error (snd out) i = Some inst
    /\ (systemType data = RIBBON ->
        (~ vy (treePosition p) < waveHeight ->
         instScale inst = 0.01 /\ nearZero (instScale inst))
        /\ (visible (instScale inst) -> vy (treePosition p) < waveHeight))
    /\ (systemType data = STAR_PARTICLE ->
        (~ 14.0 < waveHeight ->
         (instScale inst = 0.001 \/ instScale inst = 0.01)
         /\ nearZero (instScale inst))
        /\ (visible (instScale inst) -> 14.0 < waveHeight)).
Proof.
  cbv zeta.
  destruct (useFrame_writes data animationSpeed TREE time delta refs i p c
                            Hp Hc) as [inst Hinst].
  exists inst. split; [exact Hinst |].
  split; intros Hty.
  - pose proof (ribbon_tree_instance data animationSpeed time delta refs
                                     i p c Hp Hc Hty) as Hr.
    rewrite Hinst in Hr. injection Hr as ->.
    split.
    + intros Hn.
      rewrite (ribbon_hidden_until_wave time p c _ _ Hn).
      unfold nearZero. split; lra.
    + apply ribbon_visible_under_wave.
  - pose proof (star_tree_instance data animationSpeed time delta refs
                                   i p c Hp Hc Hty) as Hr.
    rewrite Hinst in Hr. injection Hr as ->.
    split.
    + intros Hn.
      pose proof (star_hidden_until_top time p c
                    (JSMath.clamp (delta * animationSpeed) 0 1) _ Hn) as Hs.
      split; [exact Hs |].
      unfold nearZero. set (sc := instScale _).
      change (sc = 0.001 \/ sc = 0.01) in Hs.
      destruct Hs as [-> | ->]; lra.
    + apply star_visible_after_top.
Qed.

Lemma reveal_gate_witness :
  exists inst,
    nth_error (snd (useFrame [ribbonMid] TREE 2.5 0.5 0.016
                             (initialRefs [ribbonMid] TREE))) 0
    = Some inst
    /\ instScale inst = 0.01.
Proof.
  destruct (reveal_gate [ribbonMid] 2.5 0.5 0.016 (initialRefs [ribbonMid] TREE)
                        0 ribbonMid (treePosition ribbonMid)
                        eq_refl eq_refl) as [inst [Hinst [Hribbon _]]].
  exists inst. split; [exact Hinst |].
  apply (Hribbon eq_refl).
  rewrite useFrame_start. simpl.
  unfold currentWaveHeight, waveStartOffset, waveSpeed. lra.
Defined.

Lemma starTip_pop_scale (time lf : R) :
  let inst := stepParticle false true false true time lf 14.9 starTip
                           (treePosition starTip) in
  0.0189 <= instScale inst.
Proof.
  unfold stepParticle, hideStreaks, behaviorScale, activeLerp, behaviorTarget.
  cbv [orb andb instScale position].
  replace (Vec.lerp (treePosition starTip) (treePosition starTip) lf)
    with (treePosition starTip)
    by (unfold Vec.lerp; destruct (treePosition starTip); simpl; f_equal; ring).
  rewrite distanceTo_self.
  destruct (Rlt_dec 3.0 0); [lra |].
  destruct (Rlt_dec 14.0 14.9); [| lra].
  pose proof (SIN_bound (time * 5 + INR (id starTip))) as [Hlo Hhi].
  set (w := sin (time * 5 + INR (id starTip))) in *.
  replace (Rmin 1 ((14.9 - 14.0) / 5)) with 0.18
    by (unfold Rmin; destruct (Rle_dec 1 ((14.9 - 14.0) / 5)); lra).
  change (scale starTip) with 0.15.
  lra.
Qed.

(** C1, counterexample: a star particle whose assembled height is 15 is
    written with a visible scale when the wave height is only 14.9. *)
Lemma star_visible_before_wave_reaches_it :
  let out := useFrame [starTip] TREE 3.0 1.495 0.016
                      (initialRefs [starTip] TREE) in
  let waveHeight := currentWaveHeight (1.495 - transitionStartTime (fst out)) in
  systemType [starTip] = STAR_PARTICLE
  /\ waveHeight = 14.9
  /\ ~ vy (treePosition starTip) < waveHeight
  /\ exists inst,
      nth_error (snd out) 0 = Some inst
      /\ visible (instScale inst)
      /\ ~ nearZero (instScale inst).
Proof.
  intros out waveHeight.
  assert (Hw : waveHeight = 14.9).
  { unfold waveHeight, out, currentWaveHeight, waveStartOffset, waveSpeed.
    rewrite useFrame_start. simpl. lra. }
  split; [reflexivity |].
  split; [exact Hw |].
  split; [rewrite Hw; simpl; lra |].
  pose proof (star_tree_instance [starTip] 3.0 1.495 0.016
                (initialRefs [starTip] TREE) 0 starTip
                (treePosition starTip) eq_refl eq_refl eq_refl) as Hinst.
  fold out in Hinst. fold waveHeight in Hinst. rewrite Hw in Hinst.
  eexists. split; [exact Hinst |].
  pose proof (starTip_pop_scale 1.495 (JSMath.clamp (0.016 * 3.0) 0 1)) as Hs.
  cbv zeta in Hs. unfold visible, nearZero. split; lra.
Qed.

End RevealClaims.

Section FactorAndTiming.

Import ParticleSystem Samples.

Lemma ribbon_tree_position (time lf wave : R) (p : ParticleData) (c : Vector3) :
  position (stepParticle true false false true time lf wave p c)
  = Vec.lerp c (treePosition p)
             (if Rlt_dec (vy (treePosition p)) wave then 0.2 else 0.05).
Proof. reflexivity. Qed.

Lemma star_tree_position (time lf wave : R) (p : ParticleData) (c : Vector3) :
  position (stepParticle false true false true time lf wave p c)
  = Vec.lerp c (treePosition p) lf.
Proof. reflexivity. Qed.

(** C3 (amended): in assembled mode the interpolation factor of a ribbon
    particle is overridden to 0.2 when its assembled height is below the
    wave height and to 0.05 otherwise; the factor of a star particle is not
    overridden, it stays the base factor clamp(delta * speed, 0, 1). *)
Theorem lerp_factor_override (data : list ParticleData)
        (animationSpeed time delta : R) (refs : Refs)
        (i : nat) (p : ParticleData) (c : Vector3)
        (Hp : nth_error data i = Some p)
        (Hc : nth_error (currentPositions refs) i = Some c) :
  let out := useFrame data TREE animationSpeed time delta refs in
  let waveHeight := currentWaveHeight (time - transitionStartTime (fst out)) in
  let lerpFactor := JSMath.clamp (delta * animationSpeed) 0 1 in
  exists inst,
    nth_error (snd out) i = Some inst
    /\ (systemType data = RIBBON ->
        (vy (treePosition p) < waveHeight ->
         activeLerp true true lerpFactor waveHeight p = 0.2
         /\ position inst = Vec.lerp c (treePosition p) 0.2)
        /\ (~ vy (treePosition p) < waveHeight ->
            activeLerp true true lerpFactor waveHeight p = 0.05
            /\ position inst = Vec.lerp c (treePosition p) 0.05))
    /\ (systemType data = STAR_PARTICLE ->
        activeLerp false true lerpFactor waveHeight p = lerpFactor
        /\ position inst = Vec.lerp c (treePosition p) lerpFactor).
Proof.
  cbv zeta.
  destruct (useFrame_writes data animationSpeed TREE time delta refs i p c
                            Hp Hc) as [inst Hinst].
  exists inst. split; [exact Hinst |].
  split; intros Hty.
  - pose proof (ribbon_tree_instance data animationSpeed time delta refs
                                     i p c Hp Hc Hty) as Hr.
    rewrite Hinst in Hr. injection Hr as ->.
    rewrite ribbon_tree_position. unfold activeLerp. simpl.
    split; intros Hw;
      destruct (Rlt_dec (vy (treePosition p)) _); try contradiction;
      now split.
  - pose proof (star_tree_instance data animationSpeed time delta refs
                                   i p c Hp Hc Hty) as Hr.
    rewrite Hinst in Hr. injection Hr as ->.
    rewrite star_tree_position. now split.
Qed.

Lemma lerp_factor_override_witness :
  exists inst,
    nth_error (snd (useFrame [ribbonMid] TREE 2.5 1 0.016
                             (initialRefs [ribbonMid] TREE))) 0
    = Some inst
    /\ position inst
       = Vec.lerp (treePosition ribbonMid) (treePosition ribbonMid) 0.2.
Proof.
  destruct (lerp_factor_override [ribbonMid] 2.5 1 0.016
              (initialRefs [ribbonMid] TREE) 0 ribbonMid
              (treePosition ribbonMid) eq_refl eq_refl)
    as [inst [Hinst [Hribbon _]]].
  exists inst. split; [exact Hinst |].
  apply (Hribbon eq_refl).
  rewrite useFrame_start. simpl.
  unfold currentWaveHeight, waveStartOffset, waveSpeed. lra.
Defined.

(** C3, counterexample: for a star particle below the wave the factor is
    the base factor 0.3 of this frame, neither 0.2 nor 0.05, and the
    position written is 0.3 of the way to the assembled position. *)
Lemma star_factor_not_overridden :
  let out := useFrame [starLow] TREE 3.0 2 0.1 starLowRefs in
  let waveHeight := currentWaveHeight (2 - transitionStartTime (fst out)) in
  let lerpFactor := JSMath.clamp (0.1 * 3.0) 0 1 in
  systemType [starLow] = STAR_PARTICLE
  /\ vy (treePosition starLow) < waveHeight
  /\ activeLerp false true lerpFactor waveHeight starLow = 0.3
  /\ exists inst,
      nth_error (snd out) 0 = Some inst
      /\ position inst = mkVector3 7 13 0
      /\ position inst <> Vec.lerp (mkVector3 10 13 0) (treePosition starLow) 0.2
      /\ position inst <> Vec.lerp (mkVector3 10 13 0) (treePosition starLow) 0.05.
Proof.
  cbv zeta.
  assert (Hlf : JSMath.clamp (0.1 * 3.0) 0 1 = 0.3).
  { unfold JSMath.clamp, Rmax, Rmin.
    destruct (Rle_dec 1 (0.1 * 3.0)); destruct (Rle_dec 0 _); lra. }
  split; [reflexivity |].
  split.
  { rewrite useFrame_start. simpl.
    unfold currentWaveHeight, waveStartOffset, waveSpeed. lra. }
  split; [exact Hlf |].
  pose proof (star_tree_instance [starLow] 3.0 2 0.1 starLowRefs 0 starLow
                (mkVector3 10 13 0) eq_refl eq_refl eq_refl) as Hinst.
  eexists. split; [exact Hinst |].
  rewrite star_tree_position, Hlf.
  assert (Hpos : Vec.lerp (mkVector3 10 13 0) (treePosition starLow) 0.3
                 = mkVector3 7 13 0).
  { unfold Vec.lerp. simpl. f_equal; lra. }
  rewrite Hpos. split; [reflexivity |].
  split; intros Heq; apply (f_equal vx) in Heq; simpl in Heq; lra.
Qed.

(** C4: with the wave starting at -15 and rising 20 per second, a ribbon
    particle whose assembled height is 5 meets the reveal condition exactly
    for times since the mode change above (5 - (-15)) / 20 = 1: before that
    it is written with the hidden scale 0.01, after that the wave has
    passed its height. *)
Theorem reveal_timing_at_height_five (data : list ParticleData)
        (animationSpeed time delta : R) (refs : Refs)
        (i : nat) (p : ParticleData) (c : Vector3)
        (Hty : systemType data = RIBBON)
        (Hp : nth_error data i = Some p)
        (Hc : nth_error (currentPositions refs) i = Some c)
        (Hy : vy (treePosition p) = 5) :
  let out := useFrame data TREE animationSpeed time delta refs in
  let sinceChange := time - transitionStartTime (fst out) in
  waveStartOffset = -15 /\ waveSpeed = 20
  /\ (5 - waveStartOffset) / waveSpeed = 1
  /\ (vy (treePosition p) < currentWaveHeight sinceChange <-> 1 < sinceChange)
  /\ exists inst,
      nth_error (snd out) i = Some inst
      /\ (sinceChange < 1 -> instScale inst = 0.01 /\ nearZero (instScale inst))
      /\ (sinceChange = 1 -> instScale inst = 0.01)
      /\ (1 < sinceChange -> vy (treePosition p) < currentWaveHeight sinceChange).
Proof.
  cbv zeta.
  set (sinceChange :=
         time - transitionStartTime
                  (fst (useFrame data TREE animationSpeed time delta refs))).
  assert (Hiff : vy (treePosition p) < currentWaveHeight sinceChange
                 <-> 1 < sinceChange).
  { rewrite Hy. unfold currentWaveHeight, waveStartOffset, waveSpeed.
    split; intros; lra. }
  split; [reflexivity |]. split; [reflexivity |].
  split; [unfold waveStartOffset, waveSpeed; lra |].
  split; [exact Hiff |].
  pose proof (ribbon_tree_instance data animationSpeed time delta refs
                                   i p c Hp Hc Hty) as Hr.
  fold sinceChange in Hr.
  eexists. split; [exact Hr |].
  assert (Hhid : ~ vy (treePosition p) < currentWaveHeight sinceChange ->
                 instScale
                   (stepParticle true false false true time
                      (JSMath.clamp (delta * animationSpeed) 0 1)
                      (currentWaveHeight sinceChange) p c) = 0.01).
  { intros Hn. now apply ribbon_hidden_until_wave. }
  split; [| split].
  - intros Hlt. rewrite Hhid by (rewrite Hiff; lra).
    unfold nearZero. split; lra.
  - intros Heq. apply Hhid. rewrite Hiff. lra.
  - intros Hgt. now apply Hiff.
Qed.

Lemma reveal_timing_at_height_five_witness :
  exists inst,
    nth_error (snd (useFrame [ribbonAtFive] TREE 2.5 0.5 0.016
                             (initialRefs [ribbonAtFive] TREE))) 0
    = Some inst
    /\ instScale inst = 0.01.
Proof.
  destruct (reveal_timing_at_height_five [ribbonAtFive] 2.5 0.5 0.016
              (initialRefs [ribbonAtFive] TREE) 0 ribbonAtFive
              (treePosition ribbonAtFive) eq_refl eq_refl eq_refl eq_refl)
    as (_ & _ & _ & _ & inst & Hinst & Hbefore & _).
  exists inst. split; [exact Hinst |].
  apply Hbefore. rewrite useFrame_start. simpl. lra.
Defined.

End FactorAndTiming.

(** ** Gallery layout *)

Section GalleryLayout.

Import PhotoGallery.

Variable faceOutward : Vector3 -> Euler.
Variable s : nat -> R.

Lemma collision_false (candidate : Vector3) (data : list LayoutEntry) :
  collision candidate data = false ->
  forall existing, In existing data ->
    minDistance <= Vec.distanceTo candidate (treePos existing).
Proof.
  unfold collision. intros Hno existing Hin.
  destruct (Rlt_dec (Vec.distanceTo candidate (treePos existing)) minDistance)
    as [Hlt | Hge]; [| lra].
  exfalso.
  assert (Hex : existsb
                  (fun e => if Rlt_dec (Vec.distanceTo candidate (treePos e))
                                       minDistance
                            then true else false) data = true).
  { apply existsb_exists. exists existing. split; [assumption |].
    destruct (Rlt_dec _ _); [reflexivity | contradiction]. }
  rewrite Hex in Hno. discriminate.
Qed.

(** A candidate that leaves the attempt loop passed the collision check. *)
Lemma attemptLoop_accepts (attemptsLeft : nat) (data : list LayoutEntry)
      (n : nat) (candidate : Vector3) :
  fst (attemptLoop attemptsLeft data s n) = Some candidate ->
  collision candidate data = false.
Proof.
  revert n. induction attemptsLeft as [| k IH]; intros n H; simpl in H.
  - discriminate.
  - unfold bind in H.
    destruct (drawCandidate s n) as [cand n'] eqn:Hd.
    destruct (collision cand data) eqn:Hcol.
    + now apply IH in H.
    + simpl in H. now inversion H; subst.
Qed.

(** The loop gives up only after drawing all its candidates, three draws
    each. *)
Lemma attemptLoop_exhausted (attemptsLeft : nat) (data : list LayoutEntry)
      (n : nat) :
  fst (attemptLoop attemptsLeft data s n) = None ->
  snd (attemptLoop attemptsLeft data s n) = (n + 3 * attemptsLeft)%nat.
Proof.
  revert n. induction attemptsLeft as [| k IH]; intros n H; simpl in *.
  - lia.
  - unfold bind in *.
    assert (Hcur : snd (drawCandidate s n) = S (S (S n))) by reflexivity.
    destruct (drawCandidate s n) as [cand n'] eqn:Hd.
    simpl in Hcur. subst n'.
    destruct (collision cand data).
    + rewrite IH by assumption. lia.
    + discriminate.
Qed.

(** The shape of what one iteration appends. *)
Lemma placePhoto_appends (count i : nat) (tr : list (LayoutEntry * bool))
      (n : nat) :
  exists e valid,
    fst (placePhoto faceOutward count i tr s n) = tr ++ [(e, valid)]
    /\ match fst (attemptLoop maxAttempts (map fst tr) s n) with
       | Some candidate => valid = true /\ treePos e = candidate
       | None => valid = false /\ treePos e = getSpiralPos i count
       end.
Proof.
  unfold placePhoto, bind.
  destruct (attemptLoop maxAttempts (map fst tr) s n) as [[candidate |] n'];
    cbn [fst]; do 2 eexists; split; try reflexivity; split; reflexivity.
Qed.

Lemma placePhoto_invariant (count i : nat) (tr : list (LayoutEntry * bool))
      (n : nat) :
  layoutInvariant count i tr ->
  layoutInvariant count (S i) (fst (placePhoto faceOutward count i tr s n)).
Proof.
  intros (Hlen & Hsep & Hfall).
  destruct (placePhoto_appends count i tr n) as (e & valid & -> & Hnew).
  repeat split.
  - rewrite length_app. simpl. lia.
  - intros a b ea va eb Hab Ha Hb.
    assert (Hb' : (b < List.length (tr ++ [(e, valid)]))%nat)
      by (apply nth_error_Some; rewrite Hb; discriminate).
    rewrite length_app in Hb'. simpl in Hb'.
    rewrite nth_error_app1 in Ha by lia.
    destruct (Nat.eq_dec b (List.length tr)) as [Heq | Hne].
    + rewrite nth_error_app2 in Hb by lia.
      replace (b - List.length tr)%nat with 0%nat in Hb by lia.
      simpl in Hb. injection Hb as He Hv. subst eb valid.
      destruct (fst (attemptLoop maxAttempts (map fst tr) s n))
        as [candidate |] eqn:Hfound; [| destruct Hnew; discriminate].
      destruct Hnew as [_ ->].
      apply attemptLoop_accepts in Hfound.
      apply (collision_false _ _ Hfound ea).
      apply in_map_iff. exists (ea, va). split; [reflexivity |].
      now apply nth_error_In with a.
    + rewrite nth_error_app1 in Hb by lia.
      now apply (Hsep a b ea va eb).
  - intros a ea Ha.
    assert (Ha' : (a < List.length (tr ++ [(e, valid)]))%nat)
      by (apply nth_error_Some; rewrite Ha; discriminate).
    rewrite length_app in Ha'. simpl in Ha'.
    destruct (Nat.eq_dec a (List.length tr)) as [Heq | Hne].
    + rewrite nth_error_app2 in Ha by lia.
      replace (a - List.length tr)%nat with 0%nat in Ha by lia.
      simpl in Ha. injection Ha as He Hv. subst ea valid.
      destruct (fst (attemptLoop maxAttempts (map fst tr) s n));
        [destruct Hnew; discriminate |].
      destruct Hnew as [_ ->]. congruence.
    + rewrite nth_error_app1 in Ha by lia.
      now apply Hfall.
Qed.

Lemma layoutTrace_invariant (photos : list string) (n : nat) :
  layoutInvariant (List.length photos) (List.length photos)
                  (fst (layoutTrace faceOutward photos s n)).
Proof.
  unfold layoutTrace, forLoop.
  apply (forLoopFrom_indexed (placePhoto faceOutward (List.length photos)) s
           (layoutInvariant (List.length photos))
           (placePhoto_invariant (List.length photos))
           (List.length photos) 0 [] n).
  repeat split.
  - intros a b ea va eb _ Ha. destruct a; discriminate.
  - intros a ea Ha. destruct a; discriminate.
Qed.

End GalleryLayout.

(** C5: for a photo list of length N the solver returns exactly N
    placements, whatever the random draws; any two placements that were
    both accepted by the random search have their centres at least 3.6
    apart; a placement not found after the 100 attempts is the spiral
    position of its index. *)
Theorem layout_places_every_photo (faceOutward : Vector3 -> Euler)
        (photos : list string) (s : nat -> R) (n : nat) :
  let data := fst (PhotoGallery.layoutData faceOutward photos s n) in
  let tr := fst (PhotoGallery.layoutTrace faceOutward photos s n) in
  List.length data = List.length photos
  /\ data = map fst tr
  /\ (forall i j ei ej,
        i <> j ->
        nth_error tr i = Some (ei, true) ->
        nth_error tr j = Some (ej, true) ->
        3.6 <= Vec.distanceTo (PhotoGallery.treePos ei) (PhotoGallery.treePos ej))
  /\ (forall i e,
        nth_error tr i = Some (e, false) ->
        PhotoGallery.treePos e
        = PhotoGallery.getSpiralPos i (List.length photos))
  /\ PhotoGallery.maxAttempts = 100%nat.
Proof.
  intros data tr.
  destruct (layoutTrace_invariant faceOutward s photos n)
    as (Hlen & Hsep & Hfall).
  fold tr in Hlen, Hsep, Hfall.
  assert (Hdata : data = map fst tr).
  { unfold data, tr, PhotoGallery.layoutData, bind.
    destruct (PhotoGallery.layoutTrace faceOutward photos s n). reflexivity. }
  split; [rewrite Hdata, length_map; exact Hlen |].
  split; [exact Hdata |].
  split; [| split; [exact Hfall | reflexivity]].
  intros i j ei ej Hij Hi Hj.
  change 3.6 with PhotoGallery.minDistance.
  destruct (Nat.lt_ge_cases i j) as [Hlt | Hge].
  - rewrite distanceTo_sym. now apply (Hsep i j ei true ej).
  - apply (Hsep j i ej true ei); [lia | assumption | assumption].
Qed.

(** ** Bounds on the oscillating factors *)

Section Oscillation.

Lemma sin_within_arg (u : R) : 0 <= u -> - u <= sin u <= u.
Proof.
  intros Hu. split.
  - destruct (Rle_dec u 1) as [Hsmall | Hbig].
    + assert (0 <= sin u).
      { apply sin_ge_0; [assumption |]. pose proof PI2_1. lra. }
      lra.
    + pose proof (SIN_bound u). lra.
  - destruct (Req_dec u 0) as [-> | Hne].
    + rewrite sin_0. lra.
    + left. apply sin_lt_x. lra.
Qed.

(** The sine moves by at most the change of its argument. *)
Lemma sin_lipschitz (x h : R) : 0 <= h -> - h <= sin (x + h) - sin x <= h.
Proof.
  intros Hh. rewrite form4.
  replace ((x + h - x) / 2) with (h / 2) by field.
  pose proof (sin_within_arg (h / 2) ltac:(lra)) as [Hlo Hhi].
  pose proof (COS_bound ((x + h + x) / 2)) as [Clo Chi].
  set (cv := cos ((x + h + x) / 2)) in *.
  set (sv := sin (h / 2)) in *.
  split; nra.
Qed.

End Oscillation.

(** ** Staying visible from one frame to a later one *)

Section KeepVisible.

Import ParticleSystem.

Variable p : ParticleData.
Variables (ta tb lfa lfb start : R).
Variables (ca cb : Vector3).
Hypothesis Hclock : ta <= tb.

Lemma waveHeight_monotone :
  currentWaveHeight (ta - start) <= currentWaveHeight (tb - start).
Proof. unfold currentWaveHeight, waveStartOffset, waveSpeed. lra. Qed.

(** A visible ribbon or star instance is within streak range of its
    assembled position. *)
Lemma visible_within_streak_range (isRibbon isStar isOrnament : bool)
      (time lf wave : R) (c : Vector3) :
  isRibbon || isStar = true ->
  visible (instScale (stepParticle isRibbon isStar isOrnament true
                                   time lf wave p c)) ->
  Vec.distanceTo (position (stepParticle isRibbon isStar isOrnament true
                                         time lf wave p c))
                 (treePosition p) <= 3.0.
Proof.
  intros Hrs Hv. unfold stepParticle, hideStreaks in *.
  cbv [instScale position] in *.
  rewrite Hrs in Hv.
  destruct (Rlt_dec 3.0 _) as [Hfar | Hnear]; [| lra].
  unfold visible in Hv. lra.
Qed.

Lemma ribbon_keeps_visible :
  0.08 <= scale p ->
  Vec.distanceTo cb (treePosition p)
  <= Vec.distanceTo
       (position (stepParticle true false false true ta lfa
                               (currentWaveHeight (ta - start)) p ca))
       (treePosition p) ->
  visible (instScale (stepParticle true false false true ta lfa
                                   (currentWaveHeight (ta - start)) p ca)) ->
  visible (instScale (stepParticle true false false true tb lfb
                                   (currentWaveHeight (tb - start)) p cb)).
Proof.
  intros Hs Hdist Hv.
  pose proof (visible_within_streak_range true false false ta lfa
                (currentWaveHeight (ta - start)) ca eq_refl Hv) as Hnear.
  pose proof (ribbon_visible_under_wave ta p ca lfa _ Hv) as Hunder.
  pose proof waveHeight_monotone as Hmono.
  unfold stepParticle, hideStreaks, behaviorScale, activeLerp, behaviorTarget.
  cbv [orb andb instScale position].
  destruct (Rlt_dec (vy (treePosition p)) (currentWaveHeight (tb - start)))
    as [_ | Hn]; [| lra].
  rewrite distanceTo_lerp by lra.
  pose proof (distanceTo_nonneg cb (treePosition p)) as Hnn.
  destruct (Rlt_dec 3.0 _) as [Hfar | _]; [lra |].
  pose proof (SIN_bound (tb * 3 + (vy (treePosition p) + 12.5) / 25 * 10))
    as [Hlo Hhi].
  unfold visible. nra.
Qed.

Lemma star_keeps_visible :
  0.05 <= scale p ->
  0 <= lfb <= 1 ->
  Vec.distanceTo cb (treePosition p)
  <= Vec.distanceTo
       (position (stepParticle false true false true ta lfa
                               (currentWaveHeight (ta - start)) p ca))
       (treePosition p) ->
  visible (instScale (stepParticle false true false true ta lfa
                                   (currentWaveHeight (ta - start)) p ca)) ->
  visible (instScale (stepParticle false true false true tb lfb
                                   (currentWaveHeight (tb - start)) p cb)).
Proof.
  intros Hs Hlf Hdist Hv.
  pose proof (visible_within_streak_range false true false ta lfa
                (currentWaveHeight (ta - start)) ca eq_refl Hv) as Hnear.
  pose proof (star_visible_after_top ta p ca lfa _ Hv) as Htop.
  pose proof waveHeight_monotone as Hmono.
  revert Hv.
  unfold stepParticle, hideStreaks, behaviorScale, activeLerp, behaviorTarget.
  cbv [orb andb instScale position].
  destruct (Rlt_dec 3.0 (Vec.distanceTo (Vec.lerp ca _ lfa) _)) as [Hfa | _];
    [unfold visible; lra |].
  destruct (Rlt_dec 14.0 (currentWaveHeight (ta - start))) as [_ | Hn];
    [| lra].
  destruct (Rlt_dec 14.0 (currentWaveHeight (tb - start))) as [_ | Hn];
    [| lra].
  rewrite (distanceTo_lerp cb) by lra.
  pose proof (distanceTo_nonneg cb (treePosition p)) as Hnn.
  assert (Hshrink : (1 - lfb) * Vec.distanceTo cb (treePosition p)
                    <= Vec.distanceTo cb (treePosition p)) by nra.
  destruct (Rlt_dec 3.0 _) as [Hfar | _]; [lra |].
  pose proof (SIN_bound (ta * 5 + INR (id p))) as [Salo Sahi].
  pose proof (SIN_bound (tb * 5 + INR (id p))) as [Sblo Sbhi].
  pose proof (sin_lipschitz (ta * 5 + INR (id p)) (5 * (tb - ta))
                            ltac:(lra)) as [Lip _].
  replace (ta * 5 + INR (id p) + 5 * (tb - ta)) with (tb * 5 + INR (id p))
    in Lip by ring.
  set (sa := sin (ta * 5 + INR (id p))) in *.
  set (sb := sin (tb * 5 + INR (id p))) in *.
  unfold currentWaveHeight, waveStartOffset, waveSpeed in *.
  set (qa := (-15 + (ta - start) * 20 - 14.0) / 5).
  set (qb := (-15 + (tb - start) * 20 - 14.0) / 5).
  assert (Hqa : 0 < qa) by (unfold qa; lra).
  assert (Hqb : qb = qa + 4 * (tb - ta)) by (unfold qa, qb; lra).
  unfold visible. intros Hv.
  unfold Rmin in *.
  destruct (Rle_dec 1 qb) as [Hfull | Hpart].
  - nra.
  - destruct (Rle_dec 1 qa) as [Hfa | Hpa]; [lra |].
    assert (Hprod : scale p * qa * (1 + 0.3 * sa)
                    <= scale p * qb * (1 + 0.3 * sb)).
    { assert (qa * (1 + 0.3 * sa) <= qb * (1 + 0.3 * sb)).
      { rewrite Hqb.
        assert (0 <= qa * (0.3 * sb - 0.3 * sa + 1.5 * (tb - ta))) by nra.
        assert (0 <= (tb - ta) * (1 + 0.3 * sb - 0.7)) by nra.
        assert (0 <= (tb - ta) * (1 - qa)) by nra.
        nra. }
      nra. }
    lra.
Qed.

End KeepVisible.

(** ** Runs of frames *)

Section Runs.

Import ParticleSystem.

Variable data : list ParticleData.
Variable animationSpeed : R.

Lemma runFrames_cons (tk : Tick) (rest : list Tick) (refs : Refs) :
  runFrames data animationSpeed (tk :: rest) refs
  = let first := useFrame data (tickState tk) animationSpeed (tickTime tk)
                          (tickDelta tk) refs in
    (fst (runFrames data animationSpeed rest (fst first)),
     snd first :: snd (runFrames data animationSpeed rest (fst first))).
Proof.
  cbn [runFrames].
  destruct (useFrame data (tickState tk) animationSpeed (tickTime tk)
                     (tickDelta tk) refs) as [refs' written].
  cbv zeta. cbn [fst snd].
  destruct (runFrames data animationSpeed rest refs'). reflexivity.
Qed.

Lemma instanceAt_first (tk : Tick) (rest : list Tick) (refs : Refs) (i : nat) :
  instanceAt (snd (runFrames data animationSpeed (tk :: rest) refs)) 0 i
  = nth_error (snd (useFrame data (tickState tk) animationSpeed (tickTime tk)
                             (tickDelta tk) refs)) i.
Proof. rewrite runFrames_cons. reflexivity. Qed.

Lemma instanceAt_later (tk : Tick) (rest : list Tick) (refs : Refs)
      (k i : nat) :
  instanceAt (snd (runFrames data animationSpeed (tk :: rest) refs)) (S k) i
  = instanceAt
      (snd (runFrames data animationSpeed rest
              (fst (useFrame data (tickState tk) animationSpeed (tickTime tk)
                             (tickDelta tk) refs))))
      k i.
Proof. rewrite runFrames_cons. reflexivity. Qed.

Lemma instanceAt_nil (refs : Refs) (k i : nat) :
  instanceAt (snd (runFrames data animationSpeed [] refs)) k i = None.
Proof. simpl. unfold instanceAt. now destruct k. Qed.

Lemma clockAdvances_tail (tk : Tick) (rest : list Tick) :
  clockAdvances (tk :: rest) -> clockAdvances rest.
Proof.
  intros H a b ta tb Hab Ha Hb.
  apply (H (S a) (S b) ta tb); [lia | exact Ha | exact Hb].
Qed.

(** The running position saved by a frame is the position it wrote. *)
Lemma useFrame_saved (appState : AppState) (time delta : R) (refs : Refs)
      (i : nat) (inst : Instance) :
  nth_error (snd (useFrame data appState animationSpeed time delta refs)) i
  = Some inst ->
  nth_error (currentPositions
               (fst (useFrame data appState animationSpeed time delta refs))) i
  = Some (position inst).
Proof.
  intros H. rewrite useFrame_positions, nth_error_map, H. reflexivity.
Qed.

Variables (i : nat) (p : ParticleData).
Hypothesis Hp : nth_error data i = Some p.

(** In assembled mode, a ribbon or star particle never ends a frame
    farther from its assembled position than it started. *)
Lemma reveal_step_not_farther (isOrnament : bool) (time lf wave : R)
      (c : Vector3) (isRibbon isStar : bool) :
  isRibbon || isStar = true ->
  0 <= lf <= 1 ->
  Vec.distanceTo (position (stepParticle isRibbon isStar isOrnament true
                                         time lf wave p c))
                 (treePosition p)
  <= Vec.distanceTo c (treePosition p).
Proof.
  intros Hrs Hlf. unfold stepParticle, activeLerp, behaviorTarget.
  cbv [position].
  replace (if isRibbon then treePosition p
           else if isStar then treePosition p
                else mkVector3 _ _ _)
    with (treePosition p)
    by (destruct isRibbon, isStar; try reflexivity; discriminate).
  apply distanceTo_lerp_le.
  destruct isRibbon; simpl; [destruct (Rlt_dec _ _); lra | assumption].
Qed.

(** A run that stays in assembled mode, entered with [lastState = TREE]:
    frame [k] works with the start time of the refs it was entered with
    and with a running position no farther from the assembled position. *)
Lemma assembled_run_frame (ticks : list Tick) :
  systemType data = RIBBON \/ systemType data = STAR_PARTICLE ->
  heldIn TREE ticks ->
  forall (refs : Refs) (c : Vector3) (k : nat) (inst : Instance),
    lastState refs = TREE ->
    nth_error (currentPositions refs) i = Some c ->
    instanceAt (snd (runFrames data animationSpeed ticks refs)) k i
    = Some inst ->
    exists tk ck,
      nth_error ticks k = Some tk
      /\ Vec.distanceTo ck (treePosition p) <= Vec.distanceTo c (treePosition p)
      /\ inst = stepParticle
                  (ParticleType_eqb (systemType data) RIBBON)
                  (ParticleType_eqb (systemType data) STAR_PARTICLE)
                  (ParticleType_eqb (systemType data) ORNAMENT)
                  true (tickTime tk)
                  (JSMath.clamp (tickDelta tk * animationSpeed) 0 1)
                  (currentWaveHeight (tickTime tk - transitionStartTime refs))
                  p ck.
Proof.
  intros Hty Hheld.
  induction Hheld as [| tk rest Htk Hrest IH]; intros refs c k inst Hlast Hc Hk.
  - rewrite instanceAt_nil in Hk. discriminate.
  - assert (Hstart :
              transitionStartTime
                (fst (useFrame data (tickState tk) animationSpeed (tickTime tk)
                               (tickDelta tk) refs))
              = transitionStartTime refs).
    { rewrite useFrame_start, Htk, Hlast. reflexivity. }
    destruct k as [| k].
    + rewrite instanceAt_first in Hk.
      destruct (useFrame_written _ _ _ _ _ _ _ _ Hk)
        as (p' & c' & Hp' & Hc' & Hinst).
      rewrite Hp in Hp'. injection Hp' as <-.
      rewrite Hc in Hc'. injection Hc' as <-.
      exists tk, c. split; [reflexivity |]. split; [lra |].
      rewrite Hinst, Hstart, Htk. reflexivity.
    + rewrite instanceAt_later in Hk.
      destruct (useFrame_writes data animationSpeed (tickState tk) (tickTime tk)
                                (tickDelta tk) refs i p c Hp Hc)
        as [inst0 Hinst0].
      pose proof (useFrame_saved _ _ _ _ _ _ Hinst0) as Hsaved.
      destruct (IH _ _ _ _
                   (eq_trans
                      (useFrame_lastState data animationSpeed (tickState tk)
                                          (tickTime tk) (tickDelta tk) refs)
                      Htk)
                   Hsaved Hk)
        as (tkk & ck & Hnth & Hdist & Hinst).
      exists tkk, ck. split; [exact Hnth |]. split.
      * destruct (useFrame_written _ _ _ _ _ _ _ _ Hinst0)
          as (p' & c' & Hp' & Hc' & Hi0).
        rewrite Hp in Hp'. injection Hp' as <-.
        rewrite Hc in Hc'. injection Hc' as <-.
        eapply Rle_trans; [exact Hdist |].
        rewrite Hi0, Htk. change (AppState_eqb TREE TREE) with true.
        apply reveal_step_not_farther; [| apply clamp_unit].
        destruct Hty as [-> | ->]; reflexivity.
      * rewrite Hinst, Hstart. reflexivity.
Qed.

End Runs.

Section NoFlicker.

Import ParticleSystem Samples.

(** C2: for a fixed time of the mode change the wave height
    -15 + (t - modeChangedAt) * 20 is non-decreasing in t; and for a ribbon
    or star particle with a scale from its generator's interval, over frames
    that all stay in assembled mode with a clock that does not go back, once
    a frame writes a visible scale every later frame writes a visible scale
    too.  The arrays made by the generator meet the hypotheses on the
    category and the scale ([generated_reveal_systems]). *)
Theorem visible_stays_visible (data : list ParticleData) (animationSpeed : R)
        (ticks : list Tick) (refs : Refs)
        (i : nat) (p : ParticleData) (a b : nat) (ia ib : Instance)
        (Hty : systemType data = RIBBON \/ systemType data = STAR_PARTICLE)
        (Hp : nth_error data i = Some p)
        (Hscale : TreeLogic.scaleRange (systemType data) (scale p))
        (Hheld : heldIn TREE ticks)
        (Hclock : clockAdvances ticks)
        (Hab : (a <= b)%nat)
        (Ha : instanceAt (snd (runFrames data animationSpeed ticks refs)) a i
              = Some ia)
        (Hb : instanceAt (snd (runFrames data animationSpeed ticks refs)) b i
              = Some ib)
        (Hvis : visible (instScale ia)) :
  visible (instScale ib)
  /\ (forall modeChangedAt t1 t2,
        t1 <= t2 ->
        currentWaveHeight (t1 - modeChangedAt)
        <= currentWaveHeight (t2 - modeChangedAt))
  /\ (forall modeChangedAt t,
        currentWaveHeight (t - modeChangedAt) = -15 + (t - modeChangedAt) * 20).
Proof.
  split; [| split; intros; unfold currentWaveHeight, waveStartOffset, waveSpeed;
            lra].
  revert refs a b ia ib Hab Ha Hb Hvis.
  induction Hheld as [| tk rest Htk Hrest IH];
    intros refs a b ia ib Hab Ha Hb Hvis.
  - rewrite instanceAt_nil in Ha. discriminate.
  - destruct a as [| a].
    + destruct b as [| b]; [congruence |].
      rewrite instanceAt_first in Ha. rewrite instanceAt_later in Hb.
      pose proof (useFrame_saved _ _ _ _ _ _ _ _ Ha) as Hsaved.
      destruct (useFrame_written _ _ _ _ _ _ _ _ Ha)
        as (p' & c & Hp' & Hc & Hia).
      rewrite Hp in Hp'. injection Hp' as <-.
      destruct (assembled_run_frame data animationSpeed i p Hp rest Hty Hrest
                  _ _ _ _
                  (eq_trans
                     (useFrame_lastState data animationSpeed (tickState tk)
                                         (tickTime tk) (tickDelta tk) refs)
                     Htk)
                  Hsaved Hb)
        as (tkb & cb & Hnth & Hdist & Hib).
      assert (Htime : tickTime tk <= tickTime tkb).
      { apply (Hclock 0%nat (S b) tk tkb); [lia | reflexivity | exact Hnth]. }
      set (start := transitionStartTime
                      (fst (useFrame data (tickState tk) animationSpeed
                                     (tickTime tk) (tickDelta tk) refs))) in *.
      rewrite Htk in Hia. change (AppState_eqb TREE TREE) with true in Hia.
      destruct Hty as [Hty | Hty]; rewrite Hty in Hia, Hib, Hscale;
        cbn [ParticleType_eqb] in Hia, Hib; subst ia ib.
      * apply (ribbon_keeps_visible p (tickTime tk) (tickTime tkb)
                 (JSMath.clamp (tickDelta tk * animationSpeed) 0 1)
                 (JSMath.clamp (tickDelta tkb * animationSpeed) 0 1)
                 start c cb Htime);
          [exact (proj1 Hscale) | exact Hdist | exact Hvis].
      * apply (star_keeps_visible p (tickTime tk) (tickTime tkb)
                 (JSMath.clamp (tickDelta tk * animationSpeed) 0 1)
                 (JSMath.clamp (tickDelta tkb * animationSpeed) 0 1)
                 start c cb Htime);
          [exact (proj1 Hscale) | apply clamp_unit | exact Hdist | exact Hvis].
    + destruct b as [| b]; [lia |].
      rewrite instanceAt_later in Ha, Hb.
      eapply (IH (clockAdvances_tail _ _ Hclock));
        [| exact Ha | exact Hb | exact Hvis]; lia.
Qed.

Lemma ribbonMid_first_frame_visible :
  exists ia,
    instanceAt (snd (runFrames [ribbonMid] 2.5 assembledTicks
                               (initialRefs [ribbonMid] TREE))) 0 0
    = Some ia
    /\ visible (instScale ia).
Proof.
  eexists. split; [reflexivity |].
  unfold stepParticle, hideStreaks, behaviorScale, activeLerp, behaviorTarget.
  cbn [fst snd tickTime tickState tickDelta AppState_eqb ParticleType_eqb
       systemType type ribbonMid negb lastState transitionStartTime
       initialRefs orb andb instScale position treePosition vy scale].
  assert (Hw : vy (mkVector3 5.2 0 0) < currentWaveHeight (2 - 0))
    by (unfold currentWaveHeight, waveStartOffset, waveSpeed; simpl; lra).
  cbn [vy] in Hw.
  destruct (Rlt_dec 0 (currentWaveHeight (2 - 0))) as [_ | Hn]; [| lra].
  rewrite distanceTo_lerp by lra. rewrite distanceTo_self.
  destruct (Rlt_dec 3.0 _) as [Hfar | _]; [lra |].
  pose proof (SIN_bound (2 * 3 + (0 + 12.5) / 25 * 10)) as [Hlo Hhi].
  unfold visible. lra.
Qed.

Lemma visible_stays_visible_witness :
  exists ia ib,
    instanceAt (snd (runFrames [ribbonMid] 2.5 assembledTicks
                               (initialRefs [ribbonMid] TREE))) 0 0
    = Some ia
    /\ instanceAt (snd (runFrames [ribbonMid] 2.5 assembledTicks
                                  (initialRefs [ribbonMid] TREE))) 2 0
       = Some ib
    /\ visible (instScale ia)
    /\ visible (instScale ib).
Proof.
  destruct ribbonMid_first_frame_visible as (ia & Ha & Hvis).
  assert (Hheld : heldIn TREE assembledTicks)
    by (repeat constructor).
  assert (Hclock : clockAdvances assembledTicks).
  { intros a b ta tb Hab Hta Htb. unfold assembledTicks in Hta, Htb.
    destruct a as [| [| [| a]]]; destruct b as [| [| [| b]]];
      simpl in Hta, Htb;
      try rewrite nth_error_nil in Hta; try rewrite nth_error_nil in Htb;
      try discriminate; try lia;
      injection Hta as <-; injection Htb as <-; simpl; lra. }
  assert (Hscale : TreeLogic.scaleRange (systemType [ribbonMid])
                                        (scale ribbonMid))
    by (simpl; lra).
  eexists ia, _. split; [exact Ha |]. split; [reflexivity |].
  split; [exact Hvis |].
  exact (proj1 (visible_stays_visible [ribbonMid] 2.5 assembledTicks
                  (initialRefs [ribbonMid] TREE) 0 ribbonMid 0 2 ia _
                  (or_introl eq_refl) eq_refl Hscale Hheld Hclock
                  ltac:(lia) Ha eq_refl Hvis)).
Defined.

End NoFlicker.

(** ** Moving toward the dispersed position *)

Section Norms.

Lemma sumsq3_nonneg (a b c : R) : 0 <= a * a + b * b + c * c.
Proof.
  pose proof (Rle_0_sqr a). pose proof (Rle_0_sqr b). pose proof (Rle_0_sqr c).
  unfold Rsqr in *. lra.
Qed.

(** Cauchy-Schwarz and the triangle inequality for three components. *)
Lemma dot3_le (a1 a2 a3 b1 b2 b3 : R) :
  a1 * b1 + a2 * b2 + a3 * b3
  <= sqrt (a1 * a1 + a2 * a2 + a3 * a3) * sqrt (b1 * b1 + b2 * b2 + b3 * b3).
Proof.
  set (A := a1 * a1 + a2 * a2 + a3 * a3).
  set (B := b1 * b1 + b2 * b2 + b3 * b3).
  assert (HA : 0 <= A) by apply sumsq3_nonneg.
  assert (HB : 0 <= B) by apply sumsq3_nonneg.
  pose proof (sqrt_pos A) as HsA. pose proof (sqrt_pos B) as HsB.
  pose proof (sqrt_sqrt A HA) as HAA. pose proof (sqrt_sqrt B HB) as HBB.
  set (dot := a1 * b1 + a2 * b2 + a3 * b3).
  assert (Hcs : dot * dot <= A * B).
  { unfold dot, A, B.
    pose proof (Rle_0_sqr (a1 * b2 - a2 * b1)).
    pose proof (Rle_0_sqr (a1 * b3 - a3 * b1)).
    pose proof (Rle_0_sqr (a2 * b3 - a3 * b2)).
    unfold Rsqr in *. nra. }
  destruct (Rle_dec dot 0) as [Hneg | Hpos]; [nra |].
  set (sA := sqrt A) in *. set (sB := sqrt B) in *.
  assert (Hsq : dot * dot <= (sA * sB) * (sA * sB)) by nra.
  assert (0 <= sA * sB) by nra.
  nra.
Qed.

Lemma norm3_triangle (a1 a2 a3 b1 b2 b3 : R) :
  sqrt ((a1 + b1) * (a1 + b1) + (a2 + b2) * (a2 + b2) + (a3 + b3) * (a3 + b3))
  <= sqrt (a1 * a1 + a2 * a2 + a3 * a3) + sqrt (b1 * b1 + b2 * b2 + b3 * b3).
Proof.
  pose proof (dot3_le a1 a2 a3 b1 b2 b3) as Hdot.
  set (A := a1 * a1 + a2 * a2 + a3 * a3) in *.
  set (B := b1 * b1 + b2 * b2 + b3 * b3) in *.
  assert (HA : 0 <= A) by apply sumsq3_nonneg.
  assert (HB : 0 <= B) by apply sumsq3_nonneg.
  pose proof (sqrt_pos A) as HsA. pose proof (sqrt_pos B) as HsB.
  pose proof (sqrt_sqrt A HA) as HAA. pose proof (sqrt_sqrt B HB) as HBB.
  rewrite <- (sqrt_square (sqrt A + sqrt B)) by lra.
  apply sqrt_le_1_alt.
  unfold A, B in *. nra.
Qed.

Lemma distanceTo_zero (a b : Vector3) : Vec.distanceTo a b = 0 -> a = b.
Proof.
  intros H. apply sqrt_eq_0 in H; [| apply distanceToSquared_nonneg].
  unfold Vec.distanceToSquared in H.
  destruct a as [a1 a2 a3], b as [b1 b2 b3]. simpl in H.
  pose proof (Rle_0_sqr (a1 - b1)) as S1.
  pose proof (Rle_0_sqr (a2 - b2)) as S2.
  pose proof (Rle_0_sqr (a3 - b3)) as S3.
  unfold Rsqr in *.
  assert (Z1 : (a1 - b1) * (a1 - b1) = 0) by lra.
  assert (Z2 : (a2 - b2) * (a2 - b2) = 0) by lra.
  assert (Z3 : (a3 - b3) * (a3 - b3) = 0) by lra.
  apply Rsqr_0_uniq in Z1. apply Rsqr_0_uniq in Z2. apply Rsqr_0_uniq in Z3.
  f_equal; lra.
Qed.

(** Interpolating toward a displaced point [e + d]: the distance to [e]
    is at most the convex combination of the old distance and the length of
    the displacement. *)
Lemma distanceTo_lerp_displaced (c e d : Vector3) (alpha : R) :
  0 <= alpha <= 1 ->
  Vec.distanceTo (Vec.lerp c (Vec.add e d) alpha) e
  <= (1 - alpha) * Vec.distanceTo c e + alpha * Vec.length d.
Proof.
  intros Ha. unfold Vec.distanceTo, Vec.length.
  destruct c as [c1 c2 c3], e as [e1 e2 e3], d as [d1 d2 d3].
  unfold Vec.distanceToSquared, Vec.lengthSq, Vec.lerp, Vec.add. simpl.
  set (u1 := (1 - alpha) * (c1 - e1)). set (u2 := (1 - alpha) * (c2 - e2)).
  set (u3 := (1 - alpha) * (c3 - e3)).
  set (w1 := alpha * d1). set (w2 := alpha * d2). set (w3 := alpha * d3).
  replace (c1 + (e1 + d1 - c1) * alpha - e1) with (u1 + w1)
    by (unfold u1, w1; ring).
  replace (c2 + (e2 + d2 - c2) * alpha - e2) with (u2 + w2)
    by (unfold u2, w2; ring).
  replace (c3 + (e3 + d3 - c3) * alpha - e3) with (u3 + w3)
    by (unfold u3, w3; ring).
  eapply Rle_trans; [apply norm3_triangle |].
  apply Req_le. f_equal.
  - replace (u1 * u1 + u2 * u2 + u3 * u3)
      with ((1 - alpha) * (1 - alpha)
            * ((c1 - e1) * (c1 - e1) + (c2 - e2) * (c2 - e2)
               + (c3 - e3) * (c3 - e3)))
      by (unfold u1, u2, u3; ring).
    rewrite sqrt_mult by (try apply sumsq3_nonneg; nra).
    rewrite sqrt_square by lra. reflexivity.
  - replace (w1 * w1 + w2 * w2 + w3 * w3)
      with (alpha * alpha * (d1 * d1 + d2 * d2 + d3 * d3))
      by (unfold w1, w2, w3; ring).
    rewrite sqrt_mult by (try apply sumsq3_nonneg; nra).
    rewrite sqrt_square by lra. reflexivity.
Qed.

End Norms.

Section Dispersal.

Import ParticleSystem.

Lemma behaviorTarget_dispersed_drift (isOrnament : bool) (time : R)
      (p : ParticleData) :
  behaviorTarget false false false time p
  = Vec.add (explodePosition p) (chaoticDrift time p).
Proof. reflexivity. Qed.

Lemma chaoticDrift_length (time : R) (p : ParticleData) :
  0.08 <= Vec.length (chaoticDrift time p) < 0.1.
Proof.
  unfold Vec.length, Vec.lengthSq, chaoticDrift. simpl.
  pose proof (sin2_cos2 (time * 0.3 + INR (id p))) as Hsc.
  pose proof (SIN_bound (time * 0.2 + INR (id p))) as [Hlo Hhi].
  unfold Rsqr in Hsc.
  set (cx := cos (time * 0.3 + INR (id p))) in *.
  set (sz := sin (time * 0.3 + INR (id p))) in *.
  set (sy := sin (time * 0.2 + INR (id p))) in *.
  assert (Hsy : 0 <= sy * sy <= 1) by nra.
  split.
  - apply Rle_trans with (sqrt (0.08 * 0.08));
      [rewrite sqrt_square; lra | apply sqrt_le_1_alt; nra].
  - apply Rlt_le_trans with (sqrt (0.1 * 0.1));
      [apply sqrt_lt_1_alt; split; nra | rewrite sqrt_square; lra].
Qed.

(** One frame in dispersed mode brings the running position strictly
    inside the ball of radius [d0] around the dispersed position, from
    anywhere in the closed ball; for leaves and ornaments the ball has to
    be at least as large as the drift. *)
Lemma dispersed_step_closer (isRibbon isStar isOrnament : bool)
      (time lf wave d0 : R) (p : ParticleData) (c : Vector3) :
  0 < lf <= 1 ->
  0 < d0 ->
  (isRibbon || isStar = false -> 0.1 <= d0) ->
  Vec.distanceTo c (explodePosition p) <= d0 ->
  Vec.distanceTo
    (position (stepParticle isRibbon isStar isOrnament false time lf wave p c))
    (explodePosition p) < d0.
Proof.
  intros Hlf Hd0 Hroom Hc.
  pose proof (distanceTo_nonneg c (explodePosition p)) as Hnn.
  unfold stepParticle. cbv [position]. unfold activeLerp.
  rewrite andb_false_r.
  destruct (isRibbon || isStar) eqn:Hrs.
  - replace (behaviorTarget isRibbon isStar false time p)
      with (explodePosition p)
      by (destruct isRibbon, isStar; try reflexivity; discriminate).
    rewrite distanceTo_lerp by lra. nra.
  - apply orb_false_elim in Hrs. destruct Hrs as [-> ->].
    rewrite (behaviorTarget_dispersed_drift isOrnament).
    eapply Rle_lt_trans; [apply distanceTo_lerp_displaced; lra |].
    pose proof (chaoticDrift_length time p) as [_ Hdrift].
    specialize (Hroom eq_refl).
    set (dc := Vec.distanceTo c (explodePosition p)) in *.
    set (dl := Vec.length (chaoticDrift time p)) in *.
    nra.
Qed.

Lemma ribbon_dispersed_scale (isStar isOrnament : bool) (time lf wave : R)
      (p : ParticleData) (c : Vector3) :
  instScale (stepParticle true isStar isOrnament false time lf wave p c) = 0.
Proof. reflexivity. Qed.

Variable data : list ParticleData.
Variables (animationSpeed dt d0 : R).
Variables (i : nat) (p : ParticleData).
Hypothesis Hp : nth_error data i = Some p.
Hypothesis Hspeed : 0 < animationSpeed.
Hypothesis Hdt : 0 < dt.
Hypothesis Hd0 : 0 < d0.
Hypothesis Hroom :
  systemType data = LEAF \/ systemType data = ORNAMENT -> 0.1 <= d0.

Lemma dispersed_frame (tk : Tick) (refs : Refs) (c : Vector3) (inst : Instance) :
  tickState tk = EXPLODE -> tickDelta tk = dt ->
  nth_error (currentPositions refs) i = Some c ->
  Vec.distanceTo c (explodePosition p) <= d0 ->
  nth_error (snd (useFrame data (tickState tk) animationSpeed (tickTime tk)
                           (tickDelta tk) refs)) i = Some inst ->
  Vec.distanceTo (position inst) (explodePosition p) < d0
  /\ (systemType data = RIBBON -> instScale inst = 0).
Proof.
  intros Hst Hdelta Hc Hdist Hinst.
  destruct (useFrame_written _ _ _ _ _ _ _ _ Hinst)
    as (p' & c' & Hp' & Hc' & ->).
  rewrite Hp in Hp'. injection Hp' as <-.
  rewrite Hc in Hc'. injection Hc' as <-.
  rewrite Hst, Hdelta. change (AppState_eqb EXPLODE TREE) with false.
  split.
  - apply dispersed_step_closer; try assumption.
    + split; [apply clamp_unit_pos; nra | apply clamp_unit].
    + intros Hrs. apply Hroom.
      destruct (systemType data); simpl in Hrs;
        try discriminate; [now left | now right].
  - intros ->. reflexivity.
Qed.

(** A run in dispersed mode, entered with the running position in the
    closed ball: every frame writes a position strictly inside the ball,
    and so is the running position left behind by a non-empty run. *)
Lemma dispersed_run (ticks : list Tick) :
  dispersedAtFixedDelta dt ticks ->
  forall (refs : Refs) (c : Vector3),
    nth_error (currentPositions refs) i = Some c ->
    Vec.distanceTo c (explodePosition p) <= d0 ->
    (forall k inst,
        instanceAt (snd (runFrames data animationSpeed ticks refs)) k i
        = Some inst ->
        Vec.distanceTo (position inst) (explodePosition p) < d0
        /\ (systemType data = RIBBON -> instScale inst = 0))
    /\ (ticks <> [] ->
        exists c',
          nth_error (currentPositions
                       (fst (runFrames data animationSpeed ticks refs))) i
          = Some c'
          /\ Vec.distanceTo c' (explodePosition p) < d0).
Proof.
  intros Hticks.
  induction Hticks as [| tk rest [Hst Hdelta] Hrest IH]; intros refs c Hc Hdist.
  - split; [| congruence].
    intros k inst Hk. rewrite instanceAt_nil in Hk. discriminate.
  - destruct (useFrame_writes data animationSpeed (tickState tk) (tickTime tk)
                              (tickDelta tk) refs i p c Hp Hc)
      as [inst0 Hinst0].
    pose proof (dispersed_frame tk refs c inst0 Hst Hdelta Hc Hdist Hinst0)
      as [Hclose0 Hscale0].
    pose proof (useFrame_saved _ _ _ _ _ _ _ _ Hinst0) as Hsaved.
    destruct (IH _ _ Hsaved (Rlt_le _ _ Hclose0)) as [IHframes IHlast].
    split.
    + intros k inst Hk. destruct k as [| k].
      * rewrite instanceAt_first in Hk. rewrite Hinst0 in Hk.
        injection Hk as <-. now split.
      * rewrite instanceAt_later in Hk. exact (IHframes _ _ Hk).
    + intros _. rewrite runFrames_cons. cbv zeta. cbn [fst].
      destruct rest as [| tk' rest'].
      * exists (position inst0). split; [exact Hsaved | exact Hclose0].
      * apply IHlast. discriminate.
Qed.

End Dispersal.

Section ModeFlip.

Import ParticleSystem Samples.

(** C9 (amended): start in assembled mode with the running position of a
    particle at its assembled position, distinct from its dispersed
    position, and render any positive number of frames in dispersed mode
    with a fixed positive delta.  For a ribbon or star particle the running
    position ends, and every frame writes a position, strictly closer to the
    dispersed position than the initial distance; for a leaf or an ornament,
    whose target is the dispersed position plus the chaotic drift, the same
    holds when the initial distance is at least 0.1.  The scale written for
    a ribbon particle is exactly 0 on every frame. *)
Theorem dispersal_moves_closer (data : list ParticleData)
        (animationSpeed dt : R) (ticks : list Tick)
        (i : nat) (p : ParticleData)
        (Hp : nth_error data i = Some p)
        (Hspeed : 0 < animationSpeed)
        (Hdt : 0 < dt)
        (Hticks : dispersedAtFixedDelta dt ticks)
        (Hframes : ticks <> [])
        (Hdistinct : treePosition p <> explodePosition p)
        (Hroom : systemType data = LEAF \/ systemType data = ORNAMENT ->
                 0.1 <= Vec.distanceTo (treePosition p) (explodePosition p)) :
  let d0 := Vec.distanceTo (treePosition p) (explodePosition p) in
  let run := runFrames data animationSpeed ticks (initialRefs data TREE) in
  (exists c',
      nth_error (currentPositions (fst run)) i = Some c'
      /\ Vec.distanceTo c' (explodePosition p) < d0)
  /\ (forall k inst,
        instanceAt (snd run) k i = Some inst ->
        Vec.distanceTo (position inst) (explodePosition p) < d0
        /\ (systemType data = RIBBON -> instScale inst = 0)).
Proof.
  intros d0 run.
  assert (Hd0 : 0 < d0).
  { destruct (distanceTo_nonneg (treePosition p) (explodePosition p))
      as [Hpos | Hzero]; [exact Hpos |].
    exfalso. apply Hdistinct. apply distanceTo_zero. now symmetry. }
  assert (Hc : nth_error (currentPositions (initialRefs data TREE)) i
               = Some (treePosition p)).
  { unfold initialRefs. simpl. rewrite nth_error_map, Hp. reflexivity. }
  destruct (dispersed_run data animationSpeed dt d0 i p Hp Hspeed Hdt Hd0
                          Hroom ticks Hticks (initialRefs data TREE)
                          (treePosition p) Hc (Rle_refl _))
    as [Hall Hlast].
  split; [exact (Hlast Hframes) | exact Hall].
Qed.

Lemma dispersal_moves_closer_witness :
  exists c',
    nth_error (currentPositions
                 (fst (runFrames [ribbonMid] 2.5 dispersedTicks
                                 (initialRefs [ribbonMid] TREE)))) 0
    = Some c'
    /\ Vec.distanceTo c' (explodePosition ribbonMid)
       < Vec.distanceTo (treePosition ribbonMid) (explodePosition ribbonMid).
Proof.
  assert (Hticks : dispersedAtFixedDelta (1 / 60) dispersedTicks)
    by (repeat constructor).
  assert (Hframes : dispersedTicks <> []) by discriminate.
  assert (Hdistinct : treePosition ribbonMid <> explodePosition ribbonMid).
  { intros Heq. apply (f_equal vx) in Heq. simpl in Heq. lra. }
  assert (Hroom : systemType [ribbonMid] = LEAF
                  \/ systemType [ribbonMid] = ORNAMENT ->
                  0.1 <= Vec.distanceTo (treePosition ribbonMid)
                                        (explodePosition ribbonMid)).
  { intros [H | H]; discriminate. }
  exact (proj1 (dispersal_moves_closer [ribbonMid] 2.5 (1 / 60) dispersedTicks
                  0 ribbonMid eq_refl ltac:(lra) ltac:(lra) Hticks Hframes
                  Hdistinct Hroom)).
Defined.

(** C9, counterexample: a leaf whose dispersed position is 0.01 away from
    its assembled position is, after one frame in dispersed mode with
    delta 0.4, at least 0.08 away from its dispersed position. *)
Lemma leaf_drifts_away :
  let run := runFrames [leafNear] 2.5 slowDispersedTick
                       (initialRefs [leafNear] TREE) in
  let d0 := Vec.distanceTo (treePosition leafNear) (explodePosition leafNear) in
  treePosition leafNear <> explodePosition leafNear
  /\ dispersedAtFixedDelta 0.4 slowDispersedTick
  /\ d0 = 0.01
  /\ exists c',
      nth_error (currentPositions (fst run)) 0 = Some c'
      /\ instanceAt (snd run) 0 0 = Some (mkInstance c' (scale leafNear))
      /\ 0.08 <= Vec.distanceTo c' (explodePosition leafNear)
      /\ ~ Vec.distanceTo c' (explodePosition leafNear) < d0.
Proof.
  cbv zeta.
  assert (Hd0 : Vec.distanceTo (treePosition leafNear) (explodePosition leafNear)
                = 0.01).
  { unfold Vec.distanceTo, Vec.distanceToSquared. simpl.
    replace ((0 - 0.01) * (0 - 0.01) + (0 - 0) * (0 - 0) + (0 - 0) * (0 - 0))
      with (0.01 * 0.01) by ring.
    apply sqrt_square. lra. }
  split; [intros Heq; apply (f_equal vx) in Heq; simpl in Heq; lra |].
  split; [repeat constructor |].
  split; [exact Hd0 |].
  rewrite Hd0.
  assert (Hlf : JSMath.clamp (0.4 * 2.5) 0 1 = 1).
  { unfold JSMath.clamp, Rmax, Rmin.
    destruct (Rle_dec 1 (0.4 * 2.5)); destruct (Rle_dec 0 _); lra. }
  eexists. split; [reflexivity |]. split; [reflexivity |].
  unfold stepParticle. cbv [position].
  cbn [fst snd tickTime tickState tickDelta AppState_eqb ParticleType_eqb
       systemType type leafNear negb lastState transitionStartTime
       initialRefs].
  unfold activeLerp. cbn [andb]. rewrite Hlf.
  rewrite (behaviorTarget_dispersed_drift false).
  assert (Hpos : Vec.lerp (mkVector3 0 0 0)
                          (Vec.add (mkVector3 0.01 0 0) (chaoticDrift 1 leafNear))
                          1
                 = Vec.add (mkVector3 0.01 0 0) (chaoticDrift 1 leafNear)).
  { unfold Vec.lerp, Vec.add. simpl. f_equal; ring. }
  cbn [treePosition explodePosition leafNear].
  rewrite Hpos.
  assert (Hdist : Vec.distanceTo
                    (Vec.add (mkVector3 0.01 0 0) (chaoticDrift 1 leafNear))
                    (mkVector3 0.01 0 0)
                  = Vec.length (chaoticDrift 1 leafNear)).
  { unfold Vec.distanceTo, Vec.length, Vec.distanceToSquared, Vec.lengthSq,
      Vec.add. simpl. f_equal. ring. }
  rewrite Hdist.
  pose proof (chaoticDrift_length 1 leafNear) as [Hlo _].
  split; lra.
Qed.

End ModeFlip.

(** ** Worked values *)

Section WorkedValues.

Import Carousel.

Example easeInOutCubic_quarter : easeInOutCubic 0.25 = 0.0625.
Proof. rewrite easeInOutCubic_lo by lra. unfold easeIn_arm. lra. Qed.

Example easeInOutCubic_three_quarters : easeInOutCubic 0.75 = 0.9375.
Proof. rewrite easeInOutCubic_hi by lra. unfold easeOut_arm. simpl. lra. Qed.

Example currentWaveHeight_one_second : ParticleSystem.currentWaveHeight 1 = 5.
Proof.
  unfold ParticleSystem.currentWaveHeight, ParticleSystem.waveStartOffset,
    ParticleSystem.waveSpeed. lra.
Qed.

(** Half-way through the MOVE part of the first cycle. *)
Example scrollIndex_mid_move : scrollIndex 1.4 = 0.5.
Proof.
  assert (Hc : CYCLE_DURATION = 1.8)
    by (unfold CYCLE_DURATION, HOLD_DURATION, MOVE_DURATION; lra).
  destruct (cyclePhase_of_offset 0 1.4) as [Hidx Hph]; [rewrite Hc; lra |].
  simpl in Hidx, Hph.
  replace (0 * CYCLE_DURATION + 1.4) with 1.4 in Hidx, Hph by lra.
  unfold scrollIndex. rewrite Hph, Hidx.
  unfold HOLD_DURATION, MOVE_DURATION.
  destruct (Rlt_dec 1.0 1.4); [| lra].
  replace ((1.4 - 1.0) / 0.8) with 0.5 by lra.
  rewrite easeInOutCubic_hi by lra. unfold easeOut_arm. simpl. lra.
Qed.

(** A negative remainder that needs no correction, and one that does. *)
Example rem_negative : JSMath.rem (-3) 10 = -3 /\ JSMath.rem (-7) 10 = -7.
Proof.
  unfold JSMath.rem, JSMath.trunc.
  destruct (Rle_dec 0 (-3 / 10)); [lra |].
  destruct (Rle_dec 0 (-7 / 10)); [lra |].
  rewrite (Zceil_eq 0 (-3 / 10)) by lra.
  rewrite (Zceil_eq 0 (-7 / 10)) by lra.
  split; lra.
Qed.

Example wrapX_negative_remainder : wrapX 0 3 10 = -3 /\ wrapX 0 7 10 = 3.
Proof.
  destruct rem_negative as [H3 H7].
  unfold wrapX.
  replace (0 - 3) with (-3) by lra. replace (0 - 7) with (-7) by lra.
  rewrite H3, H7.
  destruct (Rlt_dec (-3) (- (10) / 2)); [lra |].
  destruct (Rlt_dec (10 / 2) (-3)); [lra |].
  destruct (Rlt_dec (-7) (- (10) / 2)); [| lra].
  destruct (Rlt_dec (10 / 2) (-7 + 10)); [lra |].
  split; lra.
Qed.

(** With nothing placed yet the first candidate is accepted: the first
    photo is always placed by the random search. *)
Example layout_single_photo (faceOutward : Vector3 -> Euler) (url : string)
        (s : nat -> R) (n : nat) :
  exists e,
    fst (PhotoGallery.layoutTrace faceOutward [url] s n) = [(e, true)]
    /\ PhotoGallery.treePos e = fst (PhotoGallery.drawCandidate s n).
Proof.
  unfold PhotoGallery.layoutTrace, forLoop. cbn [List.length forLoopFrom].
  unfold bind at 1.
  destruct (placePhoto_appends faceOutward s 1 0 [] n)
    as (e & valid & Happ & Hnew).
  assert (Hfirst : fst (PhotoGallery.attemptLoop PhotoGallery.maxAttempts
                          (map fst (@nil (PhotoGallery.LayoutEntry * bool)))
                          s n)
                   = Some (fst (PhotoGallery.drawCandidate s n))).
  { unfold PhotoGallery.maxAttempts. cbn [PhotoGallery.attemptLoop map].
    unfold bind at 1.
    destruct (PhotoGallery.drawCandidate s n) as [cand n']. reflexivity. }
  rewrite Hfirst in Hnew. destruct Hnew as [-> Hpos].
  destruct (PhotoGallery.placePhoto faceOutward 1 0 [] s n) as [tr n'].
  simpl in Happ. subst tr. exists e. split; [reflexivity | exact Hpos].
Qed.

End WorkedValues.

(** * Further properties of the animator *)

Section AnimatorBuffers.

Import ParticleSystem.




End AnimatorBuffers.

Section AnimatorScale.

Import ParticleSystem Samples.

Lemma stepParticle_scale_bounds (isRibbon isStar isOrnament targetIsTree : bool)
      (time lf wave : R) (p : ParticleData) (c : Vector3) :
  0 <= scale p ->
  0 <= instScale (stepParticle isRibbon isStar isOrnament targetIsTree
                               time lf wave p c)
    <= Rmax 0.01 (1.3 * scale p).
Proof.
  intros Hs.
  pose proof (Rmax_l 0.01 (1.3 * scale p)) as Hm1.
  pose proof (Rmax_r 0.01 (1.3 * scale p)) as Hm2.
  set (m := Rmax 0.01 (1.3 * scale p)) in *.
  unfold stepParticle, hideStreaks, behaviorScale. cbv [instScale].
  pose proof (SIN_bound (time * 3 + (vy (treePosition p) + 12.5) / 25 * 10))
    as [Ha1 Ha2].
  pose proof (SIN_bound (time * 5 + INR (id p))) as [Hb1 Hb2].
  set (sa := sin (time * 3 + (vy (treePosition p) + 12.5) / 25 * 10)) in *.
  set (sb := sin (time * 5 + INR (id p))) in *.
  assert (Hpop : 14.0 < wave ->
                 0 <= scale p * Rmin 1 ((wave - 14.0) / 5) * (1 + 0.3 * sb)
                   <= 1.3 * scale p).
  { intros Hw. unfold Rmin.
    destruct (Rle_dec 1 ((wave - 14.0) / 5)) as [Hfull | Hpart].
    - split; nra.
    - assert (0 < (wave - 14.0) / 5 < 1) by lra.
      set (q := (wave - 14.0) / 5) in *.
      assert (0 <= scale p * q <= scale p) by nra.
      split; nra. }
  destruct isRibbon, isStar, isOrnament, targetIsTree; cbn [orb];
    repeat match goal with
           | |- context [Rlt_dec ?a ?b] => destruct (Rlt_dec a b)
           end;
    try (specialize (Hpop ltac:(assumption)));
    split; try lra; try nra.
Qed.

(** X2: The scale written for a particle of non-negative base scale is never
    negative and never above 1.3 times the base scale (or the hiding
    constant 0.01, when that is larger), in every category and mode. *)
Theorem written_scale_bounds (data : list ParticleData) (appState : AppState)
        (animationSpeed time delta : R) (refs : Refs)
        (i : nat) (p : ParticleData) (inst : Instance)
        (Hp : nth_error data i = Some p)
        (Hinst : nth_error
                   (snd (useFrame data appState animationSpeed time delta refs))
                   i = Some inst)
        (Hs : 0 <= scale p) :
  0 <= instScale inst <= Rmax 0.01 (1.3 * scale p).
Proof.
  destruct (useFrame_written _ _ _ _ _ _ _ _ Hinst)
    as (p' & c & Hp' & _ & ->).
  rewrite Hp in Hp'. injection Hp' as <-.
  now apply stepParticle_scale_bounds.
Qed.

Lemma written_scale_bounds_witness :
  exists inst,
    nth_error (snd (useFrame [ribbonMid] TREE 2.5 1 0.016
                             (initialRefs [ribbonMid] TREE))) 0 = Some inst
    /\ 0 <= instScale inst <= Rmax 0.01 (1.3 * scale ribbonMid).
Proof.
  eexists. split; [reflexivity |].
  apply (written_scale_bounds [ribbonMid] TREE 2.5 1 0.016
           (initialRefs [ribbonMid] TREE) 0 ribbonMid _ eq_refl eq_refl).
  simpl. lra.
Defined.

End AnimatorScale.

Section RunInvariants.

Import ParticleSystem.

Variable data : list ParticleData.
Variable animationSpeed : R.
Variables (i : nat) (p : ParticleData).
Hypothesis Hp : nth_error data i = Some p.

(** A property of the running position of particle [i] that every frame
    of a kind [P] carries from step [n] to step [n + 1] holds along every
    run made of such frames. *)
Lemma runFrames_frame_invariant (P : Tick -> Prop)
      (Inv : nat -> Vector3 -> Prop) (Good : Tick -> Instance -> Prop) :
  (forall n tk refs c inst,
      P tk ->
      nth_error (currentPositions refs) i = Some c ->
      Inv n c ->
      nth_error (snd (useFrame data (tickState tk) animationSpeed (tickTime tk)
                               (tickDelta tk) refs)) i = Some inst ->
      Inv (S n) (position inst) /\ Good tk inst) ->
  forall ticks,
    Forall P ticks ->
    forall n refs c k inst,
      nth_error (currentPositions refs) i = Some c ->
      Inv n c ->
      instanceAt (snd (runFrames data animationSpeed ticks refs)) k i
      = Some inst ->
      exists tk,
        nth_error ticks k = Some tk
        /\ Inv (n + S k)%nat (position inst)
        /\ Good tk inst.
Proof.
  intros Hstep ticks Hticks.
  induction Hticks as [| tk rest Htk Hrest IH]; intros n refs c k inst Hc Hinv Hk.
  - rewrite instanceAt_nil in Hk. discriminate.
  - destruct (useFrame_writes data animationSpeed (tickState tk) (tickTime tk)
                              (tickDelta tk) refs i p c Hp Hc)
      as [inst0 Hinst0].
    destruct (Hstep n tk refs c inst0 Htk Hc Hinv Hinst0) as [Hinv0 Hgood0].
    destruct k as [| k].
    + rewrite instanceAt_first, Hinst0 in Hk. injection Hk as <-.
      exists tk. rewrite Nat.add_1_r. now repeat split.
    + rewrite instanceAt_later in Hk.
      pose proof (useFrame_saved _ _ _ _ _ _ _ _ Hinst0) as Hsaved.
      destruct (IH (S n) _ _ _ _ Hsaved Hinv0 Hk) as (tkk & Hnth & Hinvk & Hgk).
      exists tkk. split; [exact Hnth |]. split; [| exact Hgk].
      replace (n + S (S k))%nat with (S n + S k)%nat by lia. exact Hinvk.
Qed.

End RunInvariants.

Section FoliageBob.

Import ParticleSystem Samples.

Lemma Rabs_le_inv (x a : R) : Rabs x <= a -> - a <= x <= a.
Proof.
  unfold Rabs. destruct (Rcase_abs x); intros H; split; lra.
Qed.

Lemma foliage_tree_step (isOrnament : bool) (time lf wave : R)
      (p : ParticleData) (c : Vector3) :
  0 <= lf <= 1 ->
  vx c = vx (treePosition p) ->
  vz c = vz (treePosition p) ->
  Rabs (vy c - vy (treePosition p)) <= 0.05 ->
  let inst := stepParticle false false isOrnament true time lf wave p c in
  vx (position inst) = vx (treePosition p)
  /\ vz (position inst) = vz (treePosition p)
  /\ Rabs (vy (position inst) - vy (treePosition p)) <= 0.05
  /\ instScale inst = scale p.
Proof.
  intros Hlf Hx Hz Hy. cbv zeta.
  unfold stepParticle, hideStreaks, behaviorScale, behaviorTarget, activeLerp,
    Vec.lerp.
  cbn [orb andb position instScale vx vy vz].
  rewrite Hx, Hz.
  pose proof (SIN_bound (time * 1.5 + INR (id p) * 0.1)) as [Hlo Hhi].
  set (sv := sin (time * 1.5 + INR (id p) * 0.1)) in *.
  apply Rabs_le_inv in Hy.
  repeat split; try ring.
  apply Rabs_le. split; nra.
Qed.

(** X3: In assembled mode a leaf or an ornament keeps its horizontal position,
    bobs at most 0.05 above or below its assembled height, and is written at
    its base scale, on every frame of a run that starts at mount. *)
Theorem foliage_stays_on_its_branch (data : list ParticleData)
        (animationSpeed : R) (ticks : list Tick) (mounted : AppState)
        (i : nat) (p : ParticleData) (k : nat) (inst : Instance)
        (Hty : systemType data = LEAF \/ systemType data = ORNAMENT)
        (Hp : nth_error data i = Some p)
        (Hheld : heldIn TREE ticks)
        (Hk : instanceAt (snd (runFrames data animationSpeed ticks
                                         (initialRefs data mounted))) k i
              = Some inst) :
  vx (position inst) = vx (treePosition p)
  /\ vz (position inst) = vz (treePosition p)
  /\ Rabs (vy (position inst) - vy (treePosition p)) <= 0.05
  /\ instScale inst = scale p.
Proof.
  set (Inv := fun (_ : nat) (c : Vector3) =>
                vx c = vx (treePosition p) /\ vz c = vz (treePosition p)
                /\ Rabs (vy c - vy (treePosition p)) <= 0.05).
  assert (Hstep : forall n tk refs c inst0,
             tickState tk = TREE ->
             nth_error (currentPositions refs) i = Some c ->
             Inv n c ->
             nth_error (snd (useFrame data (tickState tk) animationSpeed
                                      (tickTime tk) (tickDelta tk) refs)) i
             = Some inst0 ->
             Inv (S n) (position inst0) /\ instScale inst0 = scale p).
  { intros n tk refs c inst0 Htk Hc (Hx & Hz & Hy) Hinst0.
    destruct (useFrame_written _ _ _ _ _ _ _ _ Hinst0)
      as (p' & c' & Hp' & Hc' & ->).
    rewrite Hp in Hp'. injection Hp' as <-.
    rewrite Hc in Hc'. injection Hc' as <-.
    rewrite Htk. change (AppState_eqb TREE TREE) with true.
    assert (Hflags : ParticleType_eqb (systemType data) RIBBON = false
                     /\ ParticleType_eqb (systemType data) STAR_PARTICLE = false)
      by (destruct Hty as [-> | ->]; now split).
    destruct Hflags as [-> ->].
    destruct (foliage_tree_step
                (ParticleType_eqb (systemType data) ORNAMENT) (tickTime tk)
                (JSMath.clamp (tickDelta tk * animationSpeed) 0 1)
                (currentWaveHeight
                   (tickTime tk
                    - transitionStartTime
                        (fst (useFrame data TREE animationSpeed (tickTime tk)
                                       (tickDelta tk) refs))))
                p c (clamp_unit _) Hx Hz Hy) as (H1 & H2 & H3 & H4).
    unfold Inv. now repeat split. }
  assert (Hc0 : nth_error (currentPositions (initialRefs data mounted)) i
                = Some (treePosition p)).
  { unfold initialRefs. simpl. rewrite nth_error_map, Hp. reflexivity. }
  assert (Hinv0 : Inv 0%nat (treePosition p)).
  { unfold Inv. repeat split; try reflexivity.
    replace (vy (treePosition p) - vy (treePosition p)) with 0 by ring.
    rewrite Rabs_R0. lra. }
  destruct (runFrames_frame_invariant data animationSpeed i p Hp
              (fun tk => tickState tk = TREE) Inv
              (fun _ inst0 => instScale inst0 = scale p)
              Hstep ticks Hheld 0%nat _ _ k inst Hc0 Hinv0 Hk)
    as (tk & _ & (Hx & Hz & Hy) & Hs).
  now repeat split.
Qed.

Lemma foliage_stays_on_its_branch_witness :
  exists inst,
    instanceAt (snd (runFrames [leafNear] 2.5 assembledTicks
                               (initialRefs [leafNear] TREE))) 2 0
    = Some inst
    /\ vx (position inst) = vx (treePosition leafNear)
    /\ Rabs (vy (position inst) - vy (treePosition leafNear)) <= 0.05.
Proof.
  eexists. split; [reflexivity |].
  assert (Hheld : heldIn TREE assembledTicks) by (repeat constructor).
  destruct (foliage_stays_on_its_branch [leafNear] 2.5 assembledTicks TREE
              0 leafNear 2 _ (or_introl eq_refl) eq_refl Hheld eq_refl)
    as (Hx & _ & Hy & _).
  split; [exact Hx | exact Hy].
Defined.

End FoliageBob.

Section ModeEntry.

Import ParticleSystem Samples.

(** X4: On the frame that sees the switch to assembled mode the start time is
    reset to the current time, so the wave is back at -15: every ribbon
    particle at or above that height, and every star particle, is written
    with a near-zero scale on that frame, however long the system had been
    running. *)
Theorem reveal_restarts_on_entry (data : list ParticleData)
        (animationSpeed time delta : R) (refs : Refs)
        (i : nat) (p : ParticleData) (inst : Instance)
        (Hty : systemType data = RIBBON \/ systemType data = STAR_PARTICLE)
        (Hlast : lastState refs = EXPLODE)
        (Hp : nth_error data i = Some p)
        (Hy : -15 <= vy (treePosition p))
        (Hinst : nth_error
                   (snd (useFrame data TREE animationSpeed time delta refs)) i
                 = Some inst) :
  transitionStartTime (fst (useFrame data TREE animationSpeed time delta refs))
  = time
  /\ lastState (fst (useFrame data TREE animationSpeed time delta refs)) = TREE
  /\ nearZero (instScale inst).
Proof.
  assert (Hstart : transitionStartTime
                     (fst (useFrame data TREE animationSpeed time delta refs))
                   = time)
    by (rewrite useFrame_start, Hlast; reflexivity).
  split; [exact Hstart |]. split; [apply useFrame_lastState |].
  destruct (useFrame_written _ _ _ _ _ _ _ _ Hinst) as (p' & c & Hp' & Hc & ->).
  rewrite Hp in Hp'. injection Hp' as <-.
  rewrite Hstart. change (AppState_eqb TREE TREE) with true.
  assert (Hw : currentWaveHeight (time - time) = -15)
    by (unfold currentWaveHeight, waveStartOffset, waveSpeed; lra).
  rewrite Hw. unfold nearZero.
  destruct Hty as [-> | ->]; cbn [ParticleType_eqb].
  - rewrite ribbon_hidden_until_wave by lra. lra.
  - set (sc := instScale _).
    assert (Hs : sc = 0.001 \/ sc = 0.01)
      by (apply star_hidden_until_top; lra).
    destruct Hs as [-> | ->]; lra.
Qed.

Lemma reveal_restarts_on_entry_witness :
  exists inst,
    nth_error (snd (useFrame [ribbonMid] TREE 2.5 100 0.016
                             (mkRefs [mkVector3 10 20 30] EXPLODE 3))) 0
    = Some inst
    /\ nearZero (instScale inst).
Proof.
  eexists. split; [reflexivity |].
  apply (reveal_restarts_on_entry [ribbonMid] 2.5 100 0.016
           (mkRefs [mkVector3 10 20 30] EXPLODE 3) 0 ribbonMid _
           (or_introl eq_refl) eq_refl eq_refl).
  - simpl. lra.
  - reflexivity.
Defined.

End ModeEntry.

Section DispersedRate.

Import ParticleSystem Samples.

(** X5: In dispersed mode a ribbon or star particle closes in on its dispersed
    position at a fixed rate: after frame [k] of a run at a fixed delta the
    distance left is (1 - a)^(k+1) times the distance at the start of the
    run, with a = clamp(delta * speed, 0, 1). *)
Theorem dispersed_distance_is_geometric (data : list ParticleData)
        (animationSpeed dt : R) (ticks : list Tick) (refs : Refs)
        (i : nat) (p : ParticleData) (c : Vector3) (k : nat) (inst : Instance)
        (Hty : systemType data = RIBBON \/ systemType data = STAR_PARTICLE)
        (Hp : nth_error data i = Some p)
        (Hc : nth_error (currentPositions refs) i = Some c)
        (Hticks : dispersedAtFixedDelta dt ticks)
        (Hk : instanceAt (snd (runFrames data animationSpeed ticks refs)) k i
              = Some inst) :
  Vec.distanceTo (position inst) (explodePosition p)
  = (1 - JSMath.clamp (dt * animationSpeed) 0 1) ^ (S k)
    * Vec.distanceTo c (explodePosition p).
Proof.
  set (a := JSMath.clamp (dt * animationSpeed) 0 1).
  set (d0 := Vec.distanceTo c (explodePosition p)).
  set (Inv := fun (n : nat) (c' : Vector3) =>
                Vec.distanceTo c' (explodePosition p) = (1 - a) ^ n * d0).
  assert (Hstep : forall n tk refs0 c0 inst0,
             (tickState tk = EXPLODE /\ tickDelta tk = dt) ->
             nth_error (currentPositions refs0) i = Some c0 ->
             Inv n c0 ->
             nth_error (snd (useFrame data (tickState tk) animationSpeed
                                      (tickTime tk) (tickDelta tk) refs0)) i
             = Some inst0 ->
             Inv (S n) (position inst0) /\ True).
  { intros n tk refs0 c0 inst0 [Hst Hdelta] Hc0 Hinv Hinst0.
    split; [| exact I].
    destruct (useFrame_written _ _ _ _ _ _ _ _ Hinst0)
      as (p' & c' & Hp' & Hc' & ->).
    rewrite Hp in Hp'. injection Hp' as <-.
    rewrite Hc0 in Hc'. injection Hc' as <-.
    rewrite Hst, Hdelta. change (AppState_eqb EXPLODE TREE) with false.
    fold a. unfold Inv in *.
    unfold stepParticle, activeLerp. cbv [position].
    rewrite andb_false_r.
    replace (behaviorTarget _ _ false (tickTime tk) p) with (explodePosition p)
      by (destruct Hty as [-> | ->]; reflexivity).
    rewrite distanceTo_lerp by apply clamp_unit.
    rewrite Hinv. simpl. ring. }
  assert (Hinv0 : Inv 0%nat c) by (unfold Inv, d0; simpl; ring).
  destruct (runFrames_frame_invariant data animationSpeed i p Hp
              (fun tk => tickState tk = EXPLODE /\ tickDelta tk = dt) Inv
              (fun _ _ => True) Hstep ticks Hticks 0%nat refs c k inst Hc
              Hinv0 Hk)
    as (tk & _ & Hinv & _).
  exact Hinv.
Qed.

Lemma dispersed_distance_is_geometric_witness :
  exists inst,
    instanceAt (snd (runFrames [ribbonMid] 2.5 dispersedTicks
                               (initialRefs [ribbonMid] TREE))) 2 0
    = Some inst
    /\ Vec.distanceTo (position inst) (explodePosition ribbonMid)
       = (1 - JSMath.clamp (1 / 60 * 2.5) 0 1) ^ 3
         * Vec.distanceTo (treePosition ribbonMid) (explodePosition ribbonMid).
Proof.
  eexists. split; [reflexivity |].
  apply (dispersed_distance_is_geometric [ribbonMid] 2.5 (1 / 60)
           dispersedTicks (initialRefs [ribbonMid] TREE) 0 ribbonMid
           (treePosition ribbonMid) 2 _ (or_introl eq_refl) eq_refl eq_refl).
  - repeat constructor.
  - reflexivity.
Defined.

End DispersedRate.

Section DeltaExtremes.

Import ParticleSystem Samples.

Lemma clamp_unit_low (x : R) : x <= 0 -> JSMath.clamp x 0 1 = 0.
Proof.
  intros Hx. unfold JSMath.clamp, Rmax, Rmin.
  destruct (Rle_dec 1 x); destruct (Rle_dec 0 _); lra.
Qed.

Lemma clamp_unit_high (x : R) : 1 <= x -> JSMath.clamp x 0 1 = 1.
Proof.
  intros Hx. unfold JSMath.clamp, Rmax, Rmin.
  destruct (Rle_dec 1 x); destruct (Rle_dec 0 _); lra.
Qed.

Lemma lerp_zero (c t : Vector3) : Vec.lerp c t 0 = c.
Proof. destruct c, t. unfold Vec.lerp. simpl. f_equal; ring. Qed.

Lemma lerp_one (c t : Vector3) : Vec.lerp c t 1 = t.
Proof. destruct c, t. unfold Vec.lerp. simpl. f_equal; ring. Qed.

(** X6: What the clamp of the base factor does at its two ends.  Outside the
    ribbon's assembled mode, a frame whose delta times speed is zero or
    negative leaves the running position where it was, and a frame whose
    delta times speed is 1 or more puts it exactly on the frame's target.
    A ribbon in assembled mode does not read the delta at all: any two
    deltas write the same instance. *)
Theorem frame_delta_extremes (data : list ParticleData) (appState : AppState)
        (animationSpeed time delta : R) (refs : Refs)
        (i : nat) (p : ParticleData) (c : Vector3) (inst : Instance)
        (Hp : nth_error data i = Some p)
        (Hc : nth_error (currentPositions refs) i = Some c)
        (Hinst : nth_error
                   (snd (useFrame data appState animationSpeed time delta refs))
                   i = Some inst) :
  (~ (systemType data = RIBBON /\ appState = TREE) ->
   (delta * animationSpeed <= 0 -> position inst = c)
   /\ (1 <= delta * animationSpeed ->
       position inst
       = behaviorTarget (ParticleType_eqb (systemType data) RIBBON)
                        (ParticleType_eqb (systemType data) STAR_PARTICLE)
                        (AppState_eqb appState TREE) time p))
  /\ (systemType data = RIBBON -> appState = TREE ->
      forall delta',
        nth_error
          (snd (useFrame data appState animationSpeed time delta' refs)) i
        = Some inst).
Proof.
  destruct (useFrame_written _ _ _ _ _ _ _ _ Hinst)
    as (p' & c' & Hp' & Hc' & Heq).
  rewrite Hp in Hp'. injection Hp' as <-.
  rewrite Hc in Hc'. injection Hc' as <-.
  split.
  - intros Hnot.
    assert (Hfactor :
              activeLerp (ParticleType_eqb (systemType data) RIBBON)
                         (AppState_eqb appState TREE)
                         (JSMath.clamp (delta * animationSpeed) 0 1)
                         (currentWaveHeight
                            (time - transitionStartTime
                                      (fst (useFrame data appState animationSpeed
                                                     time delta refs))))
                         p
              = JSMath.clamp (delta * animationSpeed) 0 1).
    { unfold activeLerp.
      destruct (systemType data) eqn:Hty, appState; try reflexivity.
      exfalso. apply Hnot. now split. }
    subst inst. unfold stepParticle. cbv [position]. rewrite Hfactor.
    split; intros Hd.
    + rewrite clamp_unit_low by assumption. apply lerp_zero.
    + rewrite clamp_unit_high by assumption. apply lerp_one.
  - intros Hty -> delta'.
    destruct (useFrame_writes data animationSpeed TREE time delta' refs i p c
                              Hp Hc) as [inst' Hinst'].
    rewrite Hinst'. f_equal.
    destruct (useFrame_written _ _ _ _ _ _ _ _ Hinst')
      as (p' & c' & Hp' & Hc' & Heq').
    rewrite Hp in Hp'. injection Hp' as <-.
    rewrite Hc in Hc'. injection Hc' as <-.
    rewrite Heq, Heq', !useFrame_start, Hty. reflexivity.
Qed.

Lemma frame_delta_extremes_witness :
  exists inst,
    nth_error (snd (useFrame [starLow] TREE 3.0 2 0 starLowRefs)) 0 = Some inst
    /\ position inst = mkVector3 10 13 0.
Proof.
  eexists. split; [reflexivity |].
  destruct (frame_delta_extremes [starLow] TREE 3.0 2 0 starLowRefs 0 starLow
              (mkVector3 10 13 0) _ eq_refl eq_refl eq_refl) as [Hends _].
  apply Hends.
  - intros [Hty _]. discriminate.
  - lra.
Defined.

End DeltaExtremes.

Section RevealOrder.

Import ParticleSystem Samples.

(** X7: The star pops in strictly after the ribbon: when a ribbon system and a
    star system have seen the same mode changes, a frame on which any star
    instance is visible comes more than 1.45 seconds after the switch to
    assembled mode, and on that frame every ribbon particle below the tree
    top (height 12.5) is already under the wave, moving with the fast
    factor 0.2. *)
Theorem star_appears_after_ribbon
        (ribbonData starData : list ParticleData)
        (ribbonSpeed starSpeed time ribbonDelta starDelta : R)
        (ribbonRefs starRefs : Refs)
        (iR : nat) (pR : ParticleData) (cR : Vector3)
        (iS : nat) (instS : Instance)
        (HtyR : systemType ribbonData = RIBBON)
        (HtyS : systemType starData = STAR_PARTICLE)
        (HpR : nth_error ribbonData iR = Some pR)
        (HcR : nth_error (currentPositions ribbonRefs) iR = Some cR)
        (HyR : vy (treePosition pR) < 12.5)
        (Hlast : lastState ribbonRefs = lastState starRefs)
        (Hstart : transitionStartTime ribbonRefs = transitionStartTime starRefs)
        (HinstS : nth_error
                    (snd (useFrame starData TREE starSpeed time starDelta
                                   starRefs)) iS = Some instS)
        (Hvis : visible (instScale instS)) :
  1.45 < time - transitionStartTime
                  (fst (useFrame starData TREE starSpeed time starDelta
                                 starRefs))
  /\ exists instR,
      nth_error (snd (useFrame ribbonData TREE ribbonSpeed time ribbonDelta
                               ribbonRefs)) iR = Some instR
      /\ position instR = Vec.lerp cR (treePosition pR) 0.2.
Proof.
  destruct (useFrame_written _ _ _ _ _ _ _ _ HinstS)
    as (pS & cS & HpS & HcS & HeqS).
  rewrite HeqS, HtyS in Hvis. cbn [ParticleType_eqb AppState_eqb] in Hvis.
  apply star_visible_after_top in Hvis.
  assert (Hsame :
            transitionStartTime
              (fst (useFrame ribbonData TREE ribbonSpeed time ribbonDelta
                             ribbonRefs))
            = transitionStartTime
                (fst (useFrame starData TREE starSpeed time starDelta starRefs)))
    by (rewrite !useFrame_start, Hlast, Hstart; reflexivity).
  set (start := transitionStartTime
                  (fst (useFrame starData TREE starSpeed time starDelta
                                 starRefs))) in *.
  assert (Hsince : 1.45 < time - start)
    by (unfold currentWaveHeight, waveStartOffset, waveSpeed in Hvis; lra).
  split; [exact Hsince |].
  pose proof (ribbon_tree_instance ribbonData ribbonSpeed time ribbonDelta
                ribbonRefs iR pR cR HpR HcR HtyR) as HinstR.
  rewrite Hsame in HinstR.
  eexists. split; [exact HinstR |].
  rewrite ribbon_tree_position.
  destruct (Rlt_dec (vy (treePosition pR)) (currentWaveHeight (time - start)))
    as [_ | Hn]; [reflexivity |].
  exfalso. apply Hn.
  unfold currentWaveHeight, waveStartOffset, waveSpeed. lra.
Qed.

Lemma starTip_visible_late (lf : R) :
  visible (instScale (stepParticle false true false true 1.495 lf
                                   (currentWaveHeight (1.495 - 0)) starTip
                                   (treePosition starTip))).
Proof.
  replace (currentWaveHeight (1.495 - 0)) with 14.9
    by (unfold currentWaveHeight, waveStartOffset, waveSpeed; lra).
  unfold stepParticle, hideStreaks, behaviorScale, activeLerp, behaviorTarget.
  cbv [orb andb instScale position].
  replace (Vec.lerp (treePosition starTip) (treePosition starTip) lf)
    with (treePosition starTip)
    by (unfold Vec.lerp; destruct (treePosition starTip); simpl; f_equal; ring).
  rewrite distanceTo_self.
  destruct (Rlt_dec 3.0 0); [lra |].
  destruct (Rlt_dec 14.0 14.9); [| lra].
  pose proof (SIN_bound (1.495 * 5 + INR (id starTip))) as [Hlo Hhi].
  set (w := sin (1.495 * 5 + INR (id starTip))) in *.
  replace (Rmin 1 ((14.9 - 14.0) / 5)) with 0.18
    by (unfold Rmin; destruct (Rle_dec 1 ((14.9 - 14.0) / 5)); lra).
  change (scale starTip) with 0.15.
  unfold visible. lra.
Qed.

Lemma star_appears_after_ribbon_witness :
  exists instR,
    nth_error (snd (useFrame [ribbonMid] TREE 2.5 1.495 0.016
                             (initialRefs [ribbonMid] TREE))) 0 = Some instR
    /\ position instR
       = Vec.lerp (treePosition ribbonMid) (treePosition ribbonMid) 0.2.
Proof.
  assert (Hy : vy (treePosition ribbonMid) < 12.5) by (simpl; lra).
  exact (proj2 (star_appears_after_ribbon [ribbonMid] [starTip] 2.5 3.0 1.495
                  0.016 0.016 (initialRefs [ribbonMid] TREE)
                  (initialRefs [starTip] TREE) 0 ribbonMid
                  (treePosition ribbonMid) 0 _ eq_refl eq_refl eq_refl eq_refl
                  Hy eq_refl eq_refl eq_refl
                  (starTip_visible_late (JSMath.clamp (0.016 * 3.0) 0 1)))).
Defined.

(** X8: The pop-in of the star takes a quarter of a second: a star instance is
    near zero until 1.45 seconds after the switch to assembled mode; between
    1.45 and 1.7 seconds, within streak range, its scale is the base scale
    times the progress 4 * (since - 1.45) times the shimmer factor; from 1.7
    seconds on the progress is 1. *)
Theorem star_pop_in_window (data : list ParticleData)
        (animationSpeed time delta : R) (refs : Refs)
        (i : nat) (p : ParticleData) (c : Vector3) (inst : Instance)
        (Hty : systemType data = STAR_PARTICLE)
        (Hp : nth_error data i = Some p)
        (Hc : nth_error (currentPositions refs) i = Some c)
        (Hinst : nth_error
                   (snd (useFrame data TREE animationSpeed time delta refs)) i
                 = Some inst) :
  let since :=
    time - transitionStartTime
             (fst (useFrame data TREE animationSpeed time delta refs)) in
  let shimmer := 1 + 0.3 * sin (time * 5 + INR (id p)) in
  (since <= 1.45 -> nearZero (instScale inst))
  /\ (Vec.distanceTo (position inst) (treePosition p) <= 3.0 ->
      (1.45 < since < 1.7 ->
       instScale inst = scale p * (4 * (since - 1.45)) * shimmer)
      /\ (1.7 <= since -> instScale inst = scale p * 1 * shimmer)).
Proof.
  intros since shimmer.
  pose proof (star_tree_instance data animationSpeed time delta refs i p c
                                 Hp Hc Hty) as Hs.
  assert (Heq : inst = stepParticle false true false true time
                                    (JSMath.clamp (delta * animationSpeed) 0 1)
                                    (currentWaveHeight since) p c).
  { rewrite Hinst in Hs. injection Hs as Hs. exact Hs. }
  clear Hs Hinst. subst inst.
  assert (Hwave : currentWaveHeight since = -15 + since * 20) by reflexivity.
  clearbody since.
  split.
  - intros Hearly. unfold nearZero. set (sc := instScale _).
    assert (Hsc : sc = 0.001 \/ sc = 0.01).
    { apply star_hidden_until_top. rewrite Hwave. lra. }
    destruct Hsc as [-> | ->]; lra.
  - intros Hnear.
    unfold stepParticle, hideStreaks, behaviorScale in *.
    cbv [orb instScale position] in *.
    destruct (Rlt_dec 3.0 _) as [Hfar | _]; [lra |].
    rewrite Hwave. fold shimmer.
    split; intros Hsince;
      (destruct (Rlt_dec 14.0 (-15 + since * 20)) as [_ | Hn]; [| lra]);
      unfold Rmin;
      destruct (Rle_dec 1 ((-15 + since * 20 - 14.0) / 5)); try lra;
      f_equal; f_equal; lra.
Qed.

Lemma star_pop_in_window_witness :
  exists inst,
    nth_error (snd (useFrame [starTip] TREE 3.0 1.2 0.016
                             (initialRefs [starTip] TREE))) 0 = Some inst
    /\ nearZero (instScale inst).
Proof.
  eexists. split; [reflexivity |].
  destruct (star_pop_in_window [starTip] 3.0 1.2 0.016
              (initialRefs [starTip] TREE) 0 starTip (treePosition starTip) _
              eq_refl eq_refl eq_refl eq_refl) as [Hearly _].
  apply Hearly. rewrite useFrame_start. simpl. lra.
Defined.

End RevealOrder.

(** * Further properties of the generator *)

Section GeneratedArrays.

Variable s : nat -> R.
Variable Q : ParticleType -> ParticleData -> Prop.

Hypothesis Qleaf :
  forall i n, (i < TreeLogic.countLeaves)%nat ->
              Q LEAF (fst (TreeLogic.genLeaf i s n)).
Hypothesis Qornament :
  forall i n, (i < TreeLogic.countOrnaments)%nat ->
              Q ORNAMENT (snd (fst (TreeLogic.genOrnament i s n))).
Hypothesis Qribbon :
  forall i n, (i < TreeLogic.countRibbon)%nat ->
              Q RIBBON (fst (TreeLogic.genRibbon i s n)).
Hypothesis Qstar :
  forall i n, (i < TreeLogic.countStar)%nat ->
              Q STAR_PARTICLE (fst (TreeLogic.genStar i s n)).

(** What every loop body establishes for its particle holds of every
    particle of the array that loop fills. *)
Lemma generate_Forall (n : nat) :
  let g := fst (TreeLogic.generate s n) in
  Forall (Q LEAF) (TreeLogic.leaves g)
  /\ Forall (Q ORNAMENT) (TreeLogic.redOrnaments g)
  /\ Forall (Q ORNAMENT) (TreeLogic.goldOrnaments g)
  /\ Forall (Q RIBBON) (TreeLogic.ribbonParticles g)
  /\ Forall (Q STAR_PARTICLE) (TreeLogic.starParticles g).
Proof.
  set (Inv := fun g =>
         Forall (Q LEAF) (TreeLogic.leaves g)
         /\ Forall (Q ORNAMENT) (TreeLogic.redOrnaments g)
         /\ Forall (Q ORNAMENT) (TreeLogic.goldOrnaments g)
         /\ Forall (Q RIBBON) (TreeLogic.ribbonParticles g)
         /\ Forall (Q STAR_PARTICLE) (TreeLogic.starParticles g)).
  set (Upto := fun (count i : nat) g => (i <= count)%nat -> Inv g).
  assert (Hleaf : forall i g m,
             Upto TreeLogic.countLeaves i g ->
             Upto TreeLogic.countLeaves (S i) (fst (TreeLogic.pushLeaf i g s m))).
  { intros i g m Hg Hi. destruct (Hg ltac:(lia)) as (H1 & H2 & H3 & H4 & H5).
    unfold Inv. simpl. repeat split; try assumption.
    apply Forall_app. split; [assumption |].
    constructor; [apply Qleaf; lia | constructor]. }
  assert (Hrib : forall i g m,
             Upto TreeLogic.countRibbon i g ->
             Upto TreeLogic.countRibbon (S i)
                  (fst (TreeLogic.pushRibbon i g s m))).
  { intros i g m Hg Hi. destruct (Hg ltac:(lia)) as (H1 & H2 & H3 & H4 & H5).
    unfold Inv. simpl. repeat split; try assumption.
    apply Forall_app. split; [assumption |].
    constructor; [apply Qribbon; lia | constructor]. }
  assert (Hstar : forall i g m,
             Upto TreeLogic.countStar i g ->
             Upto TreeLogic.countStar (S i) (fst (TreeLogic.pushStar i g s m))).
  { intros i g m Hg Hi. destruct (Hg ltac:(lia)) as (H1 & H2 & H3 & H4 & H5).
    unfold Inv. simpl. repeat split; try assumption.
    apply Forall_app. split; [assumption |].
    constructor; [apply Qstar; lia | constructor]. }
  assert (Horn : forall i g m,
             Upto TreeLogic.countOrnaments i g ->
             Upto TreeLogic.countOrnaments (S i)
                  (fst (TreeLogic.pushOrnament i g s m))).
  { intros i g m Hg Hi. destruct (Hg ltac:(lia)) as (H1 & H2 & H3 & H4 & H5).
    pose proof (Qornament i m ltac:(lia)) as Hq.
    unfold TreeLogic.pushOrnament, bind.
    destruct (TreeLogic.genOrnament i s m) as [[isRed q] m']. simpl in Hq.
    destruct isRed; unfold Inv; simpl; repeat split; try assumption;
      apply Forall_app; (split; [assumption |]);
      (constructor; [exact Hq | constructor]). }
  unfold TreeLogic.generate, bind, forLoop.
  pose proof (forLoopFrom_indexed TreeLogic.pushLeaf s
                (Upto TreeLogic.countLeaves) Hleaf
                TreeLogic.countLeaves 0
                (TreeLogic.mkGenerated [] [] [] [] []) n) as H1.
  destruct (forLoopFrom 0 TreeLogic.countLeaves TreeLogic.pushLeaf _ s n)
    as [g1 n1].
  pose proof (forLoopFrom_indexed TreeLogic.pushOrnament s
                (Upto TreeLogic.countOrnaments) Horn
                TreeLogic.countOrnaments 0 g1 n1) as H2.
  destruct (forLoopFrom 0 TreeLogic.countOrnaments TreeLogic.pushOrnament _ s n1)
    as [g2 n2].
  pose proof (forLoopFrom_indexed TreeLogic.pushRibbon s
                (Upto TreeLogic.countRibbon) Hrib
                TreeLogic.countRibbon 0 g2 n2) as H3.
  destruct (forLoopFrom 0 TreeLogic.countRibbon TreeLogic.pushRibbon _ s n2)
    as [g3 n3].
  pose proof (forLoopFrom_indexed TreeLogic.pushStar s
                (Upto TreeLogic.countStar) Hstar
                TreeLogic.countStar 0 g3 n3) as H4.
  cbn [fst] in *.
  apply H4; [| lia]. intros _.
  apply H3; [| lia]. intros _.
  apply H2; [| lia]. intros _.
  apply H1; [| lia]. intros _.
  unfold Inv. simpl. repeat split; constructor.
Qed.

End GeneratedArrays.

Section AssembledShapes.

Import TreeShape.

Variable s : nat -> R.
Hypothesis Hs : unitDraws s.

Lemma polar_axisDistSq (angle r y : R) :
  axisDistSq (mkVector3 (cos angle * r) y (sin angle * r)) = r * r.
Proof.
  unfold axisDistSq. simpl.
  pose proof (sin2_cos2 angle) as H. unfold Rsqr in H.
  replace (cos angle * r * (cos angle * r) + sin angle * r * (sin angle * r))
    with ((sin angle * sin angle + cos angle * cos angle) * (r * r)) by ring.
  rewrite H. ring.
Qed.

Lemma genLeaf_shape (i n : nat) :
  assembledShape LEAF (treePosition (fst (TreeLogic.genLeaf i s n))).
Proof.
  unfold TreeLogic.genLeaf, TreeLogic.randomSpherePoint, bind, random, ret.
  cbn [fst snd treePosition].
  unfold assembledShape, hPercentOf, TreeLogic.treeHeight, TreeLogic.baseRadius.
  rewrite polar_axisDistSq. cbn [vy].
  pose proof (Hs n) as [H0 H1]. pose proof (Hs (S (S n))) as [H2 H3].
  set (d0 := s n) in *. set (d2 := s (S (S n))) in *.
  pose proof (sqrt_sqrt d2 H2) as Hsq. pose proof (sqrt_pos d2) as Hpos.
  set (q := sqrt d2) in *.
  split; [lra |].
  replace (1 - (d0 * 25 - 25 / 2 + 12.5) / 25) with (1 - d0) by lra.
  replace (1 - d0 * 25 / 25) with (1 - d0) by lra.
  simpl.
  assert (0 <= (1 - d0) * 8) by lra.
  assert (q <= 1) by nra.
  assert (q * ((1 - d0) * 8) <= (1 - d0) * 8) by nra.
  assert (0 <= q * ((1 - d0) * 8)) by nra.
  nra.
Qed.

Lemma genOrnament_shape (i n : nat) :
  assembledShape ORNAMENT
                 (treePosition (snd (fst (TreeLogic.genOrnament i s n)))).
Proof.
  unfold TreeLogic.genOrnament, TreeLogic.randomSpherePoint, bind, random, ret.
  cbn [fst snd treePosition].
  unfold assembledShape, hPercentOf, TreeLogic.treeHeight, TreeLogic.baseRadius.
  rewrite polar_axisDistSq. cbn [vy].
  pose proof (Hs n) as [H0 H1]. pose proof (Hs (S (S n))) as [H2 H3].
  set (d0 := s n) in *. set (d2 := s (S (S n))) in *.
  split; [lra |].
  replace (1 - (d0 * 25 - 25 / 2 + 12.5) / 25) with (1 - d0) by lra.
  replace (1 - d0 * 25 / 25) with (1 - d0) by lra.
  simpl.
  set (cr := (1 - d0) * 8 * 0.9).
  assert (0 <= cr) by (unfold cr; lra).
  split; nra.
Qed.

Lemma genRibbon_shape (i n : nat) :
  (i < TreeLogic.countRibbon)%nat ->
  assembledShape RIBBON (treePosition (fst (TreeLogic.genRibbon i s n))).
Proof.
  intros Hi.
  unfold TreeLogic.genRibbon, TreeLogic.randomSpherePoint, bind, random, ret.
  cbn [fst snd treePosition].
  unfold assembledShape, hPercentOf, TreeLogic.treeHeight, TreeLogic.baseRadius.
  rewrite polar_axisDistSq. cbn [vy].
  assert (Hpct : 0 <= INR i / INR TreeLogic.countRibbon < 1).
  { apply lt_INR in Hi. pose proof (pos_INR i) as Hi0.
    assert (Hc : 0 < INR TreeLogic.countRibbon) by lra.
    split.
    - apply Rmult_le_pos; [lra | left; now apply Rinv_0_lt_compat].
    - apply Rmult_lt_reg_r with (INR TreeLogic.countRibbon); [lra |].
      unfold Rdiv. rewrite Rmult_assoc, Rinv_l by lra. lra. }
  set (pct := INR i / INR TreeLogic.countRibbon) in *.
  pose proof (Hs n) as [H0 H1]. set (d := s n) in *.
  split; [lra |].
  replace ((pct * 25 - 25 / 2 + 12.5) / 25) with pct by lra.
  replace (pct * 25 / 25) with pct by lra.
  simpl.
  set (base := (1 - pct) * 8 + 1.2).
  set (spread := 0.2 + pct * 1.5).
  assert (0 < base - spread / 2) by (unfold base, spread; lra).
  assert (0 < spread) by (unfold spread; lra).
  assert (Hlo : base - spread / 2 <= base + (d - 0.5) * spread) by nra.
  assert (Hhi : base + (d - 0.5) * spread < base + spread / 2) by nra.
  set (r := base + (d - 0.5) * spread) in *.
  set (lo := base - spread / 2) in *. set (hi := base + spread / 2) in *.
  split; nra.
Qed.

Lemma genStar_shape (i n : nat) :
  assembledShape STAR_PARTICLE (treePosition (fst (TreeLogic.genStar i s n))).
Proof.
  unfold TreeLogic.genStar, TreeLogic.randomSpherePoint, bind, random, ret.
  cbn [fst snd treePosition].
  unfold assembledShape, Vec.add, TreeLogic.starCenterY, TreeLogic.treeHeight,
    TreeLogic.outerRadius.
  cbn [vx vy vz].
  pose proof (Hs (S n)) as [T0 T1]. pose proof (Hs (S (S n))) as [O0 O1].
  pose proof (Hs (S (S (S n)))) as [Z0 Z1].
  set (t := s (S n)) in *. set (o := s (S (S n))) in *.
  set (z := s (S (S (S n)))) in *.
  set (L := JSMath.floor (s n * 5) / 5 * PI * 2 - PI / 2).
  rewrite (cos_plus L), (sin_plus L), cos_PI2, sin_PI2.
  pose proof (sin2_cos2 L) as Hsc. unfold Rsqr in Hsc.
  set (cl := cos L) in *. set (sl := sin L) in *.
  set (off := (o - 0.5) * ((1 - t) * 0.6)).
  split; [| lra].
  set (rd := t * 1.4).
  assert (Ex : cl * rd + (cl * 0 - sl * 1) * off + 0 = cl * rd - sl * off)
    by ring.
  assert (Ey : sl * rd + (sl * 0 + cl * 1) * off + (25 / 2 + 1.5) - 14
               = sl * rd + cl * off) by lra.
  rewrite Ex, Ey.
  replace ((cl * rd - sl * off) * (cl * rd - sl * off)
           + (sl * rd + cl * off) * (sl * rd + cl * off))
    with ((sl * sl + cl * cl) * (rd * rd + off * off)) by ring.
  rewrite Hsc, Rmult_1_l. simpl.
  assert (Hoff : off * off <= 0.09 * ((1 - t) * (1 - t))).
  { unfold off.
    assert (-0.5 <= o - 0.5 <= 0.5) by lra.
    assert ((o - 0.5) * (o - 0.5) <= 0.25) by nra.
    assert (0 <= (1 - t) * (1 - t)) by nra.
    nra. }
  unfold rd. nra.
Qed.

(** X9: Whatever the draws, every generated particle has its assembled
    position in the region of its category: leaves inside the cone,
    ornaments on the shell just outside 0.9 of it, the ribbon in its band
    around the cone, star particles within 1.4 of the star centre at height
    14; leaves, ornaments and ribbon stay below the tree top at 12.5. *)
Theorem assembled_positions_in_shape (n : nat) :
  let g := fst (TreeLogic.generate s n) in
  Forall (fun p => assembledShape LEAF (treePosition p)) (TreeLogic.leaves g)
  /\ Forall (fun p => assembledShape ORNAMENT (treePosition p))
            (TreeLogic.redOrnaments g ++ TreeLogic.goldOrnaments g)
  /\ Forall (fun p => assembledShape RIBBON (treePosition p))
            (TreeLogic.ribbonParticles g)
  /\ Forall (fun p => assembledShape STAR_PARTICLE (treePosition p))
            (TreeLogic.starParticles g).
Proof.
  destruct (generate_Forall s (fun ty p => assembledShape ty (treePosition p))
              (fun i m _ => genLeaf_shape i m)
              (fun i m _ => genOrnament_shape i m)
              genRibbon_shape
              (fun i m _ => genStar_shape i m) n)
    as (H1 & H2 & H3 & H4 & H5).
  repeat split; try assumption.
  apply Forall_app. now split.
Qed.

End AssembledShapes.

Lemma assembled_positions_in_shape_witness :
  Forall (fun p => TreeShape.assembledShape RIBBON (treePosition p))
         (TreeLogic.ribbonParticles
            (fst (TreeLogic.generate (fun _ => 0.5) 0%nat))).
Proof.
  assert (Hs : unitDraws (fun _ => 0.5)) by (intros k; lra).
  exact (proj1 (proj2 (proj2
           (assembled_positions_in_shape (fun _ => 0.5) Hs 0%nat)))).
Defined.

Section GeneratedIds.

Import TreeShape.

Lemma fresh_id_step (l l' : list nat) (a b : nat) :
  Add a l l' ->
  (a < b)%nat ->
  NoDup l /\ Forall (fun x => (x < a)%nat) l ->
  NoDup l' /\ Forall (fun x => (x < b)%nat) l'.
Proof.
  intros Hadd Hab [Hnd Hall]. rewrite Forall_forall in Hall. split.
  - apply (NoDup_Add Hadd). split; [exact Hnd |].
    intros Hin. apply Hall in Hin. lia.
  - apply Forall_forall. intros x Hx.
    apply (Add_in Hadd) in Hx. destruct Hx as [<- | Hx]; [lia |].
    apply Hall in Hx. lia.
Qed.

Lemma Add_prefix (a : nat) (pre l l' : list nat) :
  Add a l l' -> Add a (pre ++ l) (pre ++ l').
Proof.
  intros H. induction pre as [| x pre IH]; simpl; [exact H |].
  now constructor.
Qed.

Lemma Add_snoc (a : nat) (l : list nat) : Add a l (l ++ [a]).
Proof.
  induction l as [| x l IH]; simpl; constructor. exact IH.
Qed.

Lemma Add_snoc_app (a : nat) (l rest : list nat) :
  Add a (l ++ rest) ((l ++ [a]) ++ rest).
Proof. rewrite <- app_assoc. simpl. apply Add_app. Qed.

Variable s : nat -> R.

Lemma pushLeaf_ids (i : nat) (g : TreeLogic.Generated) (m : nat) :
  idsBelow i g -> idsBelow (S i) (fst (TreeLogic.pushLeaf i g s m)).
Proof.
  intros Hg. apply (fresh_id_step (allIds g) _ i); [| lia | exact Hg].
  unfold allIds. simpl. rewrite map_app. simpl. apply Add_snoc_app.
Qed.

Lemma pushOrnament_ids (i : nat) (g : TreeLogic.Generated) (m : nat) :
  idsBelow (TreeLogic.countLeaves + i) g ->
  idsBelow (TreeLogic.countLeaves + S i)
           (fst (TreeLogic.pushOrnament i g s m)).
Proof.
  assert (Hid : id (snd (fst (TreeLogic.genOrnament i s m)))
                = (TreeLogic.countLeaves + i)%nat) by reflexivity.
  unfold TreeLogic.pushOrnament, bind.
  destruct (TreeLogic.genOrnament i s m) as [[isRed p] m']. cbn [fst snd] in Hid.
  intros Hg.
  apply (fresh_id_step (allIds g) _ (id p)); [| lia | rewrite Hid; exact Hg].
  destruct isRed; unfold allIds; simpl; rewrite map_app; simpl.
  - apply Add_prefix, Add_snoc_app.
  - do 2 apply Add_prefix. apply Add_snoc_app.
Qed.

Lemma pushRibbon_ids (i : nat) (g : TreeLogic.Generated) (m : nat) :
  idsBelow (TreeLogic.countLeaves + TreeLogic.countOrnaments + i) g ->
  idsBelow (TreeLogic.countLeaves + TreeLogic.countOrnaments + S i)
           (fst (TreeLogic.pushRibbon i g s m)).
Proof.
  intros Hg.
  apply (fresh_id_step (allIds g) _
           (TreeLogic.countLeaves + TreeLogic.countOrnaments + i)%nat);
    [| lia | exact Hg].
  unfold allIds. simpl. rewrite map_app. simpl.
  do 3 apply Add_prefix. apply Add_snoc_app.
Qed.

Lemma pushStar_ids (i : nat) (g : TreeLogic.Generated) (m : nat) :
  idsBelow (TreeLogic.countLeaves + TreeLogic.countOrnaments
            + TreeLogic.countRibbon + i) g ->
  idsBelow (TreeLogic.countLeaves + TreeLogic.countOrnaments
            + TreeLogic.countRibbon + S i)
           (fst (TreeLogic.pushStar i g s m)).
Proof.
  intros Hg.
  apply (fresh_id_step (allIds g) _
           (TreeLogic.countLeaves + TreeLogic.countOrnaments
            + TreeLogic.countRibbon + i)%nat);
    [| lia | exact Hg].
  unfold allIds. simpl. rewrite map_app. simpl.
  do 4 apply Add_prefix. apply Add_snoc.
Qed.

(** X10: The ids the generator hands out are pairwise distinct across the five
    arrays and fill the range below the total particle count, whatever the
    random draws. *)
Theorem generated_ids_are_distinct (n : nat) :
  let g := fst (TreeLogic.generate s n) in
  NoDup (allIds g)
  /\ Forall (fun x => (x < totalCount)%nat) (allIds g)
  /\ List.length (allIds g) = totalCount.
Proof.
  intros g.
  assert (Hids : idsBelow totalCount g).
  { unfold g, TreeLogic.generate, bind, forLoop.
    pose proof (forLoopFrom_indexed TreeLogic.pushLeaf s idsBelow pushLeaf_ids
                  TreeLogic.countLeaves 0
                  (TreeLogic.mkGenerated [] [] [] [] []) n) as H1.
    destruct (forLoopFrom 0 TreeLogic.countLeaves TreeLogic.pushLeaf _ s n)
      as [g1 n1].
    pose proof (forLoopFrom_indexed TreeLogic.pushOrnament s
                  (fun i => idsBelow (TreeLogic.countLeaves + i))
                  pushOrnament_ids TreeLogic.countOrnaments 0 g1 n1) as H2.
    destruct (forLoopFrom 0 TreeLogic.countOrnaments TreeLogic.pushOrnament
                          _ s n1) as [g2 n2].
    pose proof (forLoopFrom_indexed TreeLogic.pushRibbon s
                  (fun i => idsBelow (TreeLogic.countLeaves
                                      + TreeLogic.countOrnaments + i))
                  pushRibbon_ids TreeLogic.countRibbon 0 g2 n2) as H3.
    destruct (forLoopFrom 0 TreeLogic.countRibbon TreeLogic.pushRibbon _ s n2)
      as [g3 n3].
    pose proof (forLoopFrom_indexed TreeLogic.pushStar s
                  (fun i => idsBelow (TreeLogic.countLeaves
                                      + TreeLogic.countOrnaments
                                      + TreeLogic.countRibbon + i))
                  pushStar_ids TreeLogic.countStar 0 g3 n3) as H4.
    cbn [fst] in *.
    apply H4. rewrite Nat.add_0_r.
    apply H3. rewrite Nat.add_0_r.
    apply H2. rewrite Nat.add_0_r.
    apply H1. split; [constructor | constructor]. }
  destruct Hids as [Hnd Hlt].
  split; [exact Hnd |]. split; [exact Hlt |].
  destruct (generate_counts s n) as (Hl & Ho & Hr & Hst).
  fold g in Hl, Ho, Hr, Hst. clearbody g.
  unfold allIds, totalCount. rewrite !length_app, !length_map. lia.
Qed.

End GeneratedIds.

(** * Further properties of the gallery layout *)

Section GalleryBand.

Import PhotoGallery GalleryShape.

Variable faceOutward : Vector3 -> Euler.
Variable s : nat -> R.
Hypothesis Hs : unitDraws s.

Lemma drawCandidate_onBand (n : nat) : onBand (fst (drawCandidate s n)).
Proof.
  unfold drawCandidate, bind, random, ret. cbn [fst snd].
  unfold onBand. rewrite polar_axisDistSq. cbn [vy].
  unfold coneRadiusAt, yMin, yMax, baseRadius.
  pose proof (Hs n) as [H0 H1]. pose proof (Hs (S n)) as [H2 H3].
  set (d := s n) in *. set (d' := s (S n)) in *.
  split; [lra |].
  assert (Hh : Rmax 0 (Rmin 1 ((-10 + d * (7 - -10) + 12.5) / 25))
               = (-10 + d * (7 - -10) + 12.5) / 25).
  { unfold Rmax, Rmin.
    destruct (Rle_dec 1 _); destruct (Rle_dec 0 _); lra. }
  rewrite Hh.
  set (c := (1 - (-10 + d * (7 - -10) + 12.5) / 25) * 7.5).
  assert (0 < c) by (unfold c; lra).
  simpl.
  assert (c + 0.8 <= c + 0.8 + d' * 0.5) by lra.
  assert (c + 0.8 + d' * 0.5 < c + 1.3) by lra.
  set (r := c + 0.8 + d' * 0.5) in *.
  split; nra.
Qed.

Lemma getSpiralPos_onBand (i count : nat) :
  (i < count)%nat -> onBand (getSpiralPos i count).
Proof.
  intros Hi. unfold getSpiralPos, onBand. rewrite polar_axisDistSq. cbn [vy].
  unfold coneRadiusAt, yMin, yMax, baseRadius.
  assert (Hpct : 0 <= INR i / INR count < 1).
  { apply lt_INR in Hi. pose proof (pos_INR i) as Hi0.
    assert (Hc : 0 < INR count) by lra.
    split.
    - apply Rmult_le_pos; [lra | left; now apply Rinv_0_lt_compat].
    - apply Rmult_lt_reg_r with (INR count); [lra |].
      unfold Rdiv. rewrite Rmult_assoc, Rinv_l by lra. lra. }
  set (pct := INR i / INR count) in *.
  split; [lra |].
  set (c := (1 - (-10 + pct * (7 - -10) + 12.5) / 25) * 7.5).
  assert (0 < c) by (unfold c; lra).
  simpl. split; nra.
Qed.

(** A candidate accepted by the attempt loop is one of the candidates it
    drew. *)
Lemma attemptLoop_draws (attemptsLeft : nat) (data : list LayoutEntry)
      (n : nat) (candidate : Vector3) :
  fst (attemptLoop attemptsLeft data s n) = Some candidate ->
  exists m, candidate = fst (drawCandidate s m).
Proof.
  revert n. induction attemptsLeft as [| k IH]; intros n H; simpl in H.
  - discriminate.
  - unfold bind in H.
    destruct (drawCandidate s n) as [cand n'] eqn:Hd.
    destruct (collision cand data).
    + now apply IH in H.
    + simpl in H. inversion H; subst. exists n. now rewrite Hd.
Qed.

(** What one iteration of the outer loop appends, rotation included. *)
Lemma placePhoto_entry (count i : nat) (tr : list (LayoutEntry * bool))
      (n : nat) :
  exists e valid,
    fst (placePhoto faceOutward count i tr s n) = tr ++ [(e, valid)]
    /\ (treePos e = getSpiralPos i count
        \/ exists m, treePos e = fst (drawCandidate s m))
    /\ jitterWithin (JSMath.degToRad 10) (faceOutward (treePos e)) (treeRot e).
Proof.
  unfold placePhoto, bind.
  destruct (attemptLoop maxAttempts (map fst tr) s n) as [found n'] eqn:Hloop.
  unfold random, ret. cbn [fst snd].
  do 2 eexists. split; [reflexivity |]. cbn [treePos treeRot]. split.
  - destruct found as [candidate |]; [right | now left].
    apply (attemptLoop_draws maxAttempts (map fst tr) n).
    now rewrite Hloop.
  - unfold jitterWithin. cbn [ex ey ez].
    pose proof (Hs n') as [A0 A1]. pose proof (Hs (S n')) as [B0 B1].
    pose proof (Hs (S (S n'))) as [C0 C1].
    assert (Hrad : 0 < JSMath.degToRad 10).
    { unfold JSMath.degToRad. pose proof PI_RGT_0. lra. }
    set (maxRad := JSMath.degToRad 10) in *.
    repeat split; nra.
Qed.

(** X11: Every placement, found by the random search or taken from the spiral,
    hangs on the same band around the tree: height from -10 up to 7,
    distance from the axis between 0.8 and 1.3 outside the cone at that
    height; and its orientation is within 10 degrees, on each axis, of the
    outward-facing orientation at its position. *)
Theorem placements_on_band_facing_out (photos : list string) (n : nat) :
  Forall (fun e => onBand (treePos e)
                   /\ jitterWithin (JSMath.degToRad 10)
                                   (faceOutward (treePos e)) (treeRot e))
         (fst (layoutData faceOutward photos s n)).
Proof.
  set (Q := fun e => onBand (treePos e)
                     /\ jitterWithin (JSMath.degToRad 10)
                                     (faceOutward (treePos e)) (treeRot e)).
  set (count := List.length photos).
  assert (Hstep : forall i tr m,
             ((i <= count)%nat -> Forall Q (map fst tr)) ->
             ((S i <= count)%nat ->
              Forall Q (map fst (fst (placePhoto faceOutward count i tr s m))))).
  { intros i tr m Htr Hi.
    destruct (placePhoto_entry count i tr m) as (e & valid & -> & Hpos & Hjit).
    rewrite map_app. apply Forall_app. split; [apply Htr; lia |].
    simpl. constructor; [| constructor]. split; [| exact Hjit].
    destruct Hpos as [-> | [m' ->]].
    - apply getSpiralPos_onBand. lia.
    - apply drawCandidate_onBand. }
  pose proof (forLoopFrom_indexed (placePhoto faceOutward count) s
                (fun i tr => (i <= count)%nat -> Forall Q (map fst tr))
                Hstep count 0 [] n) as Hloop.
  unfold layoutData, layoutTrace, forLoop, bind. fold count.
  destruct (forLoopFrom 0 count (placePhoto faceOutward count) [] s n)
    as [tr n'].
  cbn [fst] in *. apply Hloop; [| lia]. intros _. constructor.
Qed.

End GalleryBand.

Lemma placements_on_band_facing_out_witness :
  Forall (fun e => GalleryShape.onBand (PhotoGallery.treePos e)
                   /\ GalleryShape.jitterWithin
                        (JSMath.degToRad 10) (mkEuler 0 0 0)
                        (PhotoGallery.treeRot e))
         (fst (PhotoGallery.layoutData (fun _ => mkEuler 0 0 0)
                                       ["a.png"%string; "b.png"%string]
                                       (fun _ => 0.5) 0%nat)).
Proof.
  assert (Hs : unitDraws (fun _ => 0.5)) by (intros k; lra).
  exact (placements_on_band_facing_out (fun _ => mkEuler 0 0 0) (fun _ => 0.5)
           Hs ["a.png"%string; "b.png"%string] 0%nat).
Defined.

Section GalleryFirstAndClear.

Import PhotoGallery.

Variable faceOutward : Vector3 -> Euler.
Variable s : nat -> R.

Lemma attemptLoop_nothing_placed (k n : nat) :
  fst (attemptLoop (S k) [] s n) = Some (fst (drawCandidate s n)).
Proof.
  cbn [attemptLoop]. unfold bind at 1.
  destruct (drawCandidate s n) as [cand n']. reflexivity.
Qed.

Lemma placePhoto_keeps_head (count i : nat) (tr : list (LayoutEntry * bool))
      (n : nat) (head : LayoutEntry * bool) :
  nth_error tr 0 = Some head ->
  nth_error (fst (placePhoto faceOutward count i tr s n)) 0 = Some head.
Proof.
  intros Hhead.
  destruct (placePhoto_appends faceOutward s count i tr n)
    as (e & valid & -> & _).
  destruct tr; [discriminate | exact Hhead].
Qed.

(** X12: With nothing placed yet there is nothing to collide with: the first
    photo of a non-empty list is always placed by the random search, at the
    first candidate drawn, and later placements never move it. *)
Theorem first_photo_found_by_search (photos : list string) (n : nat)
        (Hne : photos <> []) :
  exists e,
    nth_error (fst (layoutTrace faceOutward photos s n)) 0 = Some (e, true)
    /\ treePos e = fst (drawCandidate s n)
    /\ nth_error (fst (layoutData faceOutward photos s n)) 0 = Some e.
Proof.
  destruct photos as [| url rest]; [congruence |].
  assert (Htrace : exists e,
             nth_error (fst (layoutTrace faceOutward (url :: rest) s n)) 0
             = Some (e, true)
             /\ treePos e = fst (drawCandidate s n)).
  { unfold layoutTrace, forLoop. cbn [List.length forLoopFrom].
    unfold bind at 1.
    destruct (placePhoto_appends faceOutward s (S (List.length rest)) 0 [] n)
      as (e & valid & Happ & Hnew).
    unfold maxAttempts in Hnew. cbn [map] in Hnew.
    rewrite attemptLoop_nothing_placed in Hnew. destruct Hnew as [-> Hpos].
    destruct (placePhoto faceOutward (S (List.length rest)) 0 [] s n)
      as [tr1 n1].
    cbn [fst] in Happ. subst tr1. exists e. split; [| exact Hpos].
    apply (forLoopFrom_invariant
             (placePhoto faceOutward (S (List.length rest))) s
             (fun tr => nth_error tr 0 = Some (e, true))).
    - intros i acc m Hacc. now apply placePhoto_keeps_head.
    - reflexivity. }
  destruct Htrace as (e & Hhead & Hpos).
  exists e. split; [exact Hhead |]. split; [exact Hpos |].
  unfold layoutData, bind.
  destruct (layoutTrace faceOutward (url :: rest) s n) as [tr n'].
  cbn [fst] in *. destruct tr as [| [e0 v0] tr]; [discriminate |].
  simpl in *. congruence.
Qed.

(** X13: A placement found by the random search is at least the minimum
    distance 3.6 away from every placement made before it, fallback
    placements included; so an overlap can only arise when the later of the
    two placements is a fallback. *)
Theorem search_placement_clear_of_earlier (photos : list string) (n : nat)
        (i j : nat) (ei ej : LayoutEntry) (vi vj : bool)
        (Hij : (i < j)%nat)
        (Hi : nth_error (fst (layoutTrace faceOutward photos s n)) i
              = Some (ei, vi))
        (Hj : nth_error (fst (layoutTrace faceOutward photos s n)) j
              = Some (ej, vj)) :
  (vj = true -> 3.6 <= Vec.distanceTo (treePos ej) (treePos ei))
  /\ (Vec.distanceTo (treePos ej) (treePos ei) < 3.6 ->
      vj = false /\ treePos ej = getSpiralPos j (List.length photos)).
Proof.
  destruct (layoutTrace_invariant faceOutward s photos n)
    as (_ & Hsep & Hfall).
  assert (Hclear : vj = true ->
                   3.6 <= Vec.distanceTo (treePos ej) (treePos ei)).
  { intros ->. change 3.6 with minDistance.
    exact (Hsep i j ei vi ej Hij Hi Hj). }
  split; [exact Hclear |].
  intros Hnear. destruct vj.
  - specialize (Hclear eq_refl). lra.
  - split; [reflexivity |]. exact (Hfall j ej Hj).
Qed.

End GalleryFirstAndClear.

Lemma first_photo_found_by_search_witness :
  exists e,
    nth_error (fst (PhotoGallery.layoutTrace
                      (fun _ => mkEuler 0 0 0)
                      ["a.png"%string; "b.png"%string] (fun _ => 0.5) 0%nat))
              0 = Some (e, true).
Proof.
  destruct (first_photo_found_by_search
              (fun _ => mkEuler 0 0 0) (fun _ => 0.5)
              ["a.png"%string; "b.png"%string] 0%nat ltac:(discriminate))
    as (e & He & _).
  exists e. exact He.
Defined.

Lemma search_placement_clear_of_earlier_witness :
  exists ei ej vi vj,
    nth_error (fst (PhotoGallery.layoutTrace
                      (fun _ => mkEuler 0 0 0)
                      ["a.png"%string; "b.png"%string] (fun _ => 0.5) 0%nat))
              0 = Some (ei, vi)
    /\ nth_error (fst (PhotoGallery.layoutTrace
                      (fun _ => mkEuler 0 0 0)
                      ["a.png"%string; "b.png"%string] (fun _ => 0.5) 0%nat))
              1 = Some (ej, vj)
    /\ (vj = true ->
        3.6 <= Vec.distanceTo (PhotoGallery.treePos ej)
                              (PhotoGallery.treePos ei)).
Proof.
  destruct (layoutTrace_invariant (fun _ => mkEuler 0 0 0) (fun _ => 0.5)
              ["a.png"%string; "b.png"%string] 0%nat) as (Hlen & _ & _).
  destruct (nth_error
              (fst (PhotoGallery.layoutTrace
                      (fun _ => mkEuler 0 0 0)
                      ["a.png"%string; "b.png"%string] (fun _ => 0.5) 0%nat))
              0) as [[ei vi] |] eqn:H0.
  - destruct (nth_error
                (fst (PhotoGallery.layoutTrace
                        (fun _ => mkEuler 0 0 0)
                        ["a.png"%string; "b.png"%string] (fun _ => 0.5) 0%nat))
                1) as [[ej vj] |] eqn:H1.
    + exists ei, ej, vi, vj. split; [reflexivity |]. split; [reflexivity |].
      exact (proj1 (search_placement_clear_of_earlier
                      (fun _ => mkEuler 0 0 0) (fun _ => 0.5)
                      ["a.png"%string; "b.png"%string] 0%nat 0 1 ei ej vi vj
                      ltac:(lia) H0 H1)).
    + exfalso. apply nth_error_None in H1. rewrite Hlen in H1. simpl in H1. lia.
  - exfalso. apply nth_error_None in H0. rewrite Hlen in H0. simpl in H0. lia.
Defined.

(** ** Carousel: direction of scrolling, magnification, the centred panel *)

Section CarouselMotion.

Import Carousel.

Lemma cyclePhase_range (t : R) : 0 <= t -> 0 <= cyclePhase t < CYCLE_DURATION.
Proof.
  intros Ht. pose proof CYCLE_DURATION_pos as Hc.
  unfold cyclePhase. apply rem_sign_pos; [exact Hc |].
  apply Rmult_le_pos; [exact Ht | left; now apply Rinv_0_lt_compat].
Qed.

Lemma moveProgress_range (p : R) :
  HOLD_DURATION < p < CYCLE_DURATION ->
  0 <= (p - HOLD_DURATION) / MOVE_DURATION <= 1.
Proof.
  unfold CYCLE_DURATION, HOLD_DURATION, MOVE_DURATION. intros [Hlo Hhi].
  split.
  - apply Rmult_le_pos; [lra | ]. left. apply Rinv_0_lt_compat. lra.
  - apply Rmult_le_reg_r with 0.8; [lra |].
    unfold Rdiv. rewrite Rmult_assoc, Rinv_l by lra. lra.
Qed.

Lemma moveProgress_mono (p1 p2 : R) :
  p1 <= p2 ->
  (p1 - HOLD_DURATION) / MOVE_DURATION <= (p2 - HOLD_DURATION) / MOVE_DURATION.
Proof.
  unfold HOLD_DURATION, MOVE_DURATION. intros H.
  apply Rmult_le_compat_r; [| lra].
  left. apply Rinv_0_lt_compat. lra.
Qed.

Lemma scrollIndex_bounds (t : R) :
  0 <= t -> cycleIndex t <= scrollIndex t <= cycleIndex t + 1.
Proof.
  intros Ht. pose proof (cyclePhase_range t Ht) as Hp. unfold scrollIndex.
  destruct (Rlt_dec HOLD_DURATION (cyclePhase t)) as [Hmove | Hhold]; [| lra].
  pose proof (moveProgress_range (cyclePhase t) (conj Hmove (proj2 Hp))) as Hm.
  pose proof (easeInOutCubic_range _ Hm). lra.
Qed.

(** X14: The carousel never scrolls backwards: from time 0 on the scroll index
    is non-decreasing in time, and within each cycle it stays between the
    number of completed cycles and one more. *)
Theorem scrollIndex_never_goes_back (t1 t2 : R)
        (H0 : 0 <= t1) (H12 : t1 <= t2) :
  scrollIndex t1 <= scrollIndex t2
  /\ cycleIndex t1 <= scrollIndex t1 <= cycleIndex t1 + 1.
Proof.
  split; [| now apply scrollIndex_bounds].
  assert (H2 : 0 <= t2) by lra.
  pose proof CYCLE_DURATION_pos as Hc.
  assert (Hq : t1 / CYCLE_DURATION <= t2 / CYCLE_DURATION).
  { apply Rmult_le_compat_r; [left; now apply Rinv_0_lt_compat | exact H12]. }
  pose proof (Zfloor_le _ _ Hq) as Hfl.
  destruct (Z.eq_dec (Zfloor (t1 / CYCLE_DURATION))
                     (Zfloor (t2 / CYCLE_DURATION))) as [Heq | Hneq].
  - assert (Hidx : cycleIndex t1 = cycleIndex t2).
    { unfold cycleIndex, JSMath.floor. now rewrite Heq. }
    pose proof (cyclePhase_nonneg t1 H0) as Hp1.
    pose proof (cyclePhase_nonneg t2 H2) as Hp2.
    assert (Hp : cyclePhase t1 <= cyclePhase t2) by (rewrite Hp1, Hp2, Hidx; lra).
    pose proof (cyclePhase_range t1 H0) as Hr1.
    pose proof (cyclePhase_range t2 H2) as Hr2.
    unfold scrollIndex. rewrite Hidx.
    destruct (Rlt_dec HOLD_DURATION (cyclePhase t1)) as [Hm1 | Hh1];
      destruct (Rlt_dec HOLD_DURATION (cyclePhase t2)) as [Hm2 | Hh2].
    + apply Rplus_le_compat_l. apply easeInOutCubic_mono.
      * apply (moveProgress_range (cyclePhase t1)). lra.
      * now apply moveProgress_mono.
      * apply (moveProgress_range (cyclePhase t2)). lra.
    + lra.
    + pose proof (moveProgress_range (cyclePhase t2) (conj Hm2 (proj2 Hr2)))
        as Hm.
      pose proof (easeInOutCubic_range _ Hm). lra.
    + lra.
  - assert (Hstep : (Zfloor (t1 / CYCLE_DURATION) + 1
                     <= Zfloor (t2 / CYCLE_DURATION))%Z) by lia.
    apply IZR_le in Hstep. rewrite plus_IZR in Hstep.
    pose proof (scrollIndex_bounds t1 H0) as Hb1.
    pose proof (scrollIndex_bounds t2 H2) as Hb2.
    unfold cycleIndex, JSMath.floor in Hb1, Hb2. lra.
Qed.

Lemma scrollIndex_never_goes_back_witness :
  scrollIndex 1.2 <= scrollIndex 4.
Proof.
  apply (scrollIndex_never_goes_back 1.2 4); lra.
Defined.

(** X15: The magnification of a panel and its push toward the camera go
    together: the target scale lies between 0.6 and 1.4 times the base
    scale, the target depth between 20 and 24, and the scale is the base
    scale times 0.6 plus a fifth of the push.  Every panel is aimed at one
    eighth of the visible height above the centre. *)
Theorem carousel_scale_follows_depth (index total : nat)
        (baseScaleVal visibleHeightAtDepth time : R)
        (Hb : 0 < baseScaleVal) :
  let tg := carouselTarget index total baseScaleVal visibleHeightAtDepth time in
  0.6 * baseScaleVal <= finalTargetScale tg <= 1.4 * baseScaleVal
  /\ Z_DEPTH_EXPLODE <= vz (targetPos tg) <= Z_DEPTH_EXPLODE + 4
  /\ finalTargetScale tg
     = baseScaleVal * (0.6 + 0.2 * (vz (targetPos tg) - Z_DEPTH_EXPLODE))
  /\ vy (targetPos tg) = visibleHeightAtDepth / 8.
Proof.
  unfold carouselTarget. cbv zeta.
  set (stride := 1.4 * baseScaleVal + 1.4 * baseScaleVal * 0.1).
  set (x := panelX index total stride (scrollIndex time)).
  assert (Hstride : 0 < stride * 1.0) by (unfold stride; lra).
  destruct (Rlt_dec (Rabs x) (stride * 1.0)) as [Hnear | Hfar]; cbn.
  - assert (Ht : 0 <= Rabs x / (stride * 1.0) <= 1).
    { pose proof (Rabs_pos x) as Hx. split.
      - apply Rmult_le_pos; [exact Hx | left; now apply Rinv_0_lt_compat].
      - apply Rmult_le_reg_r with (stride * 1.0); [exact Hstride |].
        unfold Rdiv. rewrite Rmult_assoc, Rinv_l by lra. lra. }
    pose proof (easeInOutCubic_range _ Ht) as He.
    set (e := easeInOutCubic (Rabs x / (stride * 1.0))) in *.
    unfold Z_DEPTH_EXPLODE.
    repeat split; try reflexivity; nra.
  - unfold Z_DEPTH_EXPLODE. repeat split; try reflexivity; nra.
Qed.

Lemma carousel_scale_follows_depth_witness :
  0.6 * 2 <= finalTargetScale (carouselTarget 1 5 2 11 3.3) <= 1.4 * 2.
Proof.
  apply (carousel_scale_follows_depth 1 5 2 11 3.3). lra.
Defined.

Lemma rem_multiple (q : nat) (w : R) :
  0 < w -> JSMath.rem (- (INR q * w)) w = 0.
Proof.
  intros Hw. unfold JSMath.rem, JSMath.trunc.
  replace (- (INR q * w) / w) with (IZR (- Z.of_nat q))
    by (rewrite opp_IZR, <- INR_IZR_INZ; field; lra).
  rewrite ZfloorZ.
  rewrite (Zceil_eq (- Z.of_nat q)) by lra.
  destruct (Rle_dec 0 (IZR (- Z.of_nat q)));
    rewrite opp_IZR, <- INR_IZR_INZ; ring.
Qed.

Lemma panelX_centred (index total q : nat) (itemStride : R) :
  (0 < total)%nat -> 0 < itemStride ->
  panelX index total itemStride (INR (index + q * total)) = 0.
Proof.
  intros Htotal Hstride. unfold panelX, wrapX. cbv zeta.
  assert (Hw : 0 < INR total * itemStride).
  { apply Rmult_lt_0_compat; [| exact Hstride].
    apply lt_0_INR. exact Htotal. }
  replace (INR index * itemStride - INR (index + q * total) * itemStride)
    with (- (INR q * (INR total * itemStride)))
    by (rewrite plus_INR, mult_INR; ring).
  rewrite rem_multiple by exact Hw.
  destruct (Rlt_dec 0 (- (INR total * itemStride) / 2)) as [H1 | H1]; [lra |].
  destruct (Rlt_dec (INR total * itemStride / 2) 0) as [H2 | H2]; [lra |].
  reflexivity.
Qed.

(** X16: During the HOLD part of a cycle the panel whose index equals the
    number of completed cycles modulo the number of panels is aimed at the
    exact centre, at the full push of 4 toward the camera, and at a scale of
    a quarter of the visible height. *)
Theorem centred_panel_during_hold (index total q : nat)
        (visibleHeightAtDepth p : R)
        (Hidx : (index < total)%nat)
        (Hvis : 0 < visibleHeightAtDepth)
        (Hp : 0 <= p <= HOLD_DURATION) :
  let time := INR (index + q * total) * CYCLE_DURATION + p in
  let tg := carouselTarget index total
              (GalleryFrame.baseScaleVal EXPLODE visibleHeightAtDepth)
              visibleHeightAtDepth time in
  targetPos tg = mkVector3 0 (visibleHeightAtDepth / 8) (Z_DEPTH_EXPLODE + 4)
  /\ finalTargetScale tg = visibleHeightAtDepth / 4.
Proof.
  intros time tg.
  assert (Hphase : 0 <= p < CYCLE_DURATION)
    by (unfold CYCLE_DURATION, HOLD_DURATION, MOVE_DURATION in *; lra).
  destruct (cyclePhase_of_offset (index + q * total) p Hphase) as [Hci Hcp].
  fold time in Hci, Hcp.
  assert (Hscroll : scrollIndex time = INR (index + q * total)).
  { rewrite scrollIndex_hold by (rewrite Hcp; lra). exact Hci. }
  unfold tg, carouselTarget. cbv zeta. rewrite Hscroll.
  unfold GalleryFrame.baseScaleVal.
  set (b := visibleHeightAtDepth / 4 / 1.4).
  assert (Hb : 0 < b) by (unfold b; lra).
  set (stride := 1.4 * b + 1.4 * b * 0.1).
  assert (Hstride : 0 < stride) by (unfold stride; lra).
  rewrite panelX_centred by (try lia; exact Hstride).
  rewrite Rabs_R0.
  destruct (Rlt_dec 0 (stride * 1.0)) as [_ | Hn]; [| lra].
  assert (He : easeInOutCubic (0 / (stride * 1.0)) = 0).
  { unfold Rdiv. rewrite Rmult_0_l.
    rewrite easeInOutCubic_lo by lra. unfold easeIn_arm. ring. }
  rewrite !He. cbn.
  split.
  - f_equal; lra.
  - unfold b. lra.
Qed.

Lemma centred_panel_during_hold_witness :
  finalTargetScale
    (carouselTarget 2 5 (GalleryFrame.baseScaleVal EXPLODE 12) 12
                    (INR (2 + 1 * 5) * CYCLE_DURATION + 0.5))
  = 12 / 4.
Proof.
  apply (centred_panel_during_hold 2 5 1 12 0.5).
  - lia.
  - lra.
  - unfold HOLD_DURATION. lra.
Defined.

End CarouselMotion.

(** ** Smoothing of a panel toward its target *)

Section PanelSmoothing.

Import GalleryFrame.

Lemma distanceTo_lerp_any (c t : Vector3) (alpha : R) :
  Vec.distanceTo (Vec.lerp c t alpha) t
  = Rabs (1 - alpha) * Vec.distanceTo c t.
Proof.
  unfold Vec.distanceTo.
  replace (Vec.distanceToSquared (Vec.lerp c t alpha) t)
    with ((1 - alpha)² * Vec.distanceToSquared c t)
    by (unfold Vec.distanceToSquared, Vec.lerp, Rsqr; simpl; ring).
  rewrite sqrt_mult by (try apply distanceToSquared_nonneg; apply Rle_0_sqr).
  now rewrite sqrt_Rsqr_abs.
Qed.

Lemma carouselTarget_height (index total : nat)
      (baseScaleVal visibleHeightAtDepth time : R) :
  vy (Carousel.targetPos
        (Carousel.carouselTarget index total baseScaleVal
                                 visibleHeightAtDepth time))
  = visibleHeightAtDepth / 8.
Proof.
  unfold Carousel.carouselTarget. cbv zeta.
  destruct (Rlt_dec _ _); reflexivity.
Qed.

(** X17: One smoothing step multiplies the distance of the panel from its
    target, and the gap between its scale and the target scale, by the
    magnitude of one minus delta times the speed: the factor is not
    clamped, so it is below one only for delta times speed strictly
    between 0 and 2. *)
Theorem panel_smoothing_scales_the_gap (appState : AppState) (delta : R)
        (target : Carousel.Target) (r : FrameRefs) :
  let r' := smooth appState delta target r in
  Vec.distanceTo (currentPos r') (Carousel.targetPos target)
  = Rabs (1 - delta * lerpSpeed appState)
    * Vec.distanceTo (currentPos r) (Carousel.targetPos target)
  /\ Rabs (currentScale r' - Carousel.finalTargetScale target)
     = Rabs (1 - delta * lerpSpeed appState)
       * Rabs (currentScale r - Carousel.finalTargetScale target).
Proof.
  cbn. split.
  - apply distanceTo_lerp_any.
  - rewrite <- Rabs_mult. f_equal. unfold JSMath.lerp. ring.
Qed.

(** X18: In the carousel a frame longer than a quarter of a second throws a
    panel that is off its target past it and farther away than it was; a
    frame of exactly an eighth of a second puts it on the target. *)
Theorem carousel_panel_overshoots_on_slow_frame (index total : nat)
        (visibleHeightAtDepth time delta : R) (r : FrameRefs)
        (Hslow : 0.25 < delta)
        (Hoff : currentPos r
                <> Carousel.targetPos
                     (Carousel.carouselTarget index total
                        (baseScaleVal EXPLODE visibleHeightAtDepth)
                        visibleHeightAtDepth time)) :
  let tg := Carousel.carouselTarget index total
              (baseScaleVal EXPLODE visibleHeightAtDepth)
              visibleHeightAtDepth time in
  Vec.distanceTo (currentPos r) (Carousel.targetPos tg)
  < Vec.distanceTo
      (currentPos (carouselFrame index total visibleHeightAtDepth time delta r))
      (Carousel.targetPos tg)
  /\ currentPos (carouselFrame index total visibleHeightAtDepth time 0.125 r)
     = Carousel.targetPos tg.
Proof.
  intros tg. fold tg in Hoff. unfold carouselFrame. fold tg. cbn.
  split.
  - rewrite distanceTo_lerp_any.
    pose proof (distanceTo_nonneg (currentPos r) (Carousel.targetPos tg)) as Hd.
    assert (Hpos : 0 < Vec.distanceTo (currentPos r) (Carousel.targetPos tg)).
    { destruct Hd as [Hd | Hd]; [exact Hd |].
      exfalso. apply Hoff. apply distanceTo_zero. now symmetry. }
    rewrite Rabs_left by lra. nra.
  - replace (0.125 * 8.0) with 1 by lra. apply lerp_one.
Qed.

Lemma carousel_panel_overshoots_on_slow_frame_witness :
  Vec.distanceTo
    (currentPos Scenes.farPanel)
    (Carousel.targetPos
       (Carousel.carouselTarget 0 3 (baseScaleVal EXPLODE 11.2) 11.2 0.5))
  < Vec.distanceTo
      (currentPos (carouselFrame 0 3 11.2 0.5 0.3 Scenes.farPanel))
      (Carousel.targetPos
         (Carousel.carouselTarget 0 3 (baseScaleVal EXPLODE 11.2) 11.2 0.5)).
Proof.
  apply (carousel_panel_overshoots_on_slow_frame 0 3 11.2 0.5 0.3
                                                 Scenes.farPanel).
  - lra.
  - intros Heq.
    pose proof (carouselTarget_height 0 3 (baseScaleVal EXPLODE 11.2) 11.2 0.5)
      as Hy.
    rewrite <- Heq in Hy. unfold Scenes.farPanel in Hy. cbn in Hy. lra.
Defined.

End PanelSmoothing.

(** ** Rotation of the tree group *)

Section GroupRotation.

Import Experience.

Lemma clamp_range (v lo hi : R) :
  lo <= hi -> lo <= JSMath.clamp v lo hi <= hi.
Proof.
  intros H. unfold JSMath.clamp, Rmax, Rmin.
  destruct (Rle_dec hi v); destruct (Rle_dec lo _); lra.
Qed.

Lemma maxDragSpeed_pos (appState : AppState) : 0 < maxDragSpeed appState.
Proof. unfold maxDragSpeed, baseSpeed. destruct appState; lra. Qed.

(** X19: Whatever the hand does, a frame of at most one second leaves the tilt
    of the tree within half a radian of upright. *)
Theorem tilt_stays_in_range (appState : AppState)
        (handState : HandGestureState) (time delta : R) (r : ExperienceRefs)
        (Hdelta : 0 <= delta <= 1) :
  -0.5 <= rotationX (useFrame appState handState time delta r) <= 0.5.
Proof.
  unfold useFrame. cbv zeta. cbn [rotationX].
  match goal with
  | |- context [JSMath.clamp ?v (-0.5) 0.5] =>
      pose proof (clamp_range v (-0.5) 0.5 ltac:(lra)) as Hc;
      set (tilt := JSMath.clamp v (-0.5) 0.5) in *
  end.
  destruct (Rlt_dec 1.0 _); [| exact Hc].
  unfold JSMath.lerp. nra.
Qed.

Lemma tilt_stays_in_range_witness :
  -0.5 <= rotationX (useFrame TREE Scenes.openHand 3 0.016 Scenes.restingRefs)
       <= 0.5.
Proof.
  apply (tilt_stays_in_range TREE Scenes.openHand 3 0.016 Scenes.restingRefs).
  lra.
Defined.

(** X20: The hand can slow the automatic turn, reverse it and speed it up, but
    only so far: over a frame the yaw changes by no less than minus twice
    and no more than four times the base speed times delta. *)
Theorem yaw_rate_bounded (appState : AppState)
        (handState : HandGestureState) (time delta : R) (r : ExperienceRefs)
        (Hdelta : 0 <= delta) :
  - 2 * baseSpeed appState * delta
  <= rotationY (useFrame appState handState time delta r) - rotationY r
  <= 4 * baseSpeed appState * delta.
Proof.
  unfold useFrame. cbv zeta. cbn [rotationY].
  pose proof (maxDragSpeed_pos appState) as Hm.
  match goal with
  | |- context [JSMath.clamp ?v (- maxDragSpeed appState) _] =>
      pose proof (clamp_range v (- maxDragSpeed appState)
                              (maxDragSpeed appState) ltac:(lra)) as Hc;
      set (vel := JSMath.clamp v (- maxDragSpeed appState)
                               (maxDragSpeed appState)) in *
  end.
  unfold maxDragSpeed in Hc.
  assert (Hb : 0 < baseSpeed appState) by (destruct appState; cbn; lra).
  nra.
Qed.

Lemma yaw_rate_bounded_witness :
  rotationY (useFrame TREE Scenes.openHand 3 0.016 Scenes.restingRefs)
  - rotationY Scenes.restingRefs
  <= 4 * baseSpeed TREE * 0.016.
Proof.
  apply (yaw_rate_bounded TREE Scenes.openHand 3 0.016 Scenes.restingRefs).
  lra.
Defined.

Lemma useFrame_no_hand_velocity (appState : AppState)
      (handState : HandGestureState) (time delta : R) (r : ExperienceRefs) :
  isHandDetected handState = false ->
  currentVelocity (useFrame appState handState time delta r)
  = mkPoint2 (0.9 * px (currentVelocity r)) (0.9 * py (currentVelocity r)).
Proof.
  intros Hno. unfold useFrame, targetVelocity. cbv zeta. rewrite Hno.
  cbn [currentVelocity px py]. unfold JSMath.lerp. f_equal; lra.
Qed.

(** X21: Without a hand in view the drag velocity loses a tenth of itself on
    every frame, however long the frame lasts: after n such frames it is
    0.9 to the power n times what it was. *)
Theorem drag_velocity_decays_without_hand (appState : AppState)
        (ticks : list Tick) (r : ExperienceRefs)
        (Hnone : Forall (fun tk => isHandDetected (tickHand tk) = false) ticks) :
  px (currentVelocity (runFrames appState ticks r))
  = 0.9 ^ List.length ticks * px (currentVelocity r)
  /\ py (currentVelocity (runFrames appState ticks r))
     = 0.9 ^ List.length ticks * py (currentVelocity r).
Proof.
  revert r. induction Hnone as [| tk rest Htk _ IH]; intros r.
  - cbn. lra.
  - unfold runFrames in *. cbn [fold_left List.length].
    destruct (IH (useFrame appState (tickHand tk) (tickTime tk) (tickDelta tk) r))
      as [IHx IHy].
    rewrite IHx, IHy.
    rewrite (useFrame_no_hand_velocity appState _ _ _ r Htk).
    cbn [px py pow]. split; ring.
Qed.

Lemma drag_velocity_decays_without_hand_witness :
  px (currentVelocity (runFrames EXPLODE Scenes.idleTicks Scenes.restingRefs))
  = 0.9 ^ 2 * 2.
Proof.
  apply (drag_velocity_decays_without_hand EXPLODE Scenes.idleTicks
                                           Scenes.restingRefs).
  unfold Scenes.idleTicks. repeat constructor.
Defined.

(** X22: When a hand comes into view, the frame that sees the hand state the
    engagement effect saw adds no drag: the velocity is zero, the yaw
    advances by the automatic turn alone, and the hand position is kept as
    the reference for the next frame. *)
Theorem hand_engagement_adds_no_drag (appState : AppState)
        (handState : HandGestureState) (time delta : R) (r : ExperienceRefs)
        (Hhand : isHandDetected handState = true)
        (Hnone : lastHandPos r = None) :
  let r' := useFrame appState handState time delta (handEffect handState r) in
  currentVelocity r' = mkPoint2 0 0
  /\ rotationY r' = rotationY r + baseSpeed appState * delta
  /\ lastHandPos r'
     = Some (mkPoint2 (px (handPosition handState))
                      (py (handPosition handState))).
Proof.
  intros r'. unfold r', handEffect. rewrite Hhand, Hnone.
  unfold useFrame, targetVelocity. cbv zeta.
  cbn [lastHandPos currentVelocity rotationY rotationX px py].
  rewrite Hhand.
  cbn [lastHandPos currentVelocity rotationY rotationX px py].
  pose proof (maxDragSpeed_pos appState) as Hm.
  assert (Hzero : forall a b : R, JSMath.lerp 0 ((a - a) / b * 5.0) 0.1 = 0).
  { intros a b. unfold JSMath.lerp, Rdiv. ring. }
  rewrite !Hzero.
  assert (Hclamp : JSMath.clamp 0 (- maxDragSpeed appState)
                                (maxDragSpeed appState) = 0).
  { unfold JSMath.clamp, Rmax, Rmin.
    destruct (Rle_dec (maxDragSpeed appState) 0);
      destruct (Rle_dec (- maxDragSpeed appState) _); lra. }
  rewrite Hclamp.
  split; [reflexivity |]. split; [lra | reflexivity].
Qed.

Lemma hand_engagement_adds_no_drag_witness :
  currentVelocity
    (useFrame TREE Scenes.openHand 3 0.016
              (handEffect Scenes.openHand Scenes.restingRefs))
  = mkPoint2 0 0.
Proof.
  apply (hand_engagement_adds_no_drag TREE Scenes.openHand 3 0.016
                                      Scenes.restingRefs);
    reflexivity.
Defined.

End GroupRotation.

(** ** Trajectory of the dog *)

Section DogTrajectory.

Import CyberDog.

Lemma length_subVectors (a b : Vector3) :
  Vec.length (subVectors a b) = Vec.distanceTo b a.
Proof.
  unfold Vec.length, Vec.distanceTo, Vec.lengthSq, Vec.distanceToSquared,
    subVectors.
  cbn. f_equal. ring.
Qed.

Lemma distanceTo_from_lerp (c t : Vector3) (alpha : R) :
  0 <= alpha ->
  Vec.distanceTo c (Vec.lerp c t alpha) = alpha * Vec.distanceTo c t.
Proof.
  intros Ha. unfold Vec.distanceTo.
  replace (Vec.distanceToSquared c (Vec.lerp c t alpha))
    with (alpha² * Vec.distanceToSquared c t)
    by (unfold Vec.distanceToSquared, Vec.lerp, Rsqr; simpl; ring).
  rewrite sqrt_mult by (try apply distanceToSquared_nonneg; apply Rle_0_sqr).
  now rewrite sqrt_Rsqr.
Qed.

(** A step that is taken is an interpolation toward the target by the
    fraction of the remaining distance it covers. *)
Lemma moveToward_far (appState : AppState) (delta : R)
      (current target : Vector3) :
  0.1 < Vec.distanceTo current target ->
  moveToward appState delta current target
  = Vec.lerp current target
             (Rmin (Vec.distanceTo current target)
                   (moveSpeedUnits appState * delta)
              / Vec.distanceTo current target).
Proof.
  intros Hfar. unfold moveToward, normalize. cbv zeta.
  rewrite length_subVectors.
  set (d := Vec.distanceTo current target) in *.
  destruct (Rlt_dec 0.1 d) as [_ | Hn]; [| contradiction].
  destruct (Req_dec_T d 0) as [Hz | Hnz]; [lra |].
  set (step := Rmin d (moveSpeedUnits appState * delta)).
  destruct current as [c1 c2 c3], target as [t1 t2 t3].
  unfold Vec.add, Vec.lerp, multiplyScalar, subVectors. cbn.
  f_equal; field; exact Hnz.
Qed.

Lemma moveToward_near (appState : AppState) (delta : R)
      (current target : Vector3) :
  Vec.distanceTo current target <= 0.1 ->
  moveToward appState delta current target = current.
Proof.
  intros Hnear. unfold moveToward. cbv zeta. rewrite length_subVectors.
  destruct (Rlt_dec 0.1 _) as [Hf | _]; [lra | reflexivity].
Qed.

Lemma moveToward_distance (appState : AppState) (delta : R)
      (current target : Vector3) :
  0 <= delta ->
  let d := Vec.distanceTo current target in
  Vec.distanceTo (moveToward appState delta current target) target
  = (if Rlt_dec 0.1 d then d - Rmin d (moveSpeedUnits appState * delta) else d)
  /\ Vec.distanceTo current (moveToward appState delta current target)
     <= moveSpeedUnits appState * delta.
Proof.
  intros Hdelta d.
  assert (Hspeed : 0 <= moveSpeedUnits appState * delta).
  { apply Rmult_le_pos; [destruct appState; cbn; lra | exact Hdelta]. }
  destruct (Rlt_dec 0.1 d) as [Hfar | Hnear].
  - rewrite moveToward_far by exact Hfar. fold d.
    set (step := Rmin d (moveSpeedUnits appState * delta)).
    assert (Hstep : 0 <= step <= d /\ step <= moveSpeedUnits appState * delta).
    { unfold step, Rmin. destruct (Rle_dec d _); lra. }
    assert (Hfrac : 0 <= step / d <= 1).
    { split.
      - apply Rmult_le_pos; [lra | left; apply Rinv_0_lt_compat; lra].
      - apply Rmult_le_reg_r with d; [lra |].
        unfold Rdiv. rewrite Rmult_assoc, Rinv_l by lra. lra. }
    rewrite distanceTo_lerp by exact Hfrac.
    rewrite distanceTo_from_lerp by lra. fold d.
    split.
    + field. lra.
    + replace (step / d * d) with step by (field; lra). lra.
  - rewrite moveToward_near by (fold d; lra).
    rewrite distanceTo_self. fold d. split; [reflexivity | exact Hspeed].
Qed.

Lemma useFrame_parts (appState : AppState) (t delta : R) (r : DogRefs)
      (s : nat -> R) (n : nat) :
  let out := useFrame appState t delta r s n in
  targetPos (fst out) = fst (nextTarget appState t r s n)
  /\ snd out = snd (nextTarget appState t r s n)
  /\ currentPos (fst out)
     = moveToward appState delta (currentPos r)
                  (fst (nextTarget appState t r s n)).
Proof.
  unfold useFrame, bind, ret.
  destruct (nextTarget appState t r s n) as [tg n']. cbn.
  repeat split.
Qed.

(** X23: The dog never overshoots and never exceeds its speed: for a frame with
    delta at least 0, if the target of the frame is more than 0.1 away the
    dog ends exactly the step closer to it, the step being the smaller of
    the distance and the mode's speed times delta; otherwise it stays where
    it is; and the dog never travels farther than speed times delta. *)
Theorem dog_step_never_overshoots (appState : AppState) (t delta : R)
        (r : DogRefs) (s : nat -> R) (n : nat) (Hdelta : 0 <= delta) :
  let r' := fst (useFrame appState t delta r s n) in
  let d := Vec.distanceTo (currentPos r) (targetPos r') in
  Vec.distanceTo (currentPos r') (targetPos r')
  = (if Rlt_dec 0.1 d then d - Rmin d (moveSpeedUnits appState * delta) else d)
  /\ Vec.distanceTo (currentPos r') (targetPos r') <= d
  /\ Vec.distanceTo (currentPos r) (currentPos r')
     <= moveSpeedUnits appState * delta.
Proof.
  intros r' d.
  destruct (useFrame_parts appState t delta r s n) as (Htg & _ & Hcur).
  fold r' in Htg, Hcur.
  destruct (moveToward_distance appState delta (currentPos r) (targetPos r')
                                Hdelta) as [Hdist Hmove].
  rewrite <- Htg in Hcur. rewrite <- Hcur in Hdist, Hmove. fold d in Hdist.
  split; [exact Hdist |]. split; [| exact Hmove].
  rewrite Hdist.
  assert (Hspeed : 0 <= moveSpeedUnits appState * delta).
  { apply Rmult_le_pos; [destruct appState; cbn; lra | exact Hdelta]. }
  pose proof (distanceTo_nonneg (currentPos r) (targetPos r')) as Hd.
  fold d in Hd.
  destruct (Rlt_dec 0.1 d); [| lra].
  unfold Rmin. destruct (Rle_dec d _); lra.
Qed.

Lemma dog_step_never_overshoots_witness :
  Vec.distanceTo
    (currentPos (fst (useFrame TREE 2 0.016 initialRefs (fun _ => 0.5) 0%nat)))
    (currentPos initialRefs)
  <= moveSpeedUnits TREE * 0.016.
Proof.
  rewrite distanceTo_sym.
  apply (dog_step_never_overshoots TREE 2 0.016 initialRefs (fun _ => 0.5)
                                   0%nat).
  lra.
Defined.

(** X24: In assembled mode the target of the dog circles the vertical line
    through x = 0, z = 2 at a distance between 13 and 17 and a height
    between -12.5 and -9.5, and the frame draws no random number. *)
Theorem dog_patrol_band (t delta : R) (r : DogRefs) (s : nat -> R) (n : nat) :
  let out := useFrame TREE t delta r s n in
  let tg := targetPos (fst out) in
  snd out = n
  /\ 13 ^ 2 <= vx tg * vx tg + (vz tg - 2) * (vz tg - 2) <= 17 ^ 2
  /\ -12.5 <= vy tg <= -9.5.
Proof.
  cbv zeta.
  destruct (useFrame_parts TREE t delta r s n) as (Htg & Hn & _).
  rewrite Htg, Hn. cbn [nextTarget ret fst snd].
  split; [reflexivity |].
  unfold patrolTarget. cbn [vx vy vz].
  pose proof (SIN_bound (t * 0.5)) as Hr.
  pose proof (SIN_bound (t * 1.2)) as Hh.
  pose proof (sin2_cos2 (t * 0.3)) as Hone. unfold Rsqr in Hone.
  set (rad := 15 + sin (t * 0.5) * 2.0).
  assert (Hrad : 13 <= rad <= 17) by (unfold rad; lra).
  replace (cos (t * 0.3) * rad * (cos (t * 0.3) * rad)
           + (sin (t * 0.3) * rad + 2 - 2) * (sin (t * 0.3) * rad + 2 - 2))
    with (rad * rad
          * (sin (t * 0.3) * sin (t * 0.3) + cos (t * 0.3) * cos (t * 0.3)))
    by ring.
  rewrite Hone. split; [nra | lra].
Qed.

Lemma pickWaypoint_in_box (s : nat -> R) (n : nat) :
  unitDraws s ->
  inWaypointBox (fst (pickWaypoint s n)) /\ snd (pickWaypoint s n) = (n + 3)%nat.
Proof.
  intros Hs. unfold pickWaypoint, bind, random, ret, inWaypointBox. cbn.
  pose proof (Hs n). pose proof (Hs (S n)). pose proof (Hs (S (S n))).
  repeat split; try lra. lia.
Qed.

(** X25: In dispersed mode the dog keeps its target until it is within one
    unit of it and then draws a fresh waypoint with three random numbers;
    with draws in [0,1) every fresh waypoint lies in the box
    [-12,12) x [-6,6) x [6,10), so a target inside the box is followed by
    a target inside the box, and the very first dispersed frame replaces
    the initial target, which is outside the box. *)
Theorem dog_waypoints_stay_in_box (t delta : R) (r : DogRefs)
        (s : nat -> R) (n : nat) (Hs : unitDraws s) :
  let out := useFrame EXPLODE t delta r s n in
  (Vec.distanceTo (currentPos r) (targetPos r) < 1 ->
   inWaypointBox (targetPos (fst out)) /\ snd out = (n + 3)%nat)
  /\ (1 <= Vec.distanceTo (currentPos r) (targetPos r) ->
      targetPos (fst out) = targetPos r /\ snd out = n)
  /\ (inWaypointBox (targetPos r) -> inWaypointBox (targetPos (fst out)))
  /\ ~ inWaypointBox (targetPos initialRefs)
  /\ inWaypointBox
       (targetPos (fst (useFrame EXPLODE t delta initialRefs s n))).
Proof.
  intros out.
  assert (Hstep : forall r0,
             let out0 := useFrame EXPLODE t delta r0 s n in
             (Vec.distanceTo (currentPos r0) (targetPos r0) < 1 ->
              inWaypointBox (targetPos (fst out0)) /\ snd out0 = (n + 3)%nat)
             /\ (1 <= Vec.distanceTo (currentPos r0) (targetPos r0) ->
                 targetPos (fst out0) = targetPos r0 /\ snd out0 = n)).
  { intros r0 out0.
    destruct (useFrame_parts EXPLODE t delta r0 s n) as (Htg & Hn & _).
    fold out0 in Htg, Hn. rewrite Htg, Hn. unfold nextTarget. cbv zeta.
    destruct (Rlt_dec (Vec.distanceTo (currentPos r0) (targetPos r0)) 1.0)
      as [Hnear | Hfar].
    - split; [intros _; now apply pickWaypoint_in_box | intros H; lra].
    - split; [intros H; lra | intros _; split; reflexivity]. }
  destruct (Hstep r) as [Hnear Hfar]. fold out in Hnear, Hfar.
  split; [exact Hnear |]. split; [exact Hfar |].
  split.
  { intros Hbox.
    destruct (Rlt_dec (Vec.distanceTo (currentPos r) (targetPos r)) 1)
      as [Hlt | Hge].
    - exact (proj1 (Hnear Hlt)).
    - destruct (Hfar ltac:(lra)) as [-> _]. exact Hbox. }
  split.
  { unfold inWaypointBox, initialRefs. cbn. lra. }
  destruct (Hstep initialRefs) as [Hinit _].
  apply Hinit. unfold initialRefs. cbn [currentPos targetPos].
  rewrite distanceTo_self. lra.
Qed.

Lemma dog_waypoints_stay_in_box_witness :
  inWaypointBox
    (targetPos (fst (useFrame EXPLODE 2 0.016 initialRefs (fun _ => 0.5)
                              0%nat))).
Proof.
  apply (dog_waypoints_stay_in_box 2 0.016 initialRefs (fun _ => 0.5) 0%nat).
  intros k. lra.
Defined.

End DogTrajectory.

(** ** Reading the hand *)

Section HandReading.

Import GestureController.

Lemma sqrt_below (q c : R) : 0 <= q -> 0 < c -> sqrt q < c <-> q < c * c.
Proof.
  intros Hq Hc. rewrite <- (sqrt_square c) at 1 by lra. split.
  - intros H. apply sqrt_lt_0_alt in H. exact H.
  - intros H. apply sqrt_lt_1_alt. lra.
Qed.

(** X26: With a hand in view whose index tip and wrist lie in the unit square
    of the camera image, the controller reports a detected hand, a cursor
    in the unit square mirrored left to right, and a rotation value between
    -2 and 2; it asks for the assembled mode exactly when the gesture is a
    pinch, which is exactly when thumb tip and index tip are less than 0.05
    apart, and for the dispersed mode otherwise, whatever the mode was. *)
Theorem hand_reading_ranges (hand : list Landmark)
        (others : list (list Landmark)) (thumbTip indexTip wrist : Landmark)
        (currentAppState : AppState)
        (H4 : nth_error hand 4 = Some thumbTip)
        (H8 : nth_error hand 8 = Some indexTip)
        (H0 : nth_error hand 0 = Some wrist)
        (Hindex : 0 <= lx indexTip <= 1 /\ 0 <= ly indexTip <= 1)
        (Hwrist : 0 <= lx wrist <= 1) :
  exists st mode,
    predictWebcam (hand :: others) currentAppState = Some (st, mode)
    /\ isHandDetected st = true
    /\ (mode = TREE <-> gesture st = PINCH)
    /\ (mode = EXPLODE <-> gesture st = OPEN)
    /\ (mode = TREE <->
        (lx thumbTip - lx indexTip) * (lx thumbTip - lx indexTip)
        + (ly thumbTip - ly indexTip) * (ly thumbTip - ly indexTip)
        < 0.0025)
    /\ px (handPosition st) + lx indexTip = 1
    /\ 0 <= px (handPosition st) <= 1
    /\ 0 <= py (handPosition st) <= 1
    /\ -2 <= rotationValue st <= 2.
Proof.
  unfold predictWebcam. rewrite H4, H8, H0. unfold readHand. cbv zeta.
  set (q := (lx thumbTip - lx indexTip) ^ 2 + (ly thumbTip - ly indexTip) ^ 2).
  assert (Hq : 0 <= q).
  { unfold q. pose proof (pow2_ge_0 (lx thumbTip - lx indexTip)).
    pose proof (pow2_ge_0 (ly thumbTip - ly indexTip)). lra. }
  assert (Hsq : (lx thumbTip - lx indexTip) * (lx thumbTip - lx indexTip)
                + (ly thumbTip - ly indexTip) * (ly thumbTip - ly indexTip)
                = q) by (unfold q; ring).
  rewrite Hsq.
  pose proof (sqrt_below q 0.05 Hq ltac:(lra)) as Hiff.
  replace (0.05 * 0.05) with 0.0025 in Hiff by lra.
  destruct Hindex as [Hix Hiy].
  destruct (Rlt_dec (sqrt q) 0.05) as [Hpinch | Hopen];
    eexists; eexists; (split; [reflexivity |]); cbn.
  - pose proof (proj1 Hiff Hpinch) as Hclose.
    repeat split; try lra; try discriminate; try reflexivity;
      intros _; exact Hclose.
  - assert (Hapart : ~ q < 0.0025) by (intros H; apply Hopen; now apply Hiff).
    repeat split; try lra; try discriminate; try reflexivity;
      intros H; contradiction.
Qed.

Lemma hand_reading_ranges_witness :
  exists st mode,
    predictWebcam [Scenes.pinchingHand] EXPLODE = Some (st, mode)
    /\ isHandDetected st = true.
Proof.
  destruct (hand_reading_ranges
              Scenes.pinchingHand []
              (mkLandmark 0.4 0.5) (mkLandmark 0.42 0.5) (mkLandmark 0.5 0.9)
              EXPLODE eq_refl eq_refl eq_refl)
    as (st & mode & Hres & Hseen & _).
  - cbn. lra.
  - cbn. lra.
  - exists st, mode. split; [exact Hres | exact Hseen].
Defined.


End HandReading.

(** ** The application state *)

Section Application.

Import App.


End Application.
